(** * Guess What: the session coordination engine

    A shallow embedding of the Socket.IO handlers of the game
    ([handlers/socket-handlers.js]) and of the Mongoose model they use
    ([models/GameSession.js]).

    Conventions of the embedding.
    - A handler runs to completion before the next one starts: the
      interleavings that the [await]s of the source allow are not modelled.
    - Strings are ASCII strings; [trim] removes the ASCII white space that
      [String.prototype.trim] removes and [toLowerCase] maps [A-Z] to [a-z].
    - A [Date] is the integer number of milliseconds it holds; every
      [new Date()] of one handler run reads the same clock value [now].
    - The session store is the collection of documents in insertion order;
      [save] validates the document against the schema and replaces the
      stored document as a whole.  (Mongoose writes the modified paths
      only; the two differ in [handleDisconnect] alone, where a document
      read before [rotateGameMaster] is saved after it.)
    - [activeTimers] is the [Map] of the source, keyed by the [sessionId]
      of the event payload as it was received; [findBySessionId] looks a
      session up by [sessionId.toLowerCase().trim()].
    - Outgoing Socket.IO messages are collected in emission order.  The
      text of chat and notification messages is not modelled, only their
      [type] field. *)

From Stdlib Require Import ZArith Ascii String.
From stdpp Require Import strings numbers sorting prelude.

Local Open Scope string_scope.
Local Open Scope list_scope.
Local Open Scope Z_scope.

(** ** JavaScript strings *)

Module JsString.

(** White space removed by [trim], restricted to ASCII: TAB, LF, VT, FF,
    CR and SPACE. *)
Definition isWhiteSpace (c : ascii) : bool :=
  let n := nat_of_ascii c in
  Nat.eqb n 32 || (Nat.leb 9 n && Nat.leb n 13).

Fixpoint trimStart (s : string) : string :=
  match s with
  | EmptyString => EmptyString
  | String c s' => if isWhiteSpace c then trimStart s' else s
  end.

Fixpoint trimEnd (s : string) : string :=
  match s with
  | EmptyString => EmptyString
  | String c s' =>
      match trimEnd s' with
      | EmptyString => if isWhiteSpace c then EmptyString else String c EmptyString
      | t => String c t
      end
  end.

Definition trim (s : string) : string := trimEnd (trimStart s).

Definition lowerChar (c : ascii) : ascii :=
  let n := nat_of_ascii c in
  if Nat.leb 65 n && Nat.leb n 90 then ascii_of_nat (n + 32) else c.

Fixpoint toLowerCase (s : string) : string :=
  match s with
  | EmptyString => EmptyString
  | String c s' => String (lowerChar c) (toLowerCase s')
  end.

(** [!s] for a string value: only the empty string is falsy. *)
Definition falsy (s : string) : bool :=
  match s with EmptyString => true | _ => false end.

(** [!s] for a value that is a string or [null]. *)
Definition falsyOpt (o : option string) : bool :=
  match o with None => true | Some s => falsy s end.

Definition len (s : string) : Z := Z.of_nat (String.length s).

End JsString.

Import JsString.

(** ** The data model ([models/GameSession.js]) *)

Inductive Status := waiting | in_progress | ended.

Global Instance Status_eq_dec : EqDecision Status.
Proof. solve_decision. Defined.

Record Player := mkPlayer {
  socketId : string;
  username : string;
  score : Z;
  attempts : Z;
  isConnected : bool;
  lastGameMasterTime : option Z;
  lastActivity : Z
}.

Record Session := mkSession {
  sessionId : string;
  requiresGameMaster : bool;
  players : list Player;
  gameMasterId : option string;
  currentQuestion : option string;
  currentAnswer : option string;
  status : Status;
  winner : option string;
  gameStartTime : option Z;
  createdAt : Z;
  updatedAt : Z
}.

(** Field assignments. *)

Definition set_socketId (v : string) (p : Player) : Player :=
  mkPlayer v (username p) (score p) (attempts p) (isConnected p)
           (lastGameMasterTime p) (lastActivity p).
Definition set_score (v : Z) (p : Player) : Player :=
  mkPlayer (socketId p) (username p) v (attempts p) (isConnected p)
           (lastGameMasterTime p) (lastActivity p).
Definition set_attempts (v : Z) (p : Player) : Player :=
  mkPlayer (socketId p) (username p) (score p) v (isConnected p)
           (lastGameMasterTime p) (lastActivity p).
Definition set_isConnected (v : bool) (p : Player) : Player :=
  mkPlayer (socketId p) (username p) (score p) (attempts p) v
           (lastGameMasterTime p) (lastActivity p).
Definition set_lastGameMasterTime (v : option Z) (p : Player) : Player :=
  mkPlayer (socketId p) (username p) (score p) (attempts p) (isConnected p)
           v (lastActivity p).
Definition set_lastActivity (v : Z) (p : Player) : Player :=
  mkPlayer (socketId p) (username p) (score p) (attempts p) (isConnected p)
           (lastGameMasterTime p) v.

Definition set_requiresGameMaster (v : bool) (s : Session) : Session :=
  mkSession (sessionId s) v (players s) (gameMasterId s) (currentQuestion s)
            (currentAnswer s) (status s) (winner s) (gameStartTime s)
            (createdAt s) (updatedAt s).
Definition set_players (v : list Player) (s : Session) : Session :=
  mkSession (sessionId s) (requiresGameMaster s) v (gameMasterId s)
            (currentQuestion s) (currentAnswer s) (status s) (winner s)
            (gameStartTime s) (createdAt s) (updatedAt s).
Definition set_gameMasterId (v : option string) (s : Session) : Session :=
  mkSession (sessionId s) (requiresGameMaster s) (players s) v
            (currentQuestion s) (currentAnswer s) (status s) (winner s)
            (gameStartTime s) (createdAt s) (updatedAt s).
Definition set_currentQuestion (v : option string) (s : Session) : Session :=
  mkSession (sessionId s) (requiresGameMaster s) (players s) (gameMasterId s)
            v (currentAnswer s) (status s) (winner s) (gameStartTime s)
            (createdAt s) (updatedAt s).
Definition set_currentAnswer (v : option string) (s : Session) : Session :=
  mkSession (sessionId s) (requiresGameMaster s) (players s) (gameMasterId s)
            (currentQuestion s) v (status s) (winner s) (gameStartTime s)
            (createdAt s) (updatedAt s).
Definition set_status (v : Status) (s : Session) : Session :=
  mkSession (sessionId s) (requiresGameMaster s) (players s) (gameMasterId s)
            (currentQuestion s) (currentAnswer s) v (winner s)
            (gameStartTime s) (createdAt s) (updatedAt s).
Definition set_winner (v : option string) (s : Session) : Session :=
  mkSession (sessionId s) (requiresGameMaster s) (players s) (gameMasterId s)
            (currentQuestion s) (currentAnswer s) (status s) v
            (gameStartTime s) (createdAt s) (updatedAt s).
Definition set_gameStartTime (v : option Z) (s : Session) : Session :=
  mkSession (sessionId s) (requiresGameMaster s) (players s) (gameMasterId s)
            (currentQuestion s) (currentAnswer s) (status s) (winner s) v
            (createdAt s) (updatedAt s).
Definition set_updatedAt (v : Z) (s : Session) : Session :=
  mkSession (sessionId s) (requiresGameMaster s) (players s) (gameMasterId s)
            (currentQuestion s) (currentAnswer s) (status s) (winner s)
            (gameStartTime s) (createdAt s) v.

(** [session.players.forEach(f)] for an [f] that assigns fields of its
    argument. *)
Definition forEachPlayer (f : Player → Player) (s : Session) : Session :=
  set_players (f <$> players s) s.

(** An assignment through a reference to the player at index [i]. *)
Definition updatePlayer (i : nat) (f : Player → Player) (s : Session) : Session :=
  set_players (alter f i (players s)) s.

(** ** Schema validation and the session store *)

(** [playerSchema]: [socketId] and [username] are required, the user name
    has 1 to 20 characters, [score] is at least 0 and [attempts] lies
    between 0 and 3. *)
Definition validPlayer (p : Player) : bool :=
  negb (falsy (socketId p))
  && (1 <=? len (username p)) && (len (username p) <=? 20)
  && (0 <=? score p)
  && (0 <=? attempts p) && (attempts p <=? 3).

(** [gameSessionSchema] with its [pre("save")] hook: the session id has 3
    to 20 characters, every player is valid, and a session without
    players must be [waiting]. *)
Definition validSession (s : Session) : bool :=
  (3 <=? len (sessionId s)) && (len (sessionId s) <=? 20)
  && forallb validPlayer (players s)
  && negb (bool_decide (players s = []) && negb (bool_decide (status s = waiting))).

(** The key [findBySessionId] looks a session up with. *)
Definition lookupKey (sessionId : string) : string :=
  trim (toLowerCase sessionId).

(** [GameSession.findBySessionId(sessionId)]. *)
Definition findBySessionId (sid : string) (st : list Session) : option Session :=
  snd <$> list_find (λ s, sessionId s = lookupKey sid) st.

(** The stored document with the id of [s] is replaced by [s]; a new
    document is appended. *)
Fixpoint storePut (s : Session) (st : list Session) : list Session :=
  match st with
  | [] => [s]
  | x :: st' =>
      if decide (sessionId x = sessionId s) then s :: st'
      else x :: storePut s st'
  end.

(** ** Outgoing messages *)

Inductive Target :=
| ToSocket (id : string)      (* socket.emit *)
| ToRoom (room : string).     (* io.to(room).emit *)

Inductive Message :=
| error (message : string)
| session_created (sid uname : string) (isGameMaster : bool)
| session_joined (sid uname : string) (isGameMaster : bool)
    (ps : list Player) (gameStatus : Status) (question : option string)
| session_reconnected (sid uname : string) (isGameMaster : bool)
    (ps : list Player) (gameStatus : Status) (question : option string)
| players_update (ps : list Player) (gmId : option string)
| chat_system
| chat_user (uname message : string)
| game_master_notification (type : string)
| player_notification (type : string)
| question_set (question answer : option string)
| game_started (question : option string) (timeLimit : Z)
| guess_result (correct : bool) (attemptsLeft : Z)
| game_ended (reason : string) (winnerName : option string)
    (answer : option string) (ps : list Player)
| new_game_master (gmId : option string) (gmName : string) (ps : list Player)
| next_round_starting (gmId : option string) (gmName : option string).

Definition Emit : Type := Target * Message.

Definition isGameEnded (e : Emit) : bool :=
  match e.2 with game_ended _ _ _ _ => true | _ => false end.

(** ** The coordinator state *)

(** [store] is the collection of session documents; [activeTimers] is the
    module-level [Map] from session id to timeout handle; [scheduled] holds
    the timeouts of the runtime that have neither fired nor been cleared,
    each with the session id its callback captured and its delay in
    milliseconds; [nextTimer] is the next fresh handle. *)
Record World := mkWorld {
  store : list Session;
  activeTimers : list (string * nat);
  scheduled : list (nat * (string * Z));
  nextTimer : nat
}.

Definition emptyWorld : World := mkWorld [] [] [] 0.

Definition set_store (v : list Session) (w : World) : World :=
  mkWorld v (activeTimers w) (scheduled w) (nextTimer w).

(** [Map.prototype.get], [delete] and [set] on an association list with
    unique keys. *)
Definition mapGet {V} (k : string) (m : list (string * V)) : option V :=
  (λ r, r.2.2) <$> list_find (λ kv, kv.1 = k) m.
Definition mapDelete {V} (k : string) (m : list (string * V)) : list (string * V) :=
  filter (λ kv, kv.1 ≠ k) m.
Definition mapSet {V} (k : string) (v : V) (m : list (string * V)) : list (string * V) :=
  match list_find (λ kv, kv.1 = k) m with
  | Some (i, _) => <[i := (k, v)]> m
  | None => m ++ [(k, v)]
  end.

(** [clearTimeout(h)]. *)
Definition clearTimeout (h : nat) (w : World) : World :=
  mkWorld (store w) (activeTimers w) (filter (λ e, e.1 ≠ h) (scheduled w))
          (nextTimer w).

(** [clearGameTimer(sessionId)]. *)
Definition clearGameTimer (sid : string) (w : World) : World :=
  match mapGet sid (activeTimers w) with
  | Some h =>
      let w1 := clearTimeout h w in
      mkWorld (store w1) (mapDelete sid (activeTimers w1)) (scheduled w1)
              (nextTimer w1)
  | None => w
  end.

(** [const timer = setTimeout(callback, delay); activeTimers.set(sid, timer)]
    for the round timer, whose callback captures [sid]. *)
Definition armGameTimer (sid : string) (delay : Z) (w : World) : World :=
  let h := nextTimer w in
  mkWorld (store w) (mapSet sid h (activeTimers w))
          (scheduled w ++ [(h, (sid, delay))]) (S h).

(** [session.save()]: the [pre("save")] hooks set [updatedAt] and validate;
    an invalid document is rejected and nothing is stored. *)
Definition save (now : Z) (s : Session) (w : World) : option World :=
  if validSession s
  then Some (set_store (storePut (set_updatedAt now s) (store w)) w)
  else None.

(** ** Sorting *)

(** [Array.prototype.sort(cmp)] as the stable insertion sort that engines
    run on short arrays: each element is placed, in turn, before the first
    element of the sorted prefix that [cmp] puts it strictly before. *)
Section Sort.
Context {A : Type} (cmp : A → A → Z).

Fixpoint insertSorted (x : A) (l : list A) : list A :=
  match l with
  | [] => [x]
  | y :: l' => if cmp x y <? 0 then x :: l else y :: insertSorted x l'
  end.

Definition jsSort (l : list A) : list A :=
  foldl (λ acc x, insertSorted x acc) [] l.
End Sort.

(** The comparator of both game-master selections:
    [if (!a.lastGameMasterTime) return -1;
     if (!b.lastGameMasterTime) return 1;
     return a.lastGameMasterTime - b.lastGameMasterTime]. *)
Definition byLastGameMasterTime (a b : Player) : Z :=
  match lastGameMasterTime a with
  | None => -1
  | Some ta =>
      match lastGameMasterTime b with
      | None => 1
      | Some tb => ta - tb
      end
  end.

(** ** Game-master selection *)

Definition connectedPlayers (s : Session) : list Player :=
  filter (λ p, isConnected p = true) (players s).

(** [allPlayersExhausted(session)]. *)
Definition allPlayersExhausted (s : Session) : bool :=
  let activePlayers :=
    filter (λ p, isConnected p = true ∧ Some (socketId p) ≠ gameMasterId s)
           (players s) in
  bool_decide (0 < length activePlayers)%nat
  && forallb (λ p, 3 <=? attempts p) activePlayers.

(** [assignGameMaster(session, io, notifyClients)]: the session after the
    call and the messages sent. *)
Definition assignGameMaster (s : Session) (notifyClients : bool)
  : Session * list Emit :=
  let connected := connectedPlayers s in
  if bool_decide (length connected = 0%nat) then
    (set_requiresGameMaster true s, [])
  else
    let currentGameMaster :=
      list_find (λ p, Some (socketId p) = gameMasterId s) (players s) in
    let isGameMasterValid :=
      match currentGameMaster with
      | Some (_, p) => isConnected p
      | None => false
      end in
    if negb isGameMasterValid then
      match jsSort byLastGameMasterTime connected with
      | first :: _ =>
          let s1 := set_requiresGameMaster false
                      (set_gameMasterId (Some (socketId first)) s) in
          (s1,
           if notifyClients then
             [ (ToRoom (sessionId s1),
                new_game_master (gameMasterId s1) (username first) (players s1));
               (ToRoom (sessionId s1),
                players_update (players s1) (gameMasterId s1)) ]
           else [])
      | [] => (s, [])
      end
    else (s, []).

(** The players paired with their index in [session.players]: the objects
    that [filter] and [sort] hand on are the stored ones, and an assignment
    through one of them reaches the player at that index. *)
Definition indexed (ps : list Player) : list (nat * Player) :=
  imap (λ i p, (i, p)) ps.

(** The selection of [rotateGameMaster]: [sortedConnectedPlayers[0]], or
    the first of [otherPlayers] when the current game master is connected
    and [otherPlayers] is not empty. *)
Definition selectNextGameMaster (s : Session) : option (nat * Player) :=
  let connected := filter (λ ip, isConnected ip.2 = true) (indexed (players s)) in
  let currentMaster :=
    list_find (λ p, Some (socketId p) = gameMasterId s) (players s) in
  let sorted := jsSort (λ a b, byLastGameMasterTime a.2 b.2) connected in
  let others := filter (λ ip, Some (socketId ip.2) ≠ gameMasterId s) sorted in
  match currentMaster with
  | Some (_, gm) =>
      if isConnected gm then
        match others with
        | o :: _ => Some o
        | [] => head sorted
        end
      else head sorted
  | None => head sorted
  end.

(** The assignments of [rotateGameMaster] once [nextGameMaster], the player
    at index [i], is selected. *)
Definition installGameMaster (now : Z) (i : nat) (nextGameMaster : Player)
  (s : Session) : Session :=
  set_requiresGameMaster false
    (set_status ended
       (updatePlayer i (set_lastGameMasterTime (Some now))
          (set_gameMasterId (Some (socketId nextGameMaster)) s))).

(** [rotateGameMaster(sessionId, io)]: reloads the session from the store,
    selects the next game master and saves. *)
Definition rotateGameMaster (sid : string) (now : Z) (w : World)
  : World * list Emit :=
  match findBySessionId sid (store w) with
  | None => (w, [])
  | Some s =>
      if bool_decide (length (connectedPlayers s) = 0%nat) then
        match save now (set_requiresGameMaster true s) w with
        | Some w' => (w', [])
        | None => (w, [])
        end
      else
        match selectNextGameMaster s with
        | None => (w, [])
        | Some (i, nextGameMaster) =>
            let s' := installGameMaster now i nextGameMaster s in
            match save now s' w with
            | None => (w, [])
            | Some w' =>
                (w',
                 [ (ToRoom sid,
                    new_game_master (gameMasterId s') (username nextGameMaster)
                                    (players s'));
                   (ToRoom sid, players_update (players s') (gameMasterId s'));
                   (ToRoom sid, chat_system);
                   (ToRoom (socketId nextGameMaster),
                    game_master_notification "new_game_master") ])
            end
        end
  end.

(** ** The handlers *)

Definition handleCreateSession (sock uname sid : string) (now : Z) (w : World)
  : World * list Emit :=
  if falsy (trim uname) || falsy (trim sid) then
    (w, [(ToSocket sock, error "Username and session ID are required")])
  else
    let trimmedSessionId := toLowerCase (trim sid) in
    let trimmedUsername := trim uname in
    match findBySessionId trimmedSessionId (store w) with
    | Some _ =>
        (w, [(ToSocket sock,
              error "Session ID already exists. Please choose a different one.")])
    | None =>
        let session :=
          mkSession trimmedSessionId false
            [ mkPlayer sock trimmedUsername 0 0 true (Some now) now ]
            (Some sock) None None waiting None None now now in
        match save now session w with
        | None => (w, [(ToSocket sock, error "Failed to create session")])
        | Some w' =>
            (w',
             [ (ToSocket sock,
                session_created (sessionId session) trimmedUsername true);
               (ToRoom (sessionId session),
                players_update (players session) (gameMasterId session)) ])
        end
    end.

Definition handleJoinSession (sock uname sid : string) (now : Z) (w : World)
  : World * list Emit :=
  if falsy (trim uname) || falsy (trim sid) then
    (w, [(ToSocket sock, error "Username and session ID are required")])
  else
    let trimmedUsername := trim uname in
    let trimmedSessionId := toLowerCase (trim sid) in
    match findBySessionId trimmedSessionId (store w) with
    | None => (w, [(ToSocket sock, error "Session not found")])
    | Some session =>
        let existingPlayer :=
          list_find (λ p, username p = trimmedUsername) (players session) in
        let joined :=
          match existingPlayer with
          | Some (i, _) =>
              Some (updatePlayer i
                      (λ p, set_lastActivity now
                              (set_isConnected true (set_socketId sock p)))
                      session, true)
          | None =>
              if bool_decide (status session = in_progress) then None
              else
                Some (set_players
                        (players session ++
                           [ mkPlayer sock trimmedUsername 0 0 true None now ])
                        session, false)
          end in
        match joined with
        | None =>
            (w, [(ToSocket sock,
                  error "Game is in progress. Please wait for the next round.")])
        | Some (session1, wasReconnected) =>
            let '(session2, notes) := assignGameMaster session1 true in
            match save now session2 w with
            | None =>
                (w, notes ++ [(ToSocket sock, error "Failed to join session")])
            | Some w' =>
                let isGameMaster :=
                  bool_decide (gameMasterId session2 = Some sock) in
                let question :=
                  if bool_decide (status session2 = in_progress)
                  then currentQuestion session2 else None in
                (w',
                 notes ++
                 [ (ToSocket sock,
                    (if wasReconnected then session_reconnected else session_joined)
                      (sessionId session2) trimmedUsername isGameMaster
                      (players session2) (status session2) question);
                   (ToRoom (sessionId session2),
                    players_update (players session2) (gameMasterId session2));
                   (ToRoom (sessionId session2), chat_system) ] ++
                 match gameMasterId session2 with
                 | Some gm =>
                     if negb (falsy gm) && bool_decide (status session2 = waiting)
                     then [(ToRoom gm, game_master_notification "player_joined")]
                     else []
                 | None => []
                 end)
            end
        end
    end.

Definition handleSetQuestion (sock sid question answer : string) (now : Z)
  (w : World) : World * list Emit :=
  if falsy (trim question) || falsy (trim answer) then
    (w, [(ToSocket sock, error "Question and answer are required")])
  else
    match findBySessionId sid (store w) with
    | None => (w, [(ToSocket sock, error "Session not found")])
    | Some session =>
        if negb (bool_decide (gameMasterId session = Some sock)) then
          (w, [(ToSocket sock, error "Only game master can set questions")])
        else if negb (bool_decide (status session = waiting)) then
          (w, [(ToSocket sock,
                error "Cannot set question while game is in progress")])
        else
          let session1 :=
            set_currentAnswer (Some (toLowerCase (trim answer)))
              (set_currentQuestion (Some (trim question)) session) in
          match save now session1 w with
          | None => (w, [(ToSocket sock, error "Failed to set question")])
          | Some w' =>
              (w',
               [ (ToSocket sock,
                  question_set (currentQuestion session1) (currentAnswer session1));
                 (ToRoom sid, player_notification "question_ready");
                 (ToRoom (default "" (gameMasterId session1)),
                  game_master_notification "question_set") ])
          end
    end.

(** The callback of the round timer, with the [sessionId] it captured.
    Its last statement, [clearGameTimer(sessionId)], sits inside the
    [in_progress] branch. *)
Definition roundTimerCallback (sid : string) (now : Z) (w : World)
  : World * list Emit :=
  match findBySessionId sid (store w) with
  | None => (w, [])
  | Some updatedSession =>
      if bool_decide (status updatedSession = in_progress) then
        let updated := set_status ended updatedSession in
        match save now updated w with
        | None => (w, [])
        | Some w1 =>
            let '(w2, rotation) := rotateGameMaster sid now w1 in
            (clearGameTimer sid w2,
             [ (ToRoom sid,
                game_ended "timeout" None (currentAnswer updated) (players updated)) ]
             ++ rotation ++ [ (ToRoom sid, chat_system) ])
        end
      else (w, [])
  end.

Definition handleStartGame (sock sid : string) (now : Z) (w : World)
  : World * list Emit :=
  match findBySessionId sid (store w) with
  | None => (w, [(ToSocket sock, error "Session not found")])
  | Some session =>
      if negb (bool_decide (gameMasterId session = Some sock)) then
        (w, [(ToSocket sock, error "Only game master can start the game")])
      else if bool_decide (length (connectedPlayers session) < 2)%nat then
        (w, [(ToSocket sock,
              error "Need at least 2 connected players to start the game")])
      else if falsyOpt (currentQuestion session)
              || falsyOpt (currentAnswer session) then
        (w, [(ToSocket sock, error "Please set a question and answer first")])
      else if bool_decide (status session = in_progress) then
        (w, [(ToSocket sock, error "Game is already in progress")])
      else
        let session1 :=
          set_winner None
            (set_gameStartTime (Some now)
               (set_status in_progress
                  (forEachPlayer (set_attempts 0) session))) in
        match save now session1 w with
        | None => (w, [(ToSocket sock, error "Failed to start game")])
        | Some w1 =>
            (armGameTimer sid 60000 (clearGameTimer sid w1),
             [ (ToRoom sid, game_started (currentQuestion session1) 60);
               (ToRoom (default "" (gameMasterId session1)),
                game_master_notification "game_started") ])
        end
  end.

Definition handleSubmitGuess (sock sid guess : string) (now : Z) (w : World)
  : World * list Emit :=
  if falsy (trim guess) then
    (w, [(ToSocket sock, error "Please enter a guess")])
  else
    match findBySessionId sid (store w) with
    | None => (w, [(ToSocket sock, error "Session not found")])
    | Some session =>
        if negb (bool_decide (status session = in_progress)) then
          (w, [(ToSocket sock, error "Game is not in progress")])
        else
          match list_find (λ p, socketId p = sock) (players session) with
          | None => (w, [(ToSocket sock, error "Player not found")])
          | Some (i, player0) =>
              if bool_decide (Some sock = gameMasterId session) then
                (w, [(ToSocket sock, error "Game master cannot submit guesses")])
              else if 3 <=? attempts player0 then
                (w, [(ToSocket sock, error "You have used all your attempts")])
              else
                let session1 :=
                  updatePlayer i (λ p, set_attempts (attempts p + 1) p) session in
                let used := attempts player0 + 1 in
                let normalizedGuess := toLowerCase (trim guess) in
                let isCorrect :=
                  bool_decide (Some normalizedGuess = currentAnswer session1) in
                if isCorrect then
                  let session2 :=
                    set_winner (Some (username player0))
                      (set_status ended
                         (updatePlayer i (λ p, set_score (score p + 10) p)
                                       session1)) in
                  let w1 := clearGameTimer sid w in
                  match save now session2 w1 with
                  | None =>
                      (w1, [(ToSocket sock, error "Failed to submit guess")])
                  | Some w2 =>
                      let '(w3, rotation) := rotateGameMaster sid now w2 in
                      (w3,
                       [ (ToRoom sid,
                          game_ended "winner" (Some (username player0))
                                     (currentAnswer session2) (players session2)) ]
                       ++ rotation ++ [ (ToRoom sid, chat_system) ])
                  end
                else
                  match save now session1 w with
                  | None =>
                      (w, [(ToSocket sock, error "Failed to submit guess")])
                  | Some w1 =>
                      let feedback :=
                        [ (ToSocket sock, guess_result false (3 - used));
                          (ToRoom sid, chat_system) ]
                        ++ match gameMasterId session1 with
                           | Some gm =>
                               if falsy gm then []
                               else [(ToRoom gm,
                                      game_master_notification "player_guessed")]
                           | None => []
                           end in
                      if allPlayersExhausted session1 then
                        let session2 := set_status ended session1 in
                        match save now session2 w1 with
                        | None =>
                            (w1, feedback ++
                                 [(ToSocket sock, error "Failed to submit guess")])
                        | Some w2 =>
                            let w3 := clearGameTimer sid w2 in
                            let '(w4, rotation) := rotateGameMaster sid now w3 in
                            (w4,
                             feedback ++
                             [ (ToRoom sid,
                                game_ended "all_attempts_used" None
                                           (currentAnswer session2)
                                           (players session2)) ]
                             ++ rotation ++ [ (ToRoom sid, chat_system) ])
                        end
                      else (w1, feedback)
                  end
          end
    end.

Definition handleChatMessage (sock sid message : string) (w : World)
  : World * list Emit :=
  if falsy (trim message) then (w, [])
  else
    match findBySessionId sid (store w) with
    | None => (w, [])
    | Some session =>
        match list_find (λ p, socketId p = sock) (players session) with
        | None => (w, [])
        | Some (_, player0) =>
            (w, [(ToRoom sid, chat_user (username player0) (trim message))])
        end
    end.

Definition handleStartNextRound (sock sid : string) (now : Z) (w : World)
  : World * list Emit :=
  match findBySessionId sid (store w) with
  | None => (w, [(ToSocket sock, error "Session not found")])
  | Some session =>
      if negb (bool_decide (gameMasterId session = Some sock)) then
        (w, [(ToSocket sock, error "Only game master can start the next round")])
      else
        let session1 :=
          forEachPlayer (set_attempts 0)
            (set_gameStartTime None
               (set_winner None
                  (set_currentAnswer None
                     (set_currentQuestion None
                        (set_status waiting session))))) in
        match save now session1 w with
        | None => (w, [(ToSocket sock, error "Failed to start next round")])
        | Some w' =>
            (w',
             [ (ToRoom sid,
                next_round_starting (gameMasterId session1)
                  (match list_find (λ p, Some (socketId p) = gameMasterId session1)
                                   (players session1) with
                   | Some (_, p) => Some (username p)
                   | None => None
                   end)) ])
        end
  end.

(** One iteration of the loop of [handleDisconnect], for a session document
    loaded before the loop started.  The flag is [false] when [save]
    throws, which leaves the loop. *)
Definition disconnectFrom (sock : string) (now : Z) (session : Session)
  (w : World) : World * list Emit * bool :=
  match list_find (λ p, socketId p = sock) (players session) with
  | None => (w, [], true)
  | Some (i, player0) =>
      let session1 :=
        updatePlayer i (λ p, set_lastActivity now (set_isConnected false p))
                     session in
      let wasGameMaster := bool_decide (gameMasterId session1 = Some sock) in
      let '(session2, w1, notes) :=
        if wasGameMaster then
          let '(sa, assigned) := assignGameMaster session1 true in
          if bool_decide (status sa = in_progress) then
            let w0 := clearGameTimer (sessionId sa) w in
            let sb := set_status ended sa in
            let '(w1, rotation) := rotateGameMaster (sessionId sb) now w0 in
            (sb, w1,
             assigned ++
             [ (ToRoom (sessionId sb),
                game_ended "timeout" None (currentAnswer sb) (players sb)) ]
             ++ rotation ++ [ (ToRoom (sessionId sb), chat_system) ])
          else (sa, w, assigned)
        else (session1, w, []) in
      match save now session2 w1 with
      | None => (w1, notes, false)
      | Some w2 =>
          (w2,
           notes ++
           [ (ToRoom (sessionId session2),
              players_update (players session2) (gameMasterId session2));
             (ToRoom (sessionId session2), chat_system) ],
           true)
      end
  end.

Fixpoint disconnectLoop (sock : string) (now : Z) (sessions : list Session)
  (w : World) : World * list Emit :=
  match sessions with
  | [] => (w, [])
  | session :: rest =>
      let '(w1, out1, continue) := disconnectFrom sock now session w in
      if continue then
        let '(w2, out2) := disconnectLoop sock now rest w1 in
        (w2, out1 ++ out2)
      else (w1, out1)
  end.

(** [handleDisconnect]: the sessions are those matching
    [{ "players.socketId": socket.id }]. *)
Definition handleDisconnect (sock : string) (now : Z) (w : World)
  : World * list Emit :=
  let sessions :=
    filter (λ s, Exists (λ p, socketId p = sock) (players s)) (store w) in
  disconnectLoop sock now sessions w.

(** ** Events and runs *)

(** What the coordinator reacts to: the Socket.IO events of a socket
    ([socket.on(...)]), and the expiry of a scheduled timeout. *)
Inductive Command :=
| on_create_session (sock uname sid : string)
| on_join_session (sock uname sid : string)
| on_set_question (sock sid question answer : string)
| on_start_game (sock sid : string)
| on_submit_guess (sock sid guess : string)
| on_chat_message (sock sid message : string)
| on_start_next_round (sock sid : string)
| on_disconnect (sock : string)
| on_timeout (h : nat).

(** The expiry of timeout [h]: it leaves the runtime's queue and its
    callback runs. *)
Definition fireTimeout (h : nat) (now : Z) (w : World) : World * list Emit :=
  match list_find (λ e, e.1 = h) (scheduled w) with
  | None => (w, [])
  | Some (_, (_, (sid, _))) => roundTimerCallback sid now (clearTimeout h w)
  end.

Definition run (now : Z) (c : Command) (w : World) : World * list Emit :=
  match c with
  | on_create_session sock uname sid => handleCreateSession sock uname sid now w
  | on_join_session sock uname sid => handleJoinSession sock uname sid now w
  | on_set_question sock sid q a => handleSetQuestion sock sid q a now w
  | on_start_game sock sid => handleStartGame sock sid now w
  | on_submit_guess sock sid guess => handleSubmitGuess sock sid guess now w
  | on_chat_message sock sid message => handleChatMessage sock sid message w
  | on_start_next_round sock sid => handleStartNextRound sock sid now w
  | on_disconnect sock => handleDisconnect sock now w
  | on_timeout h => fireTimeout h now w
  end.

(** The socket an event comes from. *)
Definition sender (c : Command) : option string :=
  match c with
  | on_create_session sock _ _ | on_join_session sock _ _
  | on_set_question sock _ _ _ | on_start_game sock _
  | on_submit_guess sock _ _ | on_chat_message sock _ _
  | on_start_next_round sock _ | on_disconnect sock => Some sock
  | on_timeout _ => None
  end.

(** What the transport and the runtime guarantee, [cl] being the sockets
    that have disconnected: a socket has a non-empty id and raises no event
    after its [disconnect]; only a scheduled timeout expires. *)
Definition enabled (cl : list string) (c : Command) (w : World) : bool :=
  match sender c with
  | Some sock => negb (falsy sock) && bool_decide (sock ∉ cl)
  | None =>
      match c with
      | on_timeout h => bool_decide (Exists (λ e, e.1 = h) (scheduled w))
      | _ => true
      end
  end.

(** The disconnected sockets after an event. *)
Definition closing (c : Command) (cl : list string) : list string :=
  match c with
  | on_disconnect sock => sock :: cl
  | _ => cl
  end.

(** Running a list of timed events from left to right. *)
Fixpoint runAll (cs : list (Z * Command)) (w : World) : World * list Emit :=
  match cs with
  | [] => (w, [])
  | (now, c) :: cs' =>
      let '(w1, out1) := run now c w in
      let '(w2, out2) := runAll cs' w1 in
      (w2, out1 ++ out2)
  end.

(** The coordinator states that events can lead to, with the sockets that
    have disconnected on the way. *)
Inductive reachable : list string → World → Prop :=
| reachable_empty : reachable [] emptyWorld
| reachable_run cl w now c :
    reachable cl w → enabled cl c w = true →
    reachable (closing c cl) (run now c w).1.

(** The same for a whole list of events, as a computation. *)
Fixpoint enabledAll (cl : list string) (cs : list (Z * Command)) (w : World)
  : bool :=
  match cs with
  | [] => true
  | (now, c) :: cs' =>
      enabled cl c w && enabledAll (closing c cl) cs' (run now c w).1
  end.

Definition closingAll (cs : list (Z * Command)) (cl : list string) : list string :=
  foldl (λ acc tc, closing tc.2 acc) cl cs.

(** ** Scenarios *)

Module Scenario.

(** alice creates session [abc12] from socket [s1]; bob joins from [s2]. *)
Definition lobby : list (Z * Command) :=
  [ (1, on_create_session "s1" "alice" "abc12");
    (2, on_join_session "s2" "bob" "abc12") ].

Definition asked : list (Z * Command) :=
  lobby ++ [ (3, on_set_question "s1" "abc12" "capital of france" "paris") ].

(** The round is started with the session id as stored. *)
Definition playing : list (Z * Command) :=
  asked ++ [ (4, on_start_game "s1" "abc12") ].

(** The round is started with the session id in capitals, which
    [findBySessionId] accepts. *)
Definition playingUpper : list (Z * Command) :=
  asked ++ [ (4, on_start_game "s1" "ABC12") ].

(** bob wins the round; the role rotates to him. *)
Definition won : list (Z * Command) :=
  playing ++ [ (5, on_submit_guess "s2" "abc12" "Paris ") ].

Definition worldAfter (cs : list (Z * Command)) : World :=
  (runAll cs emptyWorld).1.

Definition blank : Session :=
  mkSession "" false [] None None None waiting None None 0 0.

(** The document of session [abc12] after the events [cs]. *)
Definition sessionAfter (cs : list (Z * Command)) : Session :=
  default blank (findBySessionId "abc12" (store (worldAfter cs))).

(** The states and documents of the scenarios, computed. *)
Definition lobbyWorld : World := Eval vm_compute in worldAfter lobby.
Definition lobbySession : Session := Eval vm_compute in sessionAfter lobby.
Definition playingWorld : World := Eval vm_compute in worldAfter playing.
Definition playingSession : Session := Eval vm_compute in sessionAfter playing.
Definition playingUpperWorld : World := Eval vm_compute in worldAfter playingUpper.
Definition wonWorld : World := Eval vm_compute in worldAfter won.
Definition wonSession : Session := Eval vm_compute in sessionAfter won.

(** Times in milliseconds: alice starts the round at 4 s under the id
    [ABC12]; bob wins it at 10 s, guessing under the id [abc12]; bob, the
    new game master, sets up the next round and starts it at 40 s. *)
Definition secondRound : list (Z * Command) :=
  [ (1000, on_create_session "s1" "alice" "abc12");
    (2000, on_join_session "s2" "bob" "abc12");
    (3000, on_set_question "s1" "abc12" "capital of france" "paris");
    (4000, on_start_game "s1" "ABC12");
    (10000, on_submit_guess "s2" "abc12" "paris");
    (20000, on_start_next_round "s2" "abc12");
    (30000, on_set_question "s2" "abc12" "capital of italy" "rome");
    (40000, on_start_game "s2" "abc12") ].
Definition secondRoundWorld : World := Eval vm_compute in worldAfter secondRound.

End Scenario.

(** ** Vocabulary of the properties *)

(** A string that is empty or starts with a character that [trim] keeps. *)
Definition startsClean (s : string) : bool :=
  match s with
  | EmptyString => true
  | String c _ => negb (isWhiteSpace c)
  end.

Definition attemptsOf (s : Session) : list Z := attempts <$> players s.

Definition gmTimes (s : Session) : list (option Z) :=
  lastGameMasterTime <$> players s.

(** A [game_ended] message sent to a room whose name is an id of session
    [k]. *)
Definition endsRound (k : string) (e : Emit) : bool :=
  match e with
  | (ToRoom r, game_ended _ _ _ _) => bool_decide (lookupKey r = k)
  | _ => false
  end.

(** What holds of every stored session, [cl] being the sockets that have
    disconnected: its id is the key it is looked up with, user names are
    unique, and a player whose socket has not disconnected is flagged as
    connected. *)
Definition tidy (cl : list string) (s : Session) : Prop :=
  lookupKey (sessionId s) = sessionId s
  ∧ NoDup (username <$> players s)
  ∧ Forall (λ p, socketId p ∉ cl → isConnected p = true) (players s).

Definition Inv (cl : list string) (w : World) : Prop :=
  NoDup (sessionId <$> store w)
  ∧ Forall (λ s, validSession s = true) (store w)
  ∧ Forall (tidy cl) (store w).

(** How the [attempts] of the players of a session change in one step:
    not at all, by one through a guess of that player, or to zero through
    [start_game] or [start_next_round] of the game master. *)
Definition attStep (c : Command) (s s' : Session) : Prop :=
  ∀ j p, players s !! j = Some p →
    ∃ p', players s' !! j = Some p'
      ∧ (attempts p' = attempts p
         ∨ (attempts p' = attempts p + 1 ∧ attempts p < 3
            ∧ status s = in_progress ∧ isConnected p = true
            ∧ gameMasterId s ≠ Some (socketId p)
            ∧ ∃ sid guess, c = on_submit_guess (socketId p) sid guess
                           ∧ lookupKey sid = sessionId s)
         ∨ (attempts p' = 0
            ∧ ∃ sock sid, (c = on_start_game sock sid
                           ∨ c = on_start_next_round sock sid)
                          ∧ lookupKey sid = sessionId s
                          ∧ gameMasterId s = Some sock)).

(** How the [lastGameMasterTime]s of a session change in one step: unless
    the step ends a round of the session, they stay and new players come
    with [null]. *)
Definition timesStep (out : list Emit) (s s' : Session) : Prop :=
  (∃ n, gmTimes s' = gmTimes s ++ replicate n None)
  ∨ Exists (λ e, endsRound (sessionId s) e = true) out.

Definition stepR (cl : list string) (c : Command) (out : list Emit)
  (s s' : Session) : Prop :=
  sessionId s' = sessionId s
  ∧ (tidy cl s → tidy cl s')
  ∧ attStep c s s'
  ∧ timesStep out s s'.

(** The steps that leave the attempts alone. *)
Definition frameR (cl : list string) (out : list Emit) (s s' : Session) : Prop :=
  sessionId s' = sessionId s
  ∧ (tidy cl s → tidy cl s')
  ∧ attemptsOf s `prefix_of` attemptsOf s'
  ∧ timesStep out s s'.

(** A session as [handleCreateSession] stores it at time [now]. *)
Definition freshSession (now : Z) (s' : Session) : Prop :=
  ∃ p, players s' = [p] ∧ lastGameMasterTime p = Some now
       ∧ attempts p = 0 ∧ createdAt s' = now.

(** [st'] is [st] with at most one document replaced, the new document
    being related to the replaced one by [R]. *)
Definition touched (R : Session → Session → Prop) (st st' : list Session) : Prop :=
  st' = st
  ∨ ∃ s0 D, s0 ∈ st ∧ sessionId D = sessionId s0 ∧ st' = storePut D st
            ∧ R s0 D ∧ validSession D = true.

(** [st'] holds the documents of [st], each related to what it was by [R]. *)
Definition slotsRel (R : Session → Session → Prop) (st st' : list Session) : Prop :=
  length st' = length st
  ∧ ∀ i s s', st !! i = Some s → st' !! i = Some s' → R s s'.

(** What one event does to the stored sessions: the invariant is kept, no
    document disappears, every document evolves by [stepR], and a new
    document is one that [create_session] made. *)
Definition stepSpec (cl : list string) (now : Z) (c : Command)
  (w w' : World) (out : list Emit) : Prop :=
  Inv (closing c cl) w'
  ∧ (length (store w) ≤ length (store w'))%nat
  ∧ (∀ i s s', store w !! i = Some s → store w' !! i = Some s' →
               stepR (closing c cl) c out s s')
  ∧ (∀ i s', store w !! i = None → store w' !! i = Some s' →
             freshSession now s'
             ∧ ∃ sock u sid, c = on_create_session sock u sid).



(** [earlier a b]: the time [a] is not after [b], [null] being before every
    time. *)
Definition earlier (a b : option Z) : Prop :=
  match a, b with
  | None, _ => True
  | Some _, None => False
  | Some x, Some y => x ≤ y
  end.

Definition earlierGM (a b : nat * Player) : Prop :=
  earlier (lastGameMasterTime a.2) (lastGameMasterTime b.2).

(** ** The other methods of the model *)

(** The filter of [cleanupOldSessions]: [updatedAt] lies more than 24 hours
    before [now], and some player has [isConnected: false]. *)
Definition isOldSession (now : Z) (s : Session) : bool :=
  (updatedAt s <? now - 24 * 60 * 60 * 1000)
  && existsb (λ p, negb (isConnected p)) (players s).

(** [GameSession.cleanupOldSessions()]: the collection after [deleteMany],
    and its [deletedCount]. *)
Definition cleanupOldSessions (now : Z) (st : list Session)
  : list Session * nat :=
  (filter (λ s, isOldSession now s = false) st,
   length (filter (λ s, isOldSession now s = true) st)).

(** How a method that ends in [return this.save()] completes. *)
Inductive Saved :=
| thrown (message : string)   (* an [Error] thrown before [save] is called *)
| rejected                    (* [save] rejects the document: nothing is stored *)
| stored (w : World).



(** [session.removePlayer(socketId)]. *)
Definition removePlayer (sock : string) (now : Z) (s : Session) (w : World)
  : Saved :=
  let s1 := set_players (filter (λ p, socketId p ≠ sock) (players s)) s in
  match save now s1 w with
  | Some w' => stored w'
  | None => rejected
  end.

(** [session.resetGame()]. *)
Definition resetGame (s : Session) : Session :=
  forEachPlayer (set_attempts 0)
    (set_gameStartTime None
       (set_winner None
          (set_currentAnswer None
             (set_currentQuestion None
                (set_status waiting s))))).

Module Scripts.
Import Scenario.

(** bob has left the lobby. *)
Definition bobLeft : list (Z * Command) :=
  lobby ++ [ (3, on_disconnect "s2") ].
Definition bobLeftWorld : World := Eval vm_compute in worldAfter bobLeft.
Definition bobLeftSession : Session := Eval vm_compute in sessionAfter bobLeft.

End Scripts.

(** ** What one event does, as a whole *)

(** The state with document [D] saved as it is. *)
Definition put (D : Session) (w : World) : World :=
  set_store (storePut D (store w)) w.

(** The document that [rotateGameMaster] saves when it finds [base]. *)
Definition rotateDoc (now : Z) (base : Session) : Session :=
  if bool_decide (length (connectedPlayers base) = 0%nat) then
    set_requiresGameMaster true base
  else
    match selectNextGameMaster base with
    | Some (i, nextGameMaster) => installGameMaster now i nextGameMaster base
    | None => base
    end.

(** The document that [handleJoinSession] saves for the trimmed user name
    [u], if it saves one. *)
Definition joinDoc (sock u : string) (now : Z) (s : Session) : option Session :=
  match list_find (λ p, username p = u) (players s) with
  | Some (i, _) =>
      Some (assignGameMaster
              (updatePlayer i
                 (λ p, set_lastActivity now
                         (set_isConnected true (set_socketId sock p))) s)
              true).1
  | None =>
      if bool_decide (status s = in_progress) then None
      else
        Some (assignGameMaster
                (set_players
                   (players s ++ [ mkPlayer sock u 0 0 true None now ]) s)
                true).1
  end.

(** The documents of [handleStartGame] and [handleStartNextRound]. *)
Definition startDoc (now : Z) (s : Session) : Session :=
  set_winner None
    (set_gameStartTime (Some now)
       (set_status in_progress (forEachPlayer (set_attempts 0) s))).

Definition nextRoundDoc (s : Session) : Session :=
  forEachPlayer (set_attempts 0)
    (set_gameStartTime None
       (set_winner None
          (set_currentAnswer None
             (set_currentQuestion None (set_status waiting s))))).

(** The documents of [handleSubmitGuess] for the player at index [i]: after
    the attempt is counted, and after a correct guess. *)
Definition guessDoc (i : nat) (s : Session) : Session :=
  updatePlayer i (λ p, set_attempts (attempts p + 1) p) s.

Definition winDoc (i : nat) (winnerName : string) (s : Session) : Session :=
  set_winner (Some winnerName)
    (set_status ended
       (updatePlayer i (λ p, set_score (score p + 10) p) (guessDoc i s))).

(** The document that [handleDisconnect] saves for a session in which the
    socket plays, without the time stamp of [save]. *)
Definition leaveDoc (sock : string) (now : Z) (x : Session) : Session :=
  match list_find (λ p, socketId p = sock) (players x) with
  | None => x
  | Some (i, _) =>
      let session1 :=
        updatePlayer i (λ p, set_lastActivity now (set_isConnected false p)) x in
      if bool_decide (gameMasterId session1 = Some sock) then
        let sa := (assignGameMaster session1 true).1 in
        if bool_decide (status sa = in_progress) then set_status ended sa
        else sa
      else session1
  end.

(** Whether the socket is one of the players of the session, and whether
    its [disconnect] ends a round of the session. *)
Definition playsIn (sock : string) (x : Session) : bool :=
  bool_decide (Exists (λ p, socketId p = sock) (players x)).

Definition cutsRound (sock : string) (x : Session) : bool :=
  playsIn sock x && bool_decide (gameMasterId x = Some sock)
  && bool_decide (status x = in_progress).

(** The state after [handleDisconnect]. *)
Definition leaveAll (sock : string) (now : Z) (w : World) : World :=
  let wt :=
    foldl (λ acc x, if cutsRound sock x then clearGameTimer (sessionId x) acc
                    else acc) w (store w) in
  mkWorld ((λ x, if playsIn sock x then set_updatedAt now (leaveDoc sock now x)
                 else x) <$> store w)
          (activeTimers wt) (scheduled wt) (nextTimer wt).

(** The state after an event, by the event and the branch of its handler.
    [effect_none] is an event that is refused or ignored. *)
Inductive effect (now : Z) (c : Command) (w : World) : World → Prop :=
| effect_none : effect now c w w
| effect_created sock u sid D :
    c = on_create_session sock u sid →
    lookupKey sid ∉ (sessionId <$> store w) →
    D = mkSession (lookupKey sid) false
                  [ mkPlayer sock (trim u) 0 0 true (Some now) now ]
                  (Some sock) None None waiting None None now now →
    validSession D = true →
    effect now c w (set_store (store w ++ [D]) w)
| effect_joined sock u sid s D :
    c = on_join_session sock u sid →
    findBySessionId sid (store w) = Some s →
    joinDoc sock (trim u) now s = Some D →
    validSession D = true →
    effect now c w (put (set_updatedAt now D) w)
| effect_asked sock sid q a s :
    c = on_set_question sock sid q a →
    findBySessionId sid (store w) = Some s →
    gameMasterId s = Some sock → status s = waiting →
    falsy (trim q) = false → falsy (trim a) = false →
    effect now c w
      (put (set_updatedAt now
              (set_currentAnswer (Some (toLowerCase (trim a)))
                 (set_currentQuestion (Some (trim q)) s))) w)
| effect_started sock sid s :
    c = on_start_game sock sid →
    findBySessionId sid (store w) = Some s →
    gameMasterId s = Some sock → status s ≠ in_progress →
    (2 ≤ length (connectedPlayers s))%nat →
    falsyOpt (currentQuestion s) = false →
    falsyOpt (currentAnswer s) = false →
    effect now c w
      (armGameTimer sid 60000
         (clearGameTimer sid (put (set_updatedAt now (startDoc now s)) w)))
| effect_guessed sock sid guess s i p0 :
    c = on_submit_guess sock sid guess →
    findBySessionId sid (store w) = Some s →
    status s = in_progress →
    list_find (λ p, socketId p = sock) (players s) = Some (i, p0) →
    gameMasterId s ≠ Some sock → attempts p0 < 3 →
    currentAnswer s ≠ Some (toLowerCase (trim guess)) →
    allPlayersExhausted (guessDoc i s) = false →
    effect now c w (put (set_updatedAt now (guessDoc i s)) w)
| effect_exhausted sock sid guess s i p0 :
    c = on_submit_guess sock sid guess →
    findBySessionId sid (store w) = Some s →
    status s = in_progress →
    list_find (λ p, socketId p = sock) (players s) = Some (i, p0) →
    gameMasterId s ≠ Some sock → attempts p0 < 3 →
    currentAnswer s ≠ Some (toLowerCase (trim guess)) →
    allPlayersExhausted (guessDoc i s) = true →
    effect now c w
      (clearGameTimer sid
         (put (set_updatedAt now
                 (rotateDoc now (set_status ended (guessDoc i s)))) w))
| effect_won sock sid guess s i p0 :
    c = on_submit_guess sock sid guess →
    findBySessionId sid (store w) = Some s →
    status s = in_progress →
    list_find (λ p, socketId p = sock) (players s) = Some (i, p0) →
    gameMasterId s ≠ Some sock → attempts p0 < 3 →
    currentAnswer s = Some (toLowerCase (trim guess)) →
    effect now c w
      (clearGameTimer sid
         (put (set_updatedAt now (rotateDoc now (winDoc i (username p0) s))) w))
| effect_next sock sid s :
    c = on_start_next_round sock sid →
    findBySessionId sid (store w) = Some s →
    gameMasterId s = Some sock →
    effect now c w (put (set_updatedAt now (nextRoundDoc s)) w)
| effect_late h k sid d :
    c = on_timeout h →
    list_find (λ e, e.1 = h) (scheduled w) = Some (k, (h, (sid, d))) →
    (∀ s, findBySessionId sid (store w) = Some s → status s ≠ in_progress) →
    effect now c w (clearTimeout h w)
| effect_timeout h k sid d s :
    c = on_timeout h →
    list_find (λ e, e.1 = h) (scheduled w) = Some (k, (h, (sid, d))) →
    findBySessionId sid (store w) = Some s →
    status s = in_progress →
    effect now c w
      (clearGameTimer sid
         (put (set_updatedAt now (rotateDoc now (set_status ended s)))
              (clearTimeout h w)))
| effect_left sock :
    c = on_disconnect sock →
    effect now c w (leaveAll sock now w).

(** What an event does to one stored session.  [docStep_same] is for a
    session that the event leaves alone. *)
Inductive docStep (now : Z) (c : Command) (s : Session) : Session → Prop :=
| docStep_same : docStep now c s s
| docStep_joined sock u sid D :
    c = on_join_session sock u sid → lookupKey sid = sessionId s →
    joinDoc sock (trim u) now s = Some D → validSession D = true →
    docStep now c s (set_updatedAt now D)
| docStep_asked sock sid q a :
    c = on_set_question sock sid q a → lookupKey sid = sessionId s →
    gameMasterId s = Some sock → status s = waiting →
    falsy (trim q) = false → falsy (trim a) = false →
    docStep now c s
      (set_updatedAt now
         (set_currentAnswer (Some (toLowerCase (trim a)))
            (set_currentQuestion (Some (trim q)) s)))
| docStep_started sock sid :
    c = on_start_game sock sid → lookupKey sid = sessionId s →
    gameMasterId s = Some sock → status s ≠ in_progress →
    (2 ≤ length (connectedPlayers s))%nat →
    falsyOpt (currentQuestion s) = false →
    falsyOpt (currentAnswer s) = false →
    docStep now c s (set_updatedAt now (startDoc now s))
| docStep_guessed sock sid guess i p0 :
    c = on_submit_guess sock sid guess → lookupKey sid = sessionId s →
    status s = in_progress →
    list_find (λ p, socketId p = sock) (players s) = Some (i, p0) →
    gameMasterId s ≠ Some sock → attempts p0 < 3 →
    currentAnswer s ≠ Some (toLowerCase (trim guess)) →
    allPlayersExhausted (guessDoc i s) = false →
    docStep now c s (set_updatedAt now (guessDoc i s))
| docStep_exhausted sock sid guess i p0 :
    c = on_submit_guess sock sid guess → lookupKey sid = sessionId s →
    status s = in_progress →
    list_find (λ p, socketId p = sock) (players s) = Some (i, p0) →
    gameMasterId s ≠ Some sock → attempts p0 < 3 →
    currentAnswer s ≠ Some (toLowerCase (trim guess)) →
    allPlayersExhausted (guessDoc i s) = true →
    docStep now c s
      (set_updatedAt now (rotateDoc now (set_status ended (guessDoc i s))))
| docStep_won sock sid guess i p0 :
    c = on_submit_guess sock sid guess → lookupKey sid = sessionId s →
    status s = in_progress →
    list_find (λ p, socketId p = sock) (players s) = Some (i, p0) →
    gameMasterId s ≠ Some sock → attempts p0 < 3 →
    currentAnswer s = Some (toLowerCase (trim guess)) →
    docStep now c s
      (set_updatedAt now (rotateDoc now (winDoc i (username p0) s)))
| docStep_next sock sid :
    c = on_start_next_round sock sid → lookupKey sid = sessionId s →
    gameMasterId s = Some sock →
    docStep now c s (set_updatedAt now (nextRoundDoc s))
| docStep_timeout h :
    c = on_timeout h → status s = in_progress →
    docStep now c s (set_updatedAt now (rotateDoc now (set_status ended s)))
| docStep_left sock :
    c = on_disconnect sock → playsIn sock s = true →
    docStep now c s (set_updatedAt now (leaveDoc sock now s)).

(** The state after the iteration of [handleDisconnect] for document [x]. *)
Definition leaveStep (sock : string) (now : Z) (w : World) (x : Session) : World :=
  put (set_updatedAt now (leaveDoc sock now x))
      (if cutsRound sock x then clearGameTimer (sessionId x) w else w).

(** The timer that the iteration for document [x] clears. *)
Definition clearIfCut (sock : string) (w : World) (x : Session) : World :=
  if cutsRound sock x then clearGameTimer (sessionId x) w else w.


(** How the status of a session changes in one step. *)
Definition statusStep (c : Command) (s s' : Session) : Prop :=
  status s' = status s
  ∨ (status s ≠ in_progress ∧ status s' = in_progress
     ∧ falsyOpt (currentQuestion s) = false
     ∧ falsyOpt (currentAnswer s) = false
     ∧ (2 ≤ length (connectedPlayers s))%nat
     ∧ ∃ sock sid, c = on_start_game sock sid
                   ∧ lookupKey sid = sessionId s
                   ∧ gameMasterId s = Some sock)
  ∨ (status s' = waiting
     ∧ ∃ sock sid, c = on_start_next_round sock sid
                   ∧ lookupKey sid = sessionId s
                   ∧ gameMasterId s = Some sock)
  ∨ (status s = in_progress ∧ status s' = ended
     ∧ ((∃ sock sid guess, c = on_submit_guess sock sid guess
                           ∧ lookupKey sid = sessionId s
                           ∧ gameMasterId s ≠ Some sock)
        ∨ (∃ h, c = on_timeout h)
        ∨ (∃ sock, c = on_disconnect sock ∧ gameMasterId s = Some sock))).

(** How question and answer of a session change in one step. *)
Definition questionStep (c : Command) (s s' : Session) : Prop :=
  (currentQuestion s' = currentQuestion s ∧ currentAnswer s' = currentAnswer s)
  ∨ (∃ sock sid q a,
       c = on_set_question sock sid q a ∧ lookupKey sid = sessionId s
       ∧ gameMasterId s = Some sock ∧ status s = waiting
       ∧ falsy (trim q) = false ∧ falsy (trim a) = false
       ∧ currentQuestion s' = Some (trim q)
       ∧ currentAnswer s' = Some (toLowerCase (trim a)))
  ∨ (∃ sock sid,
       c = on_start_next_round sock sid ∧ lookupKey sid = sessionId s
       ∧ gameMasterId s = Some sock ∧ status s' = waiting
       ∧ currentQuestion s' = None ∧ currentAnswer s' = None).

(** How the winner of a session changes in one step: it stays, is cleared
    by [start_game] or [start_next_round], or becomes the user name of the
    player whose guess ends the round. *)
Definition winnerStep (c : Command) (s s' : Session) : Prop :=
  (winner s' = winner s
   ∧ (status s' = status s ∨ (status s = in_progress ∧ status s' = ended)))
  ∨ (winner s' = None ∧ status s' ≠ ended)
  ∨ (∃ p, p ∈ players s ∧ winner s' = Some (username p) ∧ status s' = ended).

(** What no step changes: the id and the creation time of a session, and
    the user names of its players, to which a step can only add one at the
    end. *)
Definition keptStep (s s' : Session) : Prop :=
  sessionId s' = sessionId s ∧ createdAt s' = createdAt s
  ∧ ((username <$> players s') = (username <$> players s)
     ∨ ∃ u, (u ∉ (username <$> players s))
            ∧ (username <$> players s') = (username <$> players s) ++ [u]).

(** What holds of every stored session: a stored answer is not blank and
    is trimmed and in lower case; a stored question is not blank and is
    trimmed; a round in progress has both; a session has a winner only when
    it is [ended], and the winner is one of its players. *)
Definition wellKept (s : Session) : Prop :=
  (∀ a, currentAnswer s = Some a → falsy a = false ∧ toLowerCase (trim a) = a)
  ∧ (∀ q, currentQuestion s = Some q → falsy q = false ∧ trim q = q)
  ∧ (status s = in_progress →
     is_Some (currentQuestion s) ∧ is_Some (currentAnswer s))
  ∧ (∀ u, winner s = Some u → status s = ended ∧ u ∈ username <$> players s).

(** Lists of players that agree on names and scores. *)
Definition sameScores (ps ps' : list Player) : Prop :=
  username <$> ps' = username <$> ps ∧ score <$> ps' = score <$> ps.

(** What holds of the timers in every reachable state: [activeTimers] has
    one entry per id and one id per handle; the pending timeouts have
    different handles, each is the timeout that [activeTimers] records for
    the id it captured, and each has a delay of 60 seconds; every handle is
    below the next fresh one. *)
Definition timersKept (w : World) : Prop :=
  NoDup (fst <$> activeTimers w)
  ∧ NoDup (snd <$> activeTimers w)
  ∧ NoDup (fst <$> scheduled w)
  ∧ Forall (λ kv, (kv.2 < nextTimer w)%nat) (activeTimers w)
  ∧ Forall (λ e, (e.1 < nextTimer w)%nat
                 ∧ mapGet e.2.1 (activeTimers w) = Some e.1
                 ∧ e.2.2 = 60000) (scheduled w).

(** A timeout is pending whose callback will look up the session with id
    [k]. *)
Definition pendingFor (k : string) (w : World) : Prop :=
  Exists (λ e, lookupKey e.2.1 = k) (scheduled w).

(** Every session in progress has a pending timeout. *)
Definition roundsTimed (w : World) : Prop :=
  ∀ s, s ∈ store w → status s = in_progress → pendingFor (sessionId s) w.

(** ** Further scenarios *)

Module Rounds.
Import Scenario.


End Rounds.

(** * Properties *)

(** ** The store *)

Section Store.
Implicit Types (s : Session) (st : list Session) (w : World).

Lemma findBySessionId_Some sid st s :
  findBySessionId sid st = Some s →
  ∃ i, st !! i = Some s ∧ sessionId s = lookupKey sid
       ∧ ∀ j x, st !! j = Some x → sessionId x = lookupKey sid → (i ≤ j)%nat.
Proof.
  unfold findBySessionId. intros H.
  destruct (list_find _ st) as [[i x]|] eqn:E; simplify_eq/=.
  apply list_find_Some in E as (Hi & Hk & Hmin).
  exists i. split_and!; [done..|].
  intros j y Hj Hy. destruct (decide (i ≤ j)%nat); [done|].
  exfalso. apply (Hmin j y); [done|lia|done].
Qed.

Lemma findBySessionId_elem_of sid st s :
  findBySessionId sid st = Some s → s ∈ st ∧ sessionId s = lookupKey sid.
Proof.
  intros (i & Hi & Hk & _)%findBySessionId_Some.
  split; [by eapply list_elem_of_lookup_2|done].
Qed.

Lemma findBySessionId_None sid st :
  findBySessionId sid st = None →
  ∀ s, s ∈ st → sessionId s ≠ lookupKey sid.
Proof.
  unfold findBySessionId. intros H s Hs.
  destruct (list_find _ st) as [[i x]|] eqn:E; simplify_eq/=.
  apply list_find_None in E. rewrite Forall_forall in E. exact (E s Hs).
Qed.

Lemma findBySessionId_same_key sid sid' st :
  lookupKey sid = lookupKey sid' →
  findBySessionId sid st = findBySessionId sid' st.
Proof. unfold findBySessionId. by intros ->. Qed.

Lemma storePut_ids s st :
  s.(sessionId) ∈ (sessionId <$> st) →
  sessionId <$> storePut s st = sessionId <$> st.
Proof.
  induction st as [|x st IH]; simpl; [by intros ?%elem_of_nil|].
  intros H. case_decide as E; simpl; [by rewrite E|].
  f_equal. apply IH. apply elem_of_cons in H as [?|?]; [congruence|done].
Qed.

Lemma storePut_fresh s st :
  s.(sessionId) ∉ (sessionId <$> st) → storePut s st = st ++ [s].
Proof.
  induction st as [|x st IH]; simpl; [done|].
  intros H. apply not_elem_of_cons in H as [? ?].
  case_decide; [congruence|]. by rewrite IH.
Qed.

Lemma storePut_lookup s st i s0 :
  NoDup (sessionId <$> st) →
  st !! i = Some s0 → sessionId s = sessionId s0 →
  storePut s st = <[i := s]> st.
Proof.
  revert i. induction st as [|x st IH]; intros i Hnd Hi Hk; [done|].
  simpl in Hnd. apply NoDup_cons in Hnd as [Hx Hnd].
  destruct i as [|i]; simplify_eq/=.
  - by rewrite decide_True.
  - rewrite decide_False.
    + f_equal. by apply IH.
    + intros E. apply Hx. rewrite E, Hk.
      apply list_elem_of_fmap. exists s0. split; [done|].
      by eapply list_elem_of_lookup_2.
Qed.

Lemma storePut_NoDup s st :
  NoDup (sessionId <$> st) → NoDup (sessionId <$> storePut s st).
Proof.
  intros Hnd. destruct (decide (sessionId s ∈ sessionId <$> st)) as [Hin|Hout].
  - by rewrite storePut_ids.
  - rewrite storePut_fresh by done. rewrite fmap_app. simpl.
    apply NoDup_app. split_and!; [done| |apply NoDup_singleton].
    intros k Hk ->%list_elem_of_singleton. done.
Qed.

Lemma storePut_Forall (P : Session → Prop) s st :
  Forall P st → P s → Forall P (storePut s st).
Proof.
  induction 1 as [|x st Hx Hst IH]; simpl; intros Hs.
  - by constructor.
  - case_decide; constructor; auto.
Qed.

Lemma storePut_elem_of s st x :
  x ∈ storePut s st → x = s ∨ x ∈ st.
Proof.
  induction st as [|y st IH]; simpl.
  - intros ->%list_elem_of_singleton. by left.
  - case_decide.
    + intros [->|?]%elem_of_cons; [by left|]. right. by right.
    + intros [->|?]%elem_of_cons; [right; by left|].
      destruct IH as [?|?]; [done|by left|]. right. by right.
Qed.

(** Looking up the key of a document that has just been put. *)
Lemma findBySessionId_storePut sid s s0 st :
  findBySessionId sid st = Some s0 → sessionId s = sessionId s0 →
  findBySessionId sid (storePut s st) = Some s.
Proof.
  intros Hf Hk. pose proof (findBySessionId_elem_of _ _ _ Hf) as [_ Hk0].
  revert Hf. unfold findBySessionId.
  induction st as [|x st IH]; simpl; [done|].
  intros Hf. destruct (decide (sessionId x = sessionId s)) as [E1|E1]; simpl.
  - rewrite decide_True by congruence. done.
  - rewrite decide_False by congruence.
    rewrite decide_False in Hf by congruence.
    destruct (list_find _ st) as [[i y]|] eqn:E; simplify_eq/=.
    specialize (IH eq_refl).
    destruct (list_find _ (storePut s st)) as [[j z]|]; simplify_eq/=. done.
Qed.

Lemma findBySessionId_storePut_ne sid s st :
  sessionId s ≠ lookupKey sid →
  findBySessionId sid (storePut s st) = findBySessionId sid st.
Proof.
  intros Hne. unfold findBySessionId.
  induction st as [|x st IH]; simpl.
  - by rewrite decide_False.
  - destruct (decide (sessionId x = sessionId s)) as [E1|E1]; simpl.
    + rewrite !decide_False by congruence. done.
    + destruct (decide (sessionId x = lookupKey sid)); [done|].
      destruct (list_find _ st) as [[i y]|],
               (list_find _ (storePut s st)) as [[j z]|]; simplify_eq/=; done.
Qed.

End Store.

(** ** Strings: normalising a session id twice changes nothing *)

Section StringFacts.

Lemma isWhiteSpace_lowerChar c : isWhiteSpace (lowerChar c) = isWhiteSpace c.
Proof. by destruct c as [[] [] [] [] [] [] [] []]. Qed.

Lemma lowerChar_idem c : lowerChar (lowerChar c) = lowerChar c.
Proof. by destruct c as [[] [] [] [] [] [] [] []]. Qed.

Lemma toLowerCase_idem s : toLowerCase (toLowerCase s) = toLowerCase s.
Proof. induction s as [|c s IH]; simpl; [done|]. by rewrite lowerChar_idem, IH. Qed.

Lemma toLowerCase_trimStart s :
  toLowerCase (trimStart s) = trimStart (toLowerCase s).
Proof.
  induction s as [|c s IH]; simpl; [done|].
  rewrite isWhiteSpace_lowerChar. by destruct (isWhiteSpace c).
Qed.

Lemma toLowerCase_trimEnd s :
  toLowerCase (trimEnd s) = trimEnd (toLowerCase s).
Proof.
  induction s as [|c s IH]; simpl; [done|].
  rewrite <- IH, isWhiteSpace_lowerChar.
  destruct (trimEnd s); simpl; [by destruct (isWhiteSpace c)|done].
Qed.

Lemma toLowerCase_trim s : toLowerCase (trim s) = trim (toLowerCase s).
Proof. unfold trim. by rewrite toLowerCase_trimEnd, toLowerCase_trimStart. Qed.

Lemma startsClean_trimStart s : startsClean (trimStart s) = true.
Proof.
  induction s as [|c s IH]; simpl; [done|].
  destruct (isWhiteSpace c) eqn:E; [done|]. simpl. by rewrite E.
Qed.

Lemma startsClean_trimEnd s :
  startsClean s = true → startsClean (trimEnd s) = true.
Proof.
  destruct s as [|c s]; simpl; [done|]. intros H.
  destruct (trimEnd s); simpl; [|done].
  destruct (isWhiteSpace c) eqn:E; simpl; [done|by rewrite E].
Qed.

Lemma trimStart_clean s : startsClean s = true → trimStart s = s.
Proof. destruct s as [|c s]; simpl; [done|]. by destruct (isWhiteSpace c). Qed.

Lemma trimEnd_idem s : trimEnd (trimEnd s) = trimEnd s.
Proof.
  induction s as [|c s IH]; simpl; [done|].
  destruct (trimEnd s) as [|d t] eqn:E.
  - destruct (isWhiteSpace c) eqn:Ec; simpl; [done|]. by rewrite Ec.
  - change (trimEnd (String c (String d t))) with
      (match trimEnd (String d t) with
       | EmptyString => if isWhiteSpace c then EmptyString else String c EmptyString
       | u => String c u
       end).
    by rewrite IH.
Qed.

Lemma trim_idem s : trim (trim s) = trim s.
Proof.
  unfold trim.
  rewrite (trimStart_clean (trimEnd (trimStart s))).
  - apply trimEnd_idem.
  - apply startsClean_trimEnd, startsClean_trimStart.
Qed.

(** The id under which [handleCreateSession] stores a session is the key
    under which [findBySessionId] looks it up. *)
Lemma lookupKey_normalised sid :
  lookupKey (toLowerCase (trim sid)) = toLowerCase (trim sid).
Proof.
  unfold lookupKey.
  by rewrite toLowerCase_idem, <- toLowerCase_trim, trim_idem.
Qed.

Lemma lookupKey_idem sid : lookupKey (lookupKey sid) = lookupKey sid.
Proof.
  assert (lookupKey sid = toLowerCase (trim sid)) as ->
    by (unfold lookupKey; by rewrite toLowerCase_trim).
  apply lookupKey_normalised.
Qed.

End StringFacts.

(** ** Saving, timers, sorting *)

Section Basics.
Implicit Types (s : Session) (st : list Session) (w : World)
  (p : Player) (ps : list Player).

Lemma save_Some now s w w' :
  save now s w = Some w' →
  validSession s = true
  ∧ w' = set_store (storePut (set_updatedAt now s) (store w)) w.
Proof. unfold save. by destruct (validSession s); intros; simplify_eq. Qed.

Lemma save_valid now s w : validSession s = true → is_Some (save now s w).
Proof. unfold save. intros ->. eauto. Qed.

Lemma validSession_updatedAt now s :
  validSession (set_updatedAt now s) = validSession s.
Proof. done. Qed.

Lemma store_clearGameTimer sid w : store (clearGameTimer sid w) = store w.
Proof. unfold clearGameTimer. by destruct (mapGet _ _). Qed.

Lemma store_armGameTimer sid d w : store (armGameTimer sid d w) = store w.
Proof. done. Qed.

Lemma store_clearTimeout h w : store (clearTimeout h w) = store w.
Proof. done. Qed.

Lemma storePut_storePut s1 s2 st :
  sessionId s2 = sessionId s1 →
  storePut s2 (storePut s1 st) = storePut s2 st.
Proof.
  intros Hk. induction st as [|x st IH]; simpl.
  - by rewrite decide_True.
  - destruct (decide (sessionId x = sessionId s1)) as [E|E]; simpl.
    + rewrite !decide_True by congruence. done.
    + rewrite !decide_False by congruence. by rewrite IH.
Qed.

(** Lists of players. *)

Lemma fmap_alter_same {B} (g : Player → B) (f : Player → Player) i ps :
  (∀ p, g (f p) = g p) → g <$> alter f i ps = g <$> ps.
Proof.
  intros Hg. revert i. induction ps as [|p ps IH]; intros [|i]; csimpl;
    rewrite ?Hg, ?IH; done.
Qed.

Lemma fmap_fmap_same {B} (g : Player → B) (f : Player → Player) ps :
  (∀ p, g (f p) = g p) → g <$> (f <$> ps) = g <$> ps.
Proof.
  intros Hg. induction ps as [|p ps IH]; csimpl; [done|]. by rewrite Hg, IH.
Qed.

Lemma forallb_Forall {A} (f : A → bool) (l : list A) :
  forallb f l = true ↔ Forall (λ x, f x = true) l.
Proof.
  induction l as [|x l IH]; simpl.
  - split; [constructor|done].
  - rewrite andb_true_iff, IH, Forall_cons. done.
Qed.

(** Sorting permutes. *)

Lemma insertSorted_perm {A} (cmp : A → A → Z) x (l : list A) :
  insertSorted cmp x l ≡ₚ x :: l.
Proof.
  induction l as [|y l IH]; simpl; [done|].
  destruct (cmp x y <? 0); [done|]. rewrite IH. apply Permutation_swap.
Qed.

Lemma jsSort_perm {A} (cmp : A → A → Z) (l : list A) : jsSort cmp l ≡ₚ l.
Proof.
  unfold jsSort.
  assert (∀ acc, foldl (λ acc x, insertSorted cmp x acc) acc l ≡ₚ acc ++ l) as H.
  { induction l as [|x l IH]; intros acc; simpl.
    - by rewrite app_nil_r.
    - rewrite IH, insertSorted_perm. by rewrite <- Permutation_middle. }
  apply H.
Qed.

Lemma jsSort_elem_of {A} (cmp : A → A → Z) (l : list A) x :
  x ∈ jsSort cmp l ↔ x ∈ l.
Proof. by rewrite jsSort_perm. Qed.

Lemma jsSort_nil_inv {A} (cmp : A → A → Z) (l : list A) :
  jsSort cmp l = [] → l = [].
Proof.
  intros H. apply Permutation_nil_r. rewrite <- H. symmetry. apply jsSort_perm.
Qed.

Lemma indexed_elem_of ps i p : (i, p) ∈ indexed ps ↔ ps !! i = Some p.
Proof.
  unfold indexed. rewrite elem_of_lookup_imap. split.
  - intros (j & q & ? & ?); by simplify_eq.
  - intros ?. eauto.
Qed.

End Basics.

(** ** Selecting a game master *)

Section Selection.
Implicit Types (s : Session) (w : World) (p : Player).

Lemma selectNextGameMaster_Some s i nxt :
  selectNextGameMaster s = Some (i, nxt) →
  players s !! i = Some nxt ∧ isConnected nxt = true.
Proof.
  unfold selectNextGameMaster.
  set (connected := filter _ (indexed (players s))).
  set (sorted := jsSort _ connected).
  set (others := filter _ sorted).
  intros H.
  assert ((i, nxt) ∈ sorted) as Hin.
  { assert (∀ l : list (nat * Player), head l = Some (i, nxt) → (i, nxt) ∈ l) as Hhd.
    { intros [|x l] ?; simplify_eq/=. by left. }
    assert (others = [] ∨ ∀ o l, others = o :: l → o ∈ sorted) as Hoth.
    { right. intros o l Ho.
      assert (o ∈ others) as Hm by (rewrite Ho; by left).
      by apply list_elem_of_filter in Hm as [_ ?]. }
    destruct (list_find _ (players s)) as [[k gm]|]; [|by apply Hhd].
    destruct (isConnected gm); [|by apply Hhd].
    destruct others as [|o l] eqn:Eo; [by apply Hhd|].
    simplify_eq. destruct Hoth as [?|Hoth]; [done|]. by eapply Hoth. }
  apply jsSort_elem_of in Hin.
  apply list_elem_of_filter in Hin as [Hc Hin]. simpl in Hc.
  by apply indexed_elem_of in Hin.
Qed.

(** The three outcomes of [assignGameMaster]. *)
Lemma assignGameMaster_cases s notify s' ev :
  assignGameMaster s notify = (s', ev) →
  (s' = set_requiresGameMaster true s ∧ connectedPlayers s = [] ∧ ev = [])
  ∨ (s' = s ∧ ev = [])
  ∨ (∃ first,
       first ∈ connectedPlayers s
       ∧ s' = set_requiresGameMaster false
                (set_gameMasterId (Some (socketId first)) s)
       ∧ Forall (λ e, isGameEnded e = false) ev).
Proof.
  unfold assignGameMaster. intros H.
  case_bool_decide as Hlen.
  { simplify_eq. left. split_and!; [done| |done].
    by apply nil_length_inv. }
  destruct (negb _).
  - destruct (jsSort _ _) as [|first l] eqn:Es.
    + simplify_eq. right. by left.
    + simplify_eq. right. right. exists first. split_and!; [|done|].
      * apply (jsSort_elem_of byLastGameMasterTime). rewrite Es. by left.
      * destruct notify; repeat constructor.
  - simplify_eq. right. by left.
Qed.

(** The three outcomes of [rotateGameMaster]. *)
Lemma rotateGameMaster_cases sid now w w' out :
  rotateGameMaster sid now w = (w', out) →
  (w' = w ∧ out = [])
  ∨ ∃ s s',
      findBySessionId sid (store w) = Some s
      ∧ save now s' w = Some w'
      ∧ ((s' = set_requiresGameMaster true s ∧ out = [])
         ∨ ∃ i nxt,
             players s !! i = Some nxt ∧ isConnected nxt = true
             ∧ selectNextGameMaster s = Some (i, nxt)
             ∧ s' = installGameMaster now i nxt s
             ∧ Forall (λ e, isGameEnded e = false) out).
Proof.
  unfold rotateGameMaster. intros H.
  destruct (findBySessionId sid (store w)) as [s|] eqn:Ef;
    [|simplify_eq; by left].
  case_bool_decide.
  - destruct (save now _ w) as [w1|] eqn:Es; simplify_eq; [|by left].
    right. exists s, (set_requiresGameMaster true s). eauto.
  - destruct (selectNextGameMaster s) as [[i nxt]|] eqn:En;
      [|simplify_eq; by left].
    destruct (save now _ w) as [w1|] eqn:Es; simplify_eq; [|by left].
    right. exists s, (installGameMaster now i nxt s).
    split_and!; [done..|]. right. exists i, nxt.
    pose proof (selectNextGameMaster_Some _ _ _ En) as [? ?].
    split_and!; [done..|]. repeat constructor.
Qed.

Lemma rotateGameMaster_timers sid now w :
  activeTimers (rotateGameMaster sid now w).1 = activeTimers w
  ∧ scheduled (rotateGameMaster sid now w).1 = scheduled w
  ∧ nextTimer (rotateGameMaster sid now w).1 = nextTimer w.
Proof.
  destruct (rotateGameMaster sid now w) as [w' out] eqn:E.
  apply rotateGameMaster_cases in E as [[-> _]|(s & s' & _ & Hs & _)]; [done|].
  by apply save_Some in Hs as [_ ->].
Qed.

End Selection.

(** ** How one step changes a stored session *)

Section Relations.
Implicit Types (s : Session) (st : list Session) (p : Player)
  (cl : list string) (out : list Emit).

Lemma tidy_mono cl cl' s : cl ⊆ cl' → tidy cl s → tidy cl' s.
Proof.
  intros Hsub (? & ? & Hl). split_and!; [done..|].
  eapply Forall_impl; [done|]. simpl. intros p Hp Hn. apply Hp.
  intros ?. apply Hn. by apply Hsub.
Qed.

Lemma tidy_same_players cl s s' :
  sessionId s' = sessionId s → players s' = players s →
  tidy cl s → tidy cl s'.
Proof. unfold tidy. by intros -> ->. Qed.

Lemma timesStep_refl out s : timesStep out s s.
Proof. left. exists 0%nat. simpl. by rewrite app_nil_r. Qed.

Lemma timesStep_same out s s' :
  gmTimes s' = gmTimes s → timesStep out s s'.
Proof. intros E. left. exists 0%nat. simpl. by rewrite app_nil_r. Qed.

Lemma timesStep_trans out1 out2 s1 s2 s3 :
  sessionId s2 = sessionId s1 →
  timesStep out1 s1 s2 → timesStep out2 s2 s3 →
  timesStep (out1 ++ out2) s1 s3.
Proof.
  intros Hk [[n Hn]|He] [[m Hm]|He'].
  - left. exists (n + m)%nat.
    by rewrite Hm, Hn, <- app_assoc, replicate_add.
  - right. rewrite Hk in He'. apply Exists_app. by right.
  - right. apply Exists_app. by left.
  - right. apply Exists_app. by left.
Qed.

Lemma timesStep_mono out out' s s' :
  out ⊆ out' → timesStep out s s' → timesStep out' s s'.
Proof.
  intros Hsub [?|He]; [by left|]. right.
  apply Exists_exists in He as (e & ? & ?). apply Exists_exists.
  exists e. split; [by apply Hsub|done].
Qed.

Lemma frameR_refl cl out s : frameR cl out s s.
Proof. split_and!; [done..|apply timesStep_refl]. Qed.

Lemma frameR_trans cl out1 out2 s1 s2 s3 :
  frameR cl out1 s1 s2 → frameR cl out2 s2 s3 →
  frameR cl (out1 ++ out2) s1 s3.
Proof.
  intros (Hk1 & Ht1 & Ha1 & Hg1) (Hk2 & Ht2 & Ha2 & Hg2).
  split_and!; [congruence|auto|by etrans|by eapply timesStep_trans].
Qed.

Lemma frameR_mono cl out out' s s' :
  out ⊆ out' → frameR cl out s s' → frameR cl out' s s'.
Proof.
  intros Hsub (? & ? & ? & ?).
  split_and!; [done..|by eapply timesStep_mono].
Qed.

Lemma prefix_attempts s s' j p :
  attemptsOf s `prefix_of` attemptsOf s' → players s !! j = Some p →
  ∃ p', players s' !! j = Some p' ∧ attempts p' = attempts p.
Proof.
  unfold attemptsOf. intros Hp Hj.
  assert ((attempts <$> players s') !! j = Some (attempts p)) as H.
  { eapply prefix_lookup_Some; [|done]. by rewrite list_lookup_fmap, Hj. }
  rewrite list_lookup_fmap in H.
  destruct (players s' !! j) as [p'|]; simplify_eq/=. eauto.
Qed.

Lemma attStep_prefix c s s' :
  attemptsOf s `prefix_of` attemptsOf s' → attStep c s s'.
Proof.
  intros Hp j p Hj. destruct (prefix_attempts _ _ _ _ Hp Hj) as (p' & ? & ?).
  eauto.
Qed.

Lemma attStep_then_prefix c s s1 s2 :
  attStep c s s1 → attemptsOf s1 `prefix_of` attemptsOf s2 → attStep c s s2.
Proof.
  intros H1 H2 j p Hj. destruct (H1 j p Hj) as (p1 & Hj1 & Hc).
  destruct (prefix_attempts _ _ _ _ H2 Hj1) as (p2 & Hj2 & E).
  exists p2. split; [done|]. by rewrite E.
Qed.

Lemma stepR_refl cl c out s : stepR cl c out s s.
Proof.
  split_and!; [done..| |apply timesStep_refl].
  by apply attStep_prefix.
Qed.

Lemma frameR_stepR cl c out s s' : frameR cl out s s' → stepR cl c out s s'.
Proof.
  intros (? & ? & ? & ?). split_and!; [done..|by apply attStep_prefix|done].
Qed.

Lemma stepR_then_frameR cl c out1 out2 s s1 s2 :
  stepR cl c out1 s s1 → frameR cl out2 s1 s2 →
  stepR cl c (out1 ++ out2) s s2.
Proof.
  intros (Hk1 & Ht1 & Ha1 & Hg1) (Hk2 & Ht2 & Ha2 & Hg2).
  split_and!; [congruence|auto|by eapply attStep_then_prefix
               |by eapply timesStep_trans].
Qed.

Lemma stepR_mono cl c out out' s s' :
  out ⊆ out' → stepR cl c out s s' → stepR cl c out' s s'.
Proof.
  intros Hsub (? & ? & ? & ?).
  split_and!; [done..|by eapply timesStep_mono].
Qed.

(** Saving stamps [updatedAt], which none of the relations looks at. *)
Lemma stepR_updatedAt cl c out now s s' :
  stepR cl c out s s' → stepR cl c out s (set_updatedAt now s').
Proof. done. Qed.

Lemma frameR_updatedAt cl out now s s' :
  frameR cl out s s' → frameR cl out s (set_updatedAt now s').
Proof. done. Qed.

End Relations.

(** ** The relations on the documents that the handlers build *)

Section Documents.
Implicit Types (s D : Session) (st : list Session) (p : Player)
  (cl : list string) (out : list Emit).

Lemma tidy_alter cl s D i (f : Player → Player) :
  sessionId D = sessionId s → players D = alter f i (players s) →
  (∀ p, username (f p) = username p) →
  (∀ p, players s !! i = Some p →
        (socketId p ∉ cl → isConnected p = true) →
        socketId (f p) ∉ cl → isConnected (f p) = true) →
  tidy cl s → tidy cl D.
Proof.
  intros Hk Hp Hn Hl (Hid & Hnd & Hlive). unfold tidy. rewrite Hk, Hp.
  split_and!; [done| |].
  - by rewrite fmap_alter_same.
  - apply Forall_alter; [done|]. intros p Hi.
    rewrite Forall_lookup in Hlive. eauto.
Qed.

Lemma frameR_same_players cl out s D :
  sessionId D = sessionId s → players D = players s → frameR cl out s D.
Proof.
  intros Hk Hp. split_and!; [done|by apply tidy_same_players| |].
  - unfold attemptsOf. by rewrite Hp.
  - apply timesStep_same. unfold gmTimes. by rewrite Hp.
Qed.

Lemma frameR_alter cl out s D i (f : Player → Player) :
  sessionId D = sessionId s → players D = alter f i (players s) →
  (∀ p, username (f p) = username p) →
  (∀ p, attempts (f p) = attempts p) →
  (∀ p, players s !! i = Some p →
        (socketId p ∉ cl → isConnected p = true) →
        socketId (f p) ∉ cl → isConnected (f p) = true) →
  ((∀ p, lastGameMasterTime (f p) = lastGameMasterTime p)
   ∨ Exists (λ e, endsRound (sessionId s) e = true) out) →
  frameR cl out s D.
Proof.
  intros Hk Hp Hn Ha Hl Ht. split_and!; [done|by eapply tidy_alter| |].
  - unfold attemptsOf. rewrite Hp. by rewrite fmap_alter_same.
  - destruct Ht as [Ht|Ht]; [|by right].
    apply timesStep_same. unfold gmTimes. rewrite Hp. by rewrite fmap_alter_same.
Qed.

Lemma frameR_push cl out s D q :
  sessionId D = sessionId s → players D = players s ++ [q] →
  username q ∉ (username <$> players s) →
  lastGameMasterTime q = None →
  (socketId q ∉ cl → isConnected q = true) →
  frameR cl out s D.
Proof.
  intros Hk Hp Hn Ht Hl. split_and!; [done| | |].
  - intros (Hid & Hnd & Hlive). unfold tidy. rewrite Hk, Hp.
    split_and!; [done| |].
    + rewrite fmap_app. apply NoDup_app. split_and!; [done| |apply NoDup_singleton].
      intros x Hx ->%list_elem_of_singleton. done.
    + apply Forall_app. split; [done|]. by constructor.
  - unfold attemptsOf. rewrite Hp, fmap_app. by apply prefix_app_r.
  - left. exists 1%nat. unfold gmTimes. rewrite Hp, fmap_app. simpl. by rewrite Ht.
Qed.

(** The assignments of [assignGameMaster] change neither the players nor
    the id. *)
Lemma assignGameMaster_frame s notify s' ev :
  assignGameMaster s notify = (s', ev) →
  sessionId s' = sessionId s ∧ players s' = players s
  ∧ status s' = status s ∧ currentQuestion s' = currentQuestion s
  ∧ currentAnswer s' = currentAnswer s ∧ winner s' = winner s
  ∧ Forall (λ e, isGameEnded e = false) ev.
Proof.
  intros [(-> & _ & ->)|[(-> & ->)|(first & _ & -> & ?)]]%assignGameMaster_cases;
    split_and!; done || constructor.
Qed.

(** A guess: the attempts of the player at index [i] go up by one. *)
Lemma stepR_guess cl out s D i p0 sid guess (f : Player → Player) :
  sessionId D = sessionId s → players D = alter f i (players s) →
  players s !! i = Some p0 →
  lookupKey sid = sessionId s → status s = in_progress →
  gameMasterId s ≠ Some (socketId p0) → attempts p0 < 3 →
  socketId p0 ∉ cl →
  (∀ p, username (f p) = username p) →
  (∀ p, socketId (f p) = socketId p) →
  (∀ p, isConnected (f p) = isConnected p) →
  (∀ p, lastGameMasterTime (f p) = lastGameMasterTime p) →
  (∀ p, attempts (f p) = attempts p + 1) →
  tidy cl s →
  stepR cl (on_submit_guess (socketId p0) sid guess) out s D.
Proof.
  intros Hk Hp Hi Hkey Hst Hgm Hlt Hlive Hn Hs Hc Ht Ha Htidy.
  split_and!; [done| | |].
  - intros _. eapply tidy_alter; [done..| |done].
    intros p _ Hpl. rewrite Hs, Hc. done.
  - intros j p Hj. rewrite Hp.
    destruct (decide (j = i)) as [->|Hne].
    + simplify_eq. exists (f p0). rewrite list_lookup_alter_eq, Hi. split; [done|].
      right. left. rewrite Ha. split_and!; [done..| |done|by eauto].
      destruct Htidy as (_ & _ & Hl). rewrite Forall_lookup in Hl. by eapply Hl.
    + exists p. rewrite list_lookup_alter_ne by done. eauto.
  - apply timesStep_same. unfold gmTimes. rewrite Hp. by rewrite fmap_alter_same.
Qed.

(** A reset: all attempts go to zero. *)
Lemma stepR_reset cl c out s D sock sid :
  sessionId D = sessionId s → players D = set_attempts 0 <$> players s →
  (c = on_start_game sock sid ∨ c = on_start_next_round sock sid) →
  lookupKey sid = sessionId s → gameMasterId s = Some sock →
  stepR cl c out s D.
Proof.
  intros Hk Hp Hc Hkey Hgm. split_and!; [done| | |].
  - intros (Hid & Hnd & Hlive). unfold tidy. rewrite Hk, Hp.
    split_and!; [done| |].
    + by rewrite fmap_fmap_same.
    + by apply Forall_fmap.
  - intros j p Hj. exists (set_attempts 0 p). rewrite Hp, list_lookup_fmap, Hj.
    split; [done|]. right. right. split; [done|]. eauto.
  - apply timesStep_same. unfold gmTimes. rewrite Hp. by rewrite fmap_fmap_same.
Qed.

End Documents.

(** ** The effect of the handlers on the store *)

Section Effects.
Implicit Types (s D : Session) (st : list Session) (p : Player)
  (cl : list string) (out : list Emit) (w : World).

Lemma touched_slotsRel (R : Session → Session → Prop) st st' :
  NoDup (sessionId <$> st) → (∀ s, R s s) →
  touched R st st' → slotsRel R st st'.
Proof.
  intros Hnd Hrefl [->|(s0 & D & Hin & Hk & -> & HR & _)].
  - split; [done|]. intros i s s' ??; by simplify_eq.
  - apply list_elem_of_lookup in Hin as [i0 Hi0].
    rewrite (storePut_lookup D st i0 s0) by done.
    split; [by rewrite length_insert|].
    intros i s s' Hi Hi'. destruct (decide (i = i0)) as [->|Hne].
    + rewrite list_lookup_insert_eq in Hi' by (by eapply lookup_lt_Some).
      by simplify_eq.
    + rewrite list_lookup_insert_ne in Hi' by done. by simplify_eq.
Qed.

Lemma touched_impl (R R' : Session → Session → Prop) st st' :
  (∀ s D, R s D → R' s D) → touched R st st' → touched R' st st'.
Proof.
  intros HR [->|(s0 & D & ? & ? & ? & ? & ?)]; [by left|].
  right. exists s0, D. split_and!; auto.
Qed.

Lemma stepR_then_frameR_same cl c out s s1 s2 :
  stepR cl c out s s1 → frameR cl out s1 s2 → stepR cl c out s s2.
Proof.
  intros H1 H2. eapply stepR_mono; [|by eapply stepR_then_frameR].
  intros e. rewrite elem_of_app. tauto.
Qed.

Lemma frameR_trans_same cl out s s1 s2 :
  frameR cl out s s1 → frameR cl out s1 s2 → frameR cl out s s2.
Proof.
  intros H1 H2. eapply frameR_mono; [|by eapply frameR_trans].
  intros e. rewrite elem_of_app. tauto.
Qed.

(** [rotateGameMaster] on a store where [sid] leads to [s1], inside a
    step that ends a round of that session. *)
Lemma rotateGameMaster_after cl out0 sid now w w' out s1 :
  rotateGameMaster sid now w = (w', out) →
  findBySessionId sid (store w) = Some s1 →
  Exists (λ e, endsRound (lookupKey sid) e = true) out0 →
  store w' = store w
  ∨ ∃ D2, store w' = storePut D2 (store w) ∧ frameR cl out0 s1 D2
          ∧ validSession D2 = true.
Proof.
  intros Hr Hf He.
  pose proof (findBySessionId_elem_of _ _ _ Hf) as [_ Hk].
  apply rotateGameMaster_cases in Hr
    as [[-> _]|(s & s' & Hf' & Hs & Hc)]; [by left|].
  rewrite Hf in Hf'. simplify_eq.
  apply save_Some in Hs as [Hv ->]. right.
  exists (set_updatedAt now s'). split_and!; [done| |done].
  destruct Hc as [[-> _]|(i & nxt & Hi & _ & _ & -> & _)].
  - by apply frameR_same_players.
  - eapply (frameR_alter _ _ _ _ i (set_lastGameMasterTime (Some now)));
      [done..| |].
    + by intros [].
    + right. by rewrite Hk.
Qed.

(** A handler that stores [D1] in place of [s0] and then rotates. *)
Lemma put_then_rotate cl c out sid now st w1 w2 rot s0 D1 :
  findBySessionId sid st = Some s0 →
  store w1 = storePut D1 st →
  sessionId D1 = sessionId s0 → validSession D1 = true →
  rotateGameMaster sid now w1 = (w2, rot) →
  stepR cl c out s0 D1 →
  Exists (λ e, endsRound (lookupKey sid) e = true) out →
  touched (stepR cl c out) st (store w2).
Proof.
  intros Hf Hs Hk Hv Hr HR He.
  pose proof (findBySessionId_elem_of _ _ _ Hf) as [Hin _].
  eapply (rotateGameMaster_after cl out) in Hr
    as [E|(D2 & E & HF & Hv2)];
    [| |rewrite Hs; by eapply findBySessionId_storePut|done].
  - right. exists s0, D1. rewrite E, Hs. split_and!; done.
  - right. exists s0, D2. rewrite E, Hs.
    destruct HF as (Hk2 & ?).
    split_and!; [done|congruence|by rewrite storePut_storePut| |done].
    eapply stepR_then_frameR_same; [|by split]. done.
Qed.

End Effects.

Section Handlers.
Implicit Types (s D : Session) (st : list Session) (p : Player)
  (cl : list string) (out : list Emit) (w : World).

Local Ltac unchanged := simplify_eq/=; by left.

Local Ltac saved Hs :=
  apply save_Some in Hs as [? ->]; simplify_eq/=.

(* [Hf] is the lookup of the handler, [Hr] the run of rotateGameMaster
   on the world that holds the document the handler saved. *)
Local Ltac rotating cl c Hf Hr :=
  lazymatch type of Hr with
  | rotateGameMaster ?sid ?now ?w1 = (?w2, ?rot) =>
      lazymatch type of Hf with
      | findBySessionId _ ?st = Some ?s0 =>
          eapply (put_then_rotate cl c _ sid now st w1 w2 rot s0);
          [exact Hf|simpl; rewrite ?store_clearGameTimer; simpl;
                    rewrite ?storePut_storePut by done; reflexivity
          |done|done|exact Hr| |]
      end
  end.

Lemma handleSetQuestion_touched cl sock sid q a now w w' out :
  handleSetQuestion sock sid q a now w = (w', out) →
  touched (stepR cl (on_set_question sock sid q a) out) (store w) (store w').
Proof.
  unfold handleSetQuestion. intros H.
  destruct (_ || _); [unchanged|].
  destruct (findBySessionId sid (store w)) as [s0|] eqn:Hf; [|unchanged].
  destruct (negb _); [unchanged|]. destruct (negb _); [unchanged|].
  destruct (save now _ w) as [w1|] eqn:Hs; [|unchanged]. saved Hs.
  apply findBySessionId_elem_of in Hf as [Hin _].
  right. eexists s0, _. split_and!; [done| |done| |done]; [done|].
  by apply frameR_stepR, frameR_same_players.
Qed.

Lemma handleChatMessage_store sock sid m w :
  (handleChatMessage sock sid m w).1 = w.
Proof. unfold handleChatMessage. by repeat case_match. Qed.

Lemma handleStartGame_touched cl sock sid now w w' out :
  handleStartGame sock sid now w = (w', out) →
  touched (stepR cl (on_start_game sock sid) out) (store w) (store w').
Proof.
  unfold handleStartGame. intros H.
  destruct (findBySessionId sid (store w)) as [s0|] eqn:Hf; [|unchanged].
  case_bool_decide as Hgm; simpl in H; [|unchanged].
  case_bool_decide; [unchanged|].
  destruct (_ || _); [unchanged|]. case_bool_decide; [unchanged|].
  destruct (save now _ w) as [w1|] eqn:Hs; [|unchanged]. saved Hs.
  rewrite store_clearGameTimer. simpl.
  apply findBySessionId_elem_of in Hf as [Hin Hk].
  right. eexists s0, _. split_and!; [done| |done| |done]; [done|].
  eapply (stepR_reset _ _ _ _ _ sock sid); [done|done|by left|done|done].
Qed.

Lemma handleStartNextRound_touched cl sock sid now w w' out :
  handleStartNextRound sock sid now w = (w', out) →
  touched (stepR cl (on_start_next_round sock sid) out) (store w) (store w').
Proof.
  unfold handleStartNextRound. intros H.
  destruct (findBySessionId sid (store w)) as [s0|] eqn:Hf; [|unchanged].
  case_bool_decide as Hgm; simpl in H; [|unchanged].
  destruct (save now _ w) as [w1|] eqn:Hs; [|unchanged]. saved Hs.
  apply findBySessionId_elem_of in Hf as [Hin Hk].
  right. eexists s0, _. split_and!; [done| |done| |done]; [done|].
  eapply (stepR_reset _ _ _ _ _ sock sid); [done|done|by right|done|done].
Qed.

Lemma roundTimerCallback_touched cl c sid now w w' out :
  roundTimerCallback sid now w = (w', out) →
  touched (stepR cl c out) (store w) (store w').
Proof.
  unfold roundTimerCallback. intros H.
  destruct (findBySessionId sid (store w)) as [s0|] eqn:Hf; [|unchanged].
  case_bool_decide; [|unchanged].
  destruct (save now _ w) as [w1|] eqn:Hs; [|unchanged].
  destruct (rotateGameMaster sid now w1) as [w2 rot] eqn:Hr. simplify_eq.
  rewrite store_clearGameTimer. saved Hs.
  rotating cl c Hf Hr.
  - by apply frameR_stepR, frameR_same_players.
  - apply Exists_cons_hd. simpl. by rewrite bool_decide_true.
Qed.

Lemma fireTimeout_touched cl h now w w' out :
  fireTimeout h now w = (w', out) →
  touched (stepR cl (on_timeout h) out) (store w) (store w').
Proof.
  unfold fireTimeout. intros H.
  destruct (list_find _ _) as [[? [? [sid ?]]]|]; [|unchanged].
  by apply (roundTimerCallback_touched cl (on_timeout h)) in H.
Qed.

Lemma handleJoinSession_touched cl sock u sid now w w' out :
  sock ∉ cl →
  handleJoinSession sock u sid now w = (w', out) →
  touched (stepR cl (on_join_session sock u sid) out) (store w) (store w').
Proof.
  unfold handleJoinSession. intros Hlive H.
  destruct (_ || _); [unchanged|].
  destruct (findBySessionId _ (store w)) as [s0|] eqn:Hf; [|unchanged].
  apply findBySessionId_elem_of in Hf as [Hin _].
  destruct (list_find _ (players s0)) as [[i p0]|] eqn:Hp.
  - destruct (assignGameMaster _ true) as [s2 notes] eqn:Ha.
    apply assignGameMaster_frame in Ha as (Hk & Hps & _).
    destruct (save now s2 w) as [w1|] eqn:Hs; [|unchanged]. saved Hs.
    right. exists s0, (set_updatedAt now s2).
    split_and!; [done|done|done| |done].
    apply frameR_stepR.
    eapply (frameR_alter _ _ _ _ i); [done|exact Hps|by intros []..| |by left].
    by intros [].
  - case_bool_decide; [unchanged|].
    destruct (assignGameMaster _ true) as [s2 notes] eqn:Ha.
    apply assignGameMaster_frame in Ha as (Hk & Hps & _).
    destruct (save now s2 w) as [w1|] eqn:Hs; [|unchanged]. saved Hs.
    right. exists s0, (set_updatedAt now s2).
    split_and!; [done|done|done| |done].
    apply frameR_stepR.
    eapply frameR_push; [done|exact Hps| |done|done].
    apply list_find_None in Hp. rewrite Forall_forall in Hp.
    intros (q & Hq & Hqin)%list_elem_of_fmap. by eapply Hp.
Qed.

Lemma handleSubmitGuess_touched cl sock sid guess now w w' out :
  sock ∉ cl → Forall (tidy cl) (store w) →
  handleSubmitGuess sock sid guess now w = (w', out) →
  touched (stepR cl (on_submit_guess sock sid guess) out) (store w) (store w').
Proof.
  unfold handleSubmitGuess. intros Hlive Htidy H.
  destruct (falsy _); [unchanged|].
  destruct (findBySessionId sid (store w)) as [s0|] eqn:Hf; [|unchanged].
  pose proof (findBySessionId_elem_of _ _ _ Hf) as [Hin Hkey].
  case_bool_decide as Hst; simpl in H; [|unchanged].
  destruct (list_find _ (players s0)) as [[i p0]|] eqn:Hp; [|unchanged].
  apply list_find_Some in Hp as (Hi & <- & _).
  case_bool_decide as Hgm; [unchanged|].
  destruct (3 <=? attempts p0) eqn:Hlt; [unchanged|].
  apply Z.leb_gt in Hlt.
  assert (tidy cl s0) as Ht0 by (rewrite Forall_forall in Htidy; auto).
  set (f1 := λ p, set_attempts (attempts p + 1) p) in *.
  set (f2 := λ p, set_score (score p + 10) p) in *.
  assert (∀ D (f : Player → Player) out',
            sessionId D = sessionId s0 → players D = alter f i (players s0) →
            (∀ p, username (f p) = username p) →
            (∀ p, socketId (f p) = socketId p) →
            (∀ p, isConnected (f p) = isConnected p) →
            (∀ p, lastGameMasterTime (f p) = lastGameMasterTime p) →
            (∀ p, attempts (f p) = attempts p + 1) →
            stepR cl (on_submit_guess (socketId p0) sid guess) out' s0 D) as Hstep.
  { intros. eapply stepR_guess; eauto. }
  case_bool_decide as Hcorrect.
  - destruct (save now _ _) as [w2|] eqn:Hs;
      [|simplify_eq/=; rewrite store_clearGameTimer; by left].
    destruct (rotateGameMaster sid now w2) as [w3 rot] eqn:Hr. simplify_eq.
    saved Hs. rewrite store_clearGameTimer in Hr.
    rotating cl (on_submit_guess (socketId p0) sid guess) Hf Hr.
    + apply (Hstep _ (f2 ∘ f1)); [done| |by intros []..].
      simpl. by rewrite list_alter_alter_eq.
    + apply Exists_cons_hd. simpl. by rewrite bool_decide_true.
  - destruct (save now _ w) as [w1|] eqn:Hs; [|unchanged].
    destruct (allPlayersExhausted _).
    + destruct (save now _ w1) as [w2|] eqn:Hs2.
      * destruct (rotateGameMaster sid now _) as [w4 rot] eqn:Hr. simplify_eq.
        saved Hs. saved Hs2.
        rotating cl (on_submit_guess (socketId p0) sid guess) Hf Hr.
        -- apply (Hstep _ f1); [done|done|by intros []..].
        -- do 2 apply Exists_cons_tl. apply Exists_app. right.
           apply Exists_cons_hd. simpl. by rewrite bool_decide_true.
      * simplify_eq. saved Hs. right. eexists s0, _.
        split_and!; [done| |done| |done]; [done|].
        apply (Hstep _ f1); [done|done|by intros []..].
    + simplify_eq. saved Hs. right. eexists s0, _.
      split_and!; [done| |done| |done]; [done|].
      apply (Hstep _ f1); [done|done|by intros []..].
Qed.

Lemma handleCreateSession_effect cl sock u sid now w w' out :
  sock ∉ cl →
  handleCreateSession sock u sid now w = (w', out) →
  store w' = store w
  ∨ ∃ D, store w' = store w ++ [D]
         ∧ (sessionId D ∉ (sessionId <$> store w))
         ∧ freshSession now D ∧ tidy cl D ∧ validSession D = true.
Proof.
  unfold handleCreateSession. intros Hlive H.
  destruct (_ || _); [unchanged|].
  destruct (findBySessionId _ (store w)) as [s0|] eqn:Hf; [unchanged|].
  destruct (save now _ w) as [w1|] eqn:Hs; [|unchanged]. saved Hs.
  assert (toLowerCase (trim sid) ∉ (sessionId <$> store w)) as Hfresh.
  { intros (x & Hx & Hin)%list_elem_of_fmap.
    eapply findBySessionId_None in Hf; [|done].
    by rewrite lookupKey_normalised in Hf. }
  right. eexists. rewrite storePut_fresh by done.
  split_and!; [done|done| | |done].
  - eexists. simpl. split_and!; done.
  - split_and!; simpl.
    + apply lookupKey_normalised.
    + apply NoDup_singleton.
    + by repeat constructor.
Qed.

(** One iteration of the loop of [handleDisconnect] on the store as it is
    now: the document saved comes from the one loaded before the loop,
    or is the one that [rotateGameMaster] saved. *)
Lemma disconnectFrom_effect cl sock now x w w1 out1 b :
  sock ∈ cl → lookupKey (sessionId x) = sessionId x →
  disconnectFrom sock now x w = (w1, out1, b) →
  store w1 = store w
  ∨ ∃ D, store w1 = storePut D (store w) ∧ sessionId D = sessionId x
         ∧ validSession D = true
         ∧ (frameR cl out1 x D
            ∨ ∃ s1, findBySessionId (sessionId x) (store w) = Some s1
                    ∧ frameR cl out1 s1 D).
Proof.
  unfold disconnectFrom. intros Hcl Hkey H.
  destruct (list_find _ (players x)) as [[i p0]|] eqn:Hp; [|unchanged].
  apply list_find_Some in Hp as (Hi & Hsock & _).
  set (f := λ p, set_lastActivity now (set_isConnected false p)) in *.
  assert (∀ D out', sessionId D = sessionId x →
                    players D = alter f i (players x) →
                    frameR cl out' x D) as Hframe.
  { intros D out' Hk Hps.
    eapply (frameR_alter _ _ _ _ i f); [done|done|by intros []..| |by left].
    intros p Hp' _ Hn. rewrite Hi in Hp'. injection Hp' as <-.
    exfalso. apply Hn. simpl. by rewrite Hsock. }
  case_bool_decide as Hgm; simpl in H.
  - destruct (assignGameMaster _ true) as [sa assigned] eqn:Ha.
    apply assignGameMaster_frame in Ha as (Hk & Hps & _).
    case_bool_decide as Hst.
    + destruct (rotateGameMaster _ now _) as [w1r rot] eqn:Hr.
      simpl in Hr, H.
      set (out := assigned ++
                  (ToRoom (sessionId sa),
                   game_ended "timeout" None (currentAnswer sa) (players sa))
                  :: rot ++ [(ToRoom (sessionId sa), chat_system)]) in *.
      assert (Exists (λ e, endsRound (lookupKey (sessionId sa)) e = true) out)
        as Hev.
      { apply Exists_app. right. apply Exists_cons_hd. simpl.
        by rewrite bool_decide_true. }
      assert (store w1r = store w
              ∨ ∃ s1 B, findBySessionId (sessionId x) (store w) = Some s1
                        ∧ store w1r = storePut B (store w)
                        ∧ frameR cl out s1 B ∧ validSession B = true) as Hrot.
      { pose proof Hr as Hr'.
        apply rotateGameMaster_cases in Hr'
          as [[-> _]|(s1 & s' & Hf1 & _ & _)].
        - left. apply store_clearGameTimer.
        - rewrite store_clearGameTimer in Hf1.
          eapply (rotateGameMaster_after cl out) in Hr
            as [E|(B & E & HF & HvB)];
            [| |rewrite store_clearGameTimer; exact Hf1|done].
          + left. by rewrite E, store_clearGameTimer.
          + right. exists s1, B. rewrite store_clearGameTimer in E.
            rewrite Hk in Hf1. simpl in Hf1. split_and!; done. }
      destruct (save now _ w1r) as [w2|] eqn:Hs.
      * saved Hs. right. exists (set_updatedAt now (set_status ended sa)).
        split_and!; [| |done|left; apply Hframe; [simpl; congruence|done]];
          [|simpl; congruence].
        destruct Hrot as [->|(s1 & B & Hf1 & -> & (HkB & _) & _)]; [done|].
        rewrite storePut_storePut; [done|].
        apply findBySessionId_elem_of in Hf1 as [_ Hk1]. simpl.
        rewrite HkB, Hk1, Hkey. congruence.
      * simplify_eq.
        destruct Hrot as [->|(s1 & B & Hf1 & -> & HF & HvB)]; [by left|].
        right. exists B. split_and!; [done| |done|right; eauto].
        destruct HF as (HkB & _).
        apply findBySessionId_elem_of in Hf1 as [_ Hk1]. congruence.
    + destruct (save now _ w) as [w2|] eqn:Hs; [|unchanged]. saved Hs.
      right. exists (set_updatedAt now sa).
      split_and!; [done| |done|left; by apply Hframe].
      simpl. congruence.
  - destruct (save now _ w) as [w2|] eqn:Hs; [|unchanged]. saved Hs.
    right. exists (set_updatedAt now (updatePlayer i f x)).
    split_and!; [done|done|done|left; by apply Hframe].
Qed.

Lemma slotsRel_ids (R : Session → Session → Prop) init cur :
  (∀ s D, R s D → sessionId D = sessionId s) →
  slotsRel R init cur → sessionId <$> cur = sessionId <$> init.
Proof.
  intros HR [Hlen Hrel]. apply list_eq. intros i.
  rewrite !list_lookup_fmap.
  destruct (init !! i) as [s|] eqn:Hi, (cur !! i) as [s'|] eqn:Hc; simpl.
  - f_equal. eapply HR, Hrel; done.
  - apply lookup_lt_Some in Hi. apply lookup_ge_None in Hc. lia.
  - apply lookup_lt_Some in Hc. apply lookup_ge_None in Hi. lia.
  - done.
Qed.

Lemma NoDup_ids_lookup st i j a b :
  NoDup (sessionId <$> st) → st !! i = Some a → st !! j = Some b →
  sessionId a = sessionId b → i = j.
Proof.
  intros Hnd Hi Hj E. eapply NoDup_lookup; [done| |].
  - by rewrite list_lookup_fmap, Hi.
  - rewrite list_lookup_fmap, Hj. simpl. by rewrite E.
Qed.

Lemma frameR_ids cl out s D : frameR cl out s D → sessionId D = sessionId s.
Proof. by intros (? & _). Qed.

(** One iteration, seen from the store [init] that the loop started on. *)
Lemma disconnectFrom_slots cl sock now init x w w1 out0 out1 b :
  sock ∈ cl → NoDup (sessionId <$> init) →
  lookupKey (sessionId x) = sessionId x → x ∈ init →
  slotsRel (frameR cl out0) init (store w) →
  Forall (λ s, validSession s = true) (store w) →
  disconnectFrom sock now x w = (w1, out1, b) →
  slotsRel (frameR cl (out0 ++ out1)) init (store w1)
  ∧ Forall (λ s, validSession s = true) (store w1).
Proof.
  intros Hcl Hnd Hkey Hx Hrel Hval H.
  pose proof (slotsRel_ids _ _ _ (frameR_ids cl out0) Hrel) as Hids.
  destruct Hrel as [Hlen Hrel].
  assert (∀ s s', frameR cl out0 s s' → frameR cl (out0 ++ out1) s s') as Hmono.
  { intros s s'. apply frameR_mono. intros e ?. apply elem_of_app. by left. }
  apply (disconnectFrom_effect cl) in H
    as [->|(D & -> & HkD & HvD & HD)]; [| |done..].
  { split; [|done]. split; [done|]. eauto. }
  split; [|by apply storePut_Forall].
  apply list_elem_of_lookup in Hx as [i0 Hi0].
  assert (∃ sc, store w !! i0 = Some sc ∧ sessionId sc = sessionId x)
    as (sc & Hc & Hksc).
  { assert ((sessionId <$> store w) !! i0 = Some (sessionId x)) as E
      by (by rewrite Hids, list_lookup_fmap, Hi0).
    rewrite list_lookup_fmap in E.
    destruct (store w !! i0) as [sc|]; simplify_eq/=. eauto. }
  assert (NoDup (sessionId <$> store w)) as Hnd' by (by rewrite Hids).
  rewrite (storePut_lookup D (store w) i0 sc) by (done || congruence).
  split; [by rewrite length_insert|].
  intros i s s' Hi Hi'. destruct (decide (i = i0)) as [->|Hne].
  - rewrite list_lookup_insert_eq in Hi' by (by eapply lookup_lt_Some).
    simplify_eq. destruct HD as [HD|(s1 & Hf1 & HD)].
    + eapply frameR_mono; [|done]. intros e ?. apply elem_of_app. by right.
    + apply findBySessionId_Some in Hf1 as (j & Hj & Hk1 & _).
      assert (j = i0) as ->.
      { eapply NoDup_ids_lookup; [done..|]. rewrite Hk1, Hksc. done. }
      simplify_eq. eapply frameR_trans; [|done]. by eapply Hrel.
  - rewrite list_lookup_insert_ne in Hi' by done. eauto.
Qed.

Lemma disconnectLoop_slots cl sock now init :
  sock ∈ cl → NoDup (sessionId <$> init) →
  Forall (λ s, lookupKey (sessionId s) = sessionId s) init →
  ∀ sessions w out0 w' out,
    (∀ x, x ∈ sessions → x ∈ init) →
    slotsRel (frameR cl out0) init (store w) →
    Forall (λ s, validSession s = true) (store w) →
    disconnectLoop sock now sessions w = (w', out) →
    slotsRel (frameR cl (out0 ++ out)) init (store w')
    ∧ Forall (λ s, validSession s = true) (store w').
Proof.
  intros Hcl Hnd Hkeys. induction sessions as [|x rest IH];
    intros w out0 w' out Hsub Hrel Hval H; simpl in H.
  - simplify_eq. by rewrite app_nil_r.
  - destruct (disconnectFrom sock now x w) as [[w1 out1] b] eqn:Hd.
    assert (x ∈ init) as Hx by (apply Hsub; by left).
    eapply (disconnectFrom_slots cl) in Hd as [Hrel1 Hval1]; [|done..| |done|done|done].
    2:{ rewrite Forall_forall in Hkeys. auto. }
    destruct b.
    + destruct (disconnectLoop sock now rest w1) as [w2 out2] eqn:Hl.
      simplify_eq. rewrite app_assoc.
      eapply IH; [|done..]. intros y ?. apply Hsub. by right.
    + by simplify_eq.
Qed.

Lemma handleDisconnect_slots cl sock now w w' out :
  NoDup (sessionId <$> store w) →
  Forall (λ s, validSession s = true) (store w) →
  Forall (tidy cl) (store w) →
  handleDisconnect sock now w = (w', out) →
  slotsRel (frameR (sock :: cl) out) (store w) (store w')
  ∧ Forall (λ s, validSession s = true) (store w').
Proof.
  unfold handleDisconnect. intros Hnd Hval Htidy H.
  assert (Forall (λ s, lookupKey (sessionId s) = sessionId s) (store w))
    as Hkeys.
  { eapply Forall_impl; [done|]. by intros s (? & _). }
  assert (sock ∈ sock :: cl) as Hcl by by left.
  refine (disconnectLoop_slots (sock :: cl) sock now (store w) Hcl Hnd Hkeys
            _ w [] w' out _ _ Hval H).
  - by intros x [_ ?]%list_elem_of_filter.
  - split; [done|]. intros i s s' ??. simplify_eq. apply frameR_refl.
Qed.

End Handlers.

(** ** One step of the coordinator *)

Section Step.
Implicit Types (s D : Session) (st : list Session) (p : Player)
  (cl : list string) (out : list Emit) (w : World) (c : Command).

Lemma stepR_ids cl c out s D : stepR cl c out s D → sessionId D = sessionId s.
Proof. by intros (? & _). Qed.

Lemma slotsRel_tidy cl c out st st' :
  NoDup (sessionId <$> st) → Forall (tidy cl) st →
  slotsRel (stepR cl c out) st st' →
  NoDup (sessionId <$> st') ∧ Forall (tidy cl) st'.
Proof.
  intros Hnd Ht Hrel.
  pose proof (slotsRel_ids _ _ _ (stepR_ids cl c out) Hrel) as Hids.
  split; [by rewrite Hids|].
  destruct Hrel as [Hlen Hrel]. apply Forall_lookup. intros i s' Hi'.
  destruct (st !! i) as [s|] eqn:Hi.
  - destruct (Hrel i s s' Hi Hi') as (_ & Htt & _). apply Htt.
    rewrite Forall_lookup in Ht. eauto.
  - apply lookup_lt_Some in Hi'. apply lookup_ge_None in Hi. lia.
Qed.

Lemma enabled_sender cl c w sock :
  enabled cl c w = true → sender c = Some sock → sock ≠ "" ∧ sock ∉ cl.
Proof.
  unfold enabled. intros H Hs. rewrite Hs in H.
  apply andb_true_iff in H as [H1 H2]. apply bool_decide_eq_true in H2.
  split; [|done]. intros ->. done.
Qed.

Lemma stepSpec_slots cl now c w w' out :
  Inv cl w → cl ⊆ closing c cl →
  Forall (λ s, validSession s = true) (store w') →
  slotsRel (stepR (closing c cl) c out) (store w) (store w') →
  stepSpec cl now c w w' out.
Proof.
  intros (Hnd & Hval & Htidy) Hsub Hval' Hrel.
  assert (Forall (tidy (closing c cl)) (store w)) as Htidy'.
  { eapply Forall_impl; [done|]. intros s. by apply tidy_mono. }
  destruct (slotsRel_tidy _ _ _ _ _ Hnd Htidy' Hrel) as [Hnd' Ht'].
  destruct Hrel as [Hlen Hrel].
  split_and!; [by split_and!|lia|done|].
  intros i s' Hi Hi'. apply lookup_lt_Some in Hi'. apply lookup_ge_None in Hi. lia.
Qed.

Lemma stepSpec_touched cl now c w w' out :
  Inv cl w → closing c cl = cl →
  touched (stepR cl c out) (store w) (store w') →
  stepSpec cl now c w w' out.
Proof.
  intros HI Hcl Ht. pose proof HI as (Hnd & Hval & Htidy).
  apply stepSpec_slots; [done|by rewrite Hcl| |].
  - destruct Ht as [->|(s0 & D & _ & _ & -> & _ & ?)]; [done|].
    by apply storePut_Forall.
  - rewrite Hcl. apply touched_slotsRel; [done| |done].
    intros s. apply stepR_refl.
Qed.

Lemma run_stepSpec cl now c w :
  Inv cl w → enabled cl c w = true →
  stepSpec cl now c w (run now c w).1 (run now c w).2.
Proof.
  intros HI Hen. pose proof HI as (Hnd & Hval & Htidy).
  destruct (run now c w) as [w' out] eqn:Hrun. simpl.
  destruct c as [sock u sid|sock u sid|sock sid q a|sock sid|sock sid g
                |sock sid m|sock sid|sock|h]; simpl in Hrun.
  - (* create_session *)
    destruct (enabled_sender _ _ _ sock Hen eq_refl) as [_ Hlive].
    apply (handleCreateSession_effect cl) in Hrun
      as [E|(D & E & Hfresh & HD & HtD & HvD)]; [| |done].
    + apply (stepSpec_touched cl now); [done|done|]. left. done.
    + split_and!.
      * split_and!; simpl; rewrite E.
        -- rewrite fmap_app. apply NoDup_app. split_and!; [done| |apply NoDup_singleton].
           intros k Hk ->%list_elem_of_singleton. done.
        -- apply Forall_app. split; [done|]. by constructor.
        -- apply Forall_app. split; [done|]. by constructor.
      * rewrite E, length_app. lia.
      * intros i s s' Hi Hi'. rewrite E in Hi'.
        rewrite (lookup_app_l_Some _ _ _ _ Hi) in Hi'. simplify_eq.
        apply stepR_refl.
      * intros i s' Hi Hi'. rewrite E in Hi'.
        apply lookup_ge_None in Hi.
        rewrite lookup_app_r in Hi' by done.
        destruct (i - length (store w))%nat; simplify_eq/=. eauto.
  - destruct (enabled_sender _ _ _ sock Hen eq_refl) as [_ Hlive].
    apply (stepSpec_touched cl now); [done|done|].
    by eapply handleJoinSession_touched.
  - apply (stepSpec_touched cl now); [done|done|].
    by eapply handleSetQuestion_touched.
  - apply (stepSpec_touched cl now); [done|done|].
    by eapply handleStartGame_touched.
  - destruct (enabled_sender _ _ _ sock Hen eq_refl) as [_ Hlive].
    apply (stepSpec_touched cl now); [done|done|].
    by eapply handleSubmitGuess_touched.
  - apply (stepSpec_touched cl now); [done|done|]. left.
    pose proof (handleChatMessage_store sock sid m w) as E.
    rewrite Hrun in E. simpl in E. by rewrite E.
  - apply (stepSpec_touched cl now); [done|done|].
    by eapply handleStartNextRound_touched.
  - (* disconnect *)
    apply (handleDisconnect_slots cl) in Hrun as [Hrel Hval']; [|done..].
    apply (stepSpec_slots cl now); [done| |done|].
    + simpl. intros x ?. by right.
    + simpl. destruct Hrel as [Hlen Hrel]. split; [done|].
      intros i s s' Hi Hi'. apply frameR_stepR. eauto.
  - apply (stepSpec_touched cl now); [done|done|].
    by eapply fireTimeout_touched.
Qed.

(** The invariant holds in every reachable state. *)
Lemma reachable_Inv cl w : reachable cl w → Inv cl w.
Proof.
  induction 1 as [|cl w now c Hr IH Hen].
  - split_and!; simpl; constructor.
  - by apply (run_stepSpec cl now c w IH Hen).
Qed.

End Step.

(** ** Runs *)

Section Runs.
Implicit Types (cl : list string) (w : World) (cs : list (Z * Command)).

Lemma runAll_app cs1 cs2 w :
  runAll (cs1 ++ cs2) w =
  let '(w1, out1) := runAll cs1 w in
  let '(w2, out2) := runAll cs2 w1 in
  (w2, out1 ++ out2).
Proof.
  revert w. induction cs1 as [|[now c] cs1 IH]; intros w; simpl.
  - by destruct (runAll cs2 w).
  - destruct (run now c w) as [w1 out1]. rewrite IH.
    destruct (runAll cs1 w1) as [w2 out2].
    destruct (runAll cs2 w2) as [w3 out3]. by rewrite app_assoc.
Qed.

Lemma reachable_runAll cl w cs :
  reachable cl w → enabledAll cl cs w = true →
  reachable (closingAll cs cl) (runAll cs w).1.
Proof.
  revert cl w. induction cs as [|[now c] cs IH]; intros cl w Hr Hen; simpl.
  - done.
  - simpl in Hen. apply andb_true_iff in Hen as [Hen1 Hen2].
    pose proof (reachable_run cl w now c Hr Hen1) as Hr1.
    specialize (IH _ _ Hr1 Hen2).
    destruct (run now c w) as [w1 out1]. simpl in *.
    destruct (runAll cs w1) as [w2 out2]. done.
Qed.

Lemma reachable_scenario cs :
  enabledAll [] cs emptyWorld = true →
  reachable (closingAll cs []) (Scenario.worldAfter cs).
Proof. apply reachable_runAll. constructor. Qed.

End Runs.

(** ** Scenario states are reachable *)

Section ScenarioFacts.

Local Ltac by_running cs :=
  let E := fresh in
  assert (Scenario.worldAfter cs = _) as E by (vm_compute; reflexivity);
  rewrite <- E; apply (reachable_scenario cs); vm_compute; reflexivity.

Lemma lobbyWorld_reachable : reachable [] Scenario.lobbyWorld.
Proof. unfold Scenario.lobbyWorld. by_running Scenario.lobby. Qed.

Lemma playingWorld_reachable : reachable [] Scenario.playingWorld.
Proof. unfold Scenario.playingWorld. by_running Scenario.playing. Qed.

Lemma playingUpperWorld_reachable : reachable [] Scenario.playingUpperWorld.
Proof. unfold Scenario.playingUpperWorld. by_running Scenario.playingUpper. Qed.

Lemma wonWorld_reachable : reachable [] Scenario.wonWorld.
Proof. unfold Scenario.wonWorld. by_running Scenario.won. Qed.

End ScenarioFacts.

(** * The claims *)

Section Validity.
Implicit Types (s : Session) (p : Player) (ps : list Player).


Lemma validSession_players s :
  validSession s = true → Forall (λ p, validPlayer p = true) (players s).
Proof.
  unfold validSession. rewrite !andb_true_iff. intros [[_ H] _].
  by apply forallb_Forall.
Qed.

Lemma validSession_intro s :
  3 ≤ len (sessionId s) ≤ 20 →
  Forall (λ p, validPlayer p = true) (players s) →
  players s ≠ [] → validSession s = true.
Proof.
  intros Hk Hp Hne. unfold validSession. rewrite !andb_true_iff.
  split_and!; [lia|lia|by apply forallb_Forall|].
  by rewrite (bool_decide_false (players s = [])).
Qed.

Lemma validSession_id s : validSession s = true → 3 ≤ len (sessionId s) ≤ 20.
Proof. unfold validSession. rewrite !andb_true_iff. lia. Qed.

(** A document whose players are those of a valid one, up to a change
    that keeps each of them valid, is valid. *)
Lemma validSession_change s D :
  validSession s = true → sessionId D = sessionId s →
  Forall (λ p, validPlayer p = true) (players D) →
  (players D = [] → players s = []) → status D = status s ∨ players D ≠ [] →
  validSession D = true.
Proof.
  intros Hv Hk Hp Hnil Hst.
  pose proof (validSession_id _ Hv) as Hid.
  unfold validSession in *. rewrite !andb_true_iff in *.
  rewrite Hk. split_and!; [lia|lia|by apply forallb_Forall|].
  destruct Hv as [_ Hv]. destruct Hst as [Hst|Hne].
  - rewrite Hst. destruct (players D) as [|q ps] eqn:E.
    + rewrite Hnil in Hv by done. done.
    + by rewrite (bool_decide_false (q :: ps = [])).
  - by rewrite (bool_decide_false (players D = [])).
Qed.

End Validity.

(** ** C6: the attempts of a player *)



Section ValidUpdates.
Implicit Types (s : Session) (p : Player) (ps : list Player).

Lemma validSession_updatePlayer s i p (f : Player → Player) :
  validSession s = true → players s !! i = Some p →
  validPlayer (f p) = true →
  validSession (updatePlayer i f s) = true.
Proof.
  intros Hv Hi Hf. eapply validSession_change; [done|done| | |by left].
  - simpl. apply Forall_alter; [by apply validSession_players|].
    intros q Hq. by simplify_eq.
  - simpl. intros E. apply (f_equal length) in E.
    rewrite length_alter in E. by apply nil_length_inv.
Qed.

Lemma validSession_same_players s D :
  validSession s = true → sessionId D = sessionId s →
  players D = players s → players s ≠ [] → validSession D = true.
Proof.
  intros Hv Hk Hp Hne. eapply validSession_change; [done|done| | |].
  - rewrite Hp. by apply validSession_players.
  - by rewrite Hp.
  - right. by rewrite Hp.
Qed.

Lemma validSession_reset s D :
  validSession s = true → sessionId D = sessionId s →
  players D = set_attempts 0 <$> players s → players s ≠ [] →
  validSession D = true.
Proof.
  intros Hv Hk Hp Hne. eapply validSession_change; [done|done| | |].
  - rewrite Hp. apply Forall_fmap.
    eapply Forall_impl; [by apply validSession_players|].
    intros p. unfold validPlayer. simpl.
    rewrite !andb_true_iff, !Z.leb_le. intuition lia.
  - rewrite Hp. intros E. by apply fmap_nil_inv in E.
  - right. rewrite Hp. intros E. by apply fmap_nil_inv in E.
Qed.

End ValidUpdates.

(** ** C10: an incorrect guess that does not end the round *)




(** ** C7: joining and reconnecting *)

Section Join.
Implicit Types (s : Session) (p : Player) (ps : list Player).

Lemma assignGameMaster_valid s notify s' ev :
  assignGameMaster s notify = (s', ev) →
  validSession s = true → validSession s' = true.
Proof.
  intros (Hk & Hp & Hst & _)%assignGameMaster_frame Hv.
  eapply validSession_change; [done|done| | |by left].
  - rewrite Hp. by apply validSession_players.
  - by rewrite Hp.
Qed.


End Join.



(** ** C1: starting the next round *)

(** C1, as the claim states it, fails: in the round that alice started,
    the session being in progress, her [start_next_round] is accepted.  No
    error is sent and the session goes back to [waiting] with question and
    answer cleared. *)
Lemma start_next_round_in_progress_accepted :
  status Scenario.playingSession = in_progress
  ∧ run 5 (on_start_next_round "s1" "abc12") Scenario.playingWorld
    = (set_store
         [ mkSession "abc12" false
             [ mkPlayer "s1" "alice" 0 0 true (Some 1) 1;
               mkPlayer "s2" "bob" 0 0 true None 2 ]
             (Some "s1") None None waiting None None 1 5 ]
         Scenario.playingWorld,
       [ (ToRoom "abc12", next_round_starting (Some "s1") (Some "alice")) ]).
Proof. split; vm_compute; reflexivity. Qed.

(** C1, amended.  [start_next_round] has no guard on the status: it is
    accepted exactly when the sender is the game master of the session.
    From any other sender it is answered with an error to the sender alone
    and changes nothing.  When accepted, the session is [waiting], question,
    answer, winner and [gameStartTime] are [null], every player has 0
    attempts and is otherwise as before, and the only message is
    [next_round_starting]. *)
Theorem start_next_round_effect cl w now sock sid s :
  reachable cl w →
  findBySessionId sid (store w) = Some s →
  let r := run now (on_start_next_round sock sid) w in
  (gameMasterId s ≠ Some sock →
   r = (w, [(ToSocket sock, error "Only game master can start the next round")]))
  ∧ (gameMasterId s = Some sock →
     ∃ s', findBySessionId sid (store r.1) = Some s'
       ∧ r.1 = set_store (storePut s' (store w)) w
       ∧ status s' = waiting
       ∧ currentQuestion s' = None ∧ currentAnswer s' = None
       ∧ winner s' = None ∧ gameStartTime s' = None
       ∧ players s' = set_attempts 0 <$> players s
       ∧ Forall (λ p, attempts p = 0) (players s')
       ∧ gameMasterId s' = gameMasterId s
       ∧ ∃ name, r.2 = [(ToRoom sid, next_round_starting (Some sock) name)]).
Proof.
  intros Hr Hf r.
  pose proof (reachable_Inv _ _ Hr) as (_ & Hval & _).
  pose proof (findBySessionId_elem_of _ _ _ Hf) as [Hin _].
  rewrite Forall_forall in Hval. specialize (Hval _ Hin).
  subst r. simpl. unfold handleStartNextRound. rewrite Hf. split.
  - intros Hgm. by rewrite bool_decide_false.
  - intros Hgm. rewrite bool_decide_true by done. simpl.
    set (s1 := forEachPlayer _ _).
    assert (validSession s1 = true) as Hv1.
    { unfold validSession in *. simpl. rewrite !andb_true_iff in *.
      destruct Hval as [[Hid Hps] _]. split_and!; [tauto|tauto| |].
      - apply forallb_Forall, Forall_fmap. apply forallb_Forall in Hps.
        eapply Forall_impl; [done|]. intros p. unfold validPlayer. simpl.
        rewrite !andb_true_iff, !Z.leb_le. intuition lia.
      - by rewrite andb_false_r. }
    unfold save. rewrite Hv1. simpl.
    exists (set_updatedAt now s1). split_and!; try done.
    + by eapply findBySessionId_storePut.
    + apply Forall_fmap. by apply Forall_true.
    + rewrite Hgm. eauto.
Qed.

Lemma start_next_round_effect_witness :
  reachable [] Scenario.wonWorld
  ∧ ∃ s', findBySessionId "abc12"
            (store (run 6 (on_start_next_round "s2" "abc12")
                        Scenario.wonWorld).1) = Some s'
          ∧ status s' = waiting ∧ currentQuestion s' = None.
Proof.
  split; [exact wonWorld_reachable|].
  destruct (start_next_round_effect [] Scenario.wonWorld 6 "s2" "abc12"
              Scenario.wonSession wonWorld_reachable
              ltac:(vm_compute; reflexivity))
    as [_ Hok].
  destruct (Hok ltac:(vm_compute; reflexivity))
    as (s' & Hf & _ & Hst & Hq & _).
  exists s'. split_and!; [exact Hf|exact Hst|exact Hq].
Defined.

(** ** C2: starting a round *)

Section Timers.

Lemma mapGet_mapSet {V} k (v : V) m : mapGet k (mapSet k v m) = Some v.
Proof.
  unfold mapGet, mapSet.
  destruct (list_find (λ kv : string * V, kv.1 = k) m) as [[i [k' v']]|] eqn:E.
  - apply list_find_Some in E as (Hi & Hk & Hmin).
    assert (list_find (λ kv : string * V, kv.1 = k) (<[i:=(k, v)]> m)
            = Some (i, (k, v))) as ->; [|done].
    apply list_find_Some. split_and!.
    + apply list_lookup_insert_eq. by eapply lookup_lt_Some.
    + done.
    + intros j y Hj Hlt. rewrite list_lookup_insert_ne in Hj by lia. eauto.
  - rewrite list_find_app_r by done. simpl. by rewrite decide_True.
Qed.

Lemma nextTimer_clearGameTimer sid w :
  nextTimer (clearGameTimer sid w) = nextTimer w.
Proof. unfold clearGameTimer. by destruct (mapGet _ _). Qed.

End Timers.

(** C2, as the claim states it, fails: after bob won the round the session
    is [ended], question and answer are still stored, and [start_game] of
    bob, now the game master, is accepted.  The session is in progress
    again and [game_started] is sent. *)
Lemma start_game_from_ended_accepted :
  status Scenario.wonSession = ended
  ∧ gameMasterId Scenario.wonSession = Some "s2"
  ∧ (status <$> findBySessionId "abc12"
       (store (run 6 (on_start_game "s2" "abc12") Scenario.wonWorld).1))
    = Some in_progress
  ∧ (run 6 (on_start_game "s2" "abc12") Scenario.wonWorld).2
    = [ (ToRoom "abc12", game_started (Some "capital of france") 60);
        (ToRoom "s2", game_master_notification "game_started") ].
Proof. split_and!; vm_compute; reflexivity. Qed.

(** C2, amended.  [start_game] is accepted exactly when the sender is the
    game master, at least 2 players are connected, question and answer are
    set and the session is not in progress: it is accepted from [waiting]
    and from [ended], and from [in_progress] it is rejected.  When accepted,
    every player has 0 attempts, the winner is [null], the session is in
    progress, [gameStartTime] is the time of the event, and a timeout of
    60000 ms whose callback holds the session id of the event is scheduled
    and registered under that id.  Otherwise an error goes to the sender
    and nothing changes. *)
Theorem start_game_effect cl w now sock sid s :
  reachable cl w →
  findBySessionId sid (store w) = Some s →
  let r := run now (on_start_game sock sid) w in
  let accepted :=
    gameMasterId s = Some sock
    ∧ (2 ≤ length (connectedPlayers s))%nat
    ∧ falsyOpt (currentQuestion s) = false
    ∧ falsyOpt (currentAnswer s) = false
    ∧ status s ≠ in_progress in
  (accepted →
   ∃ s', findBySessionId sid (store r.1) = Some s'
     ∧ players s' = set_attempts 0 <$> players s
     ∧ Forall (λ p, attempts p = 0) (players s')
     ∧ winner s' = None ∧ status s' = in_progress
     ∧ gameStartTime s' = Some now
     ∧ currentQuestion s' = currentQuestion s
     ∧ currentAnswer s' = currentAnswer s
     ∧ gameMasterId s' = gameMasterId s
     ∧ mapGet sid (activeTimers r.1) = Some (nextTimer w)
     ∧ (nextTimer w, (sid, 60000)) ∈ scheduled r.1
     ∧ r.2 = [ (ToRoom sid, game_started (currentQuestion s) 60);
               (ToRoom sock, game_master_notification "game_started") ])
  ∧ (¬ accepted → ∃ msg, r = (w, [(ToSocket sock, error msg)])).
Proof.
  intros Hr Hf r accepted.
  pose proof (reachable_Inv _ _ Hr) as (_ & Hval & _).
  pose proof (findBySessionId_elem_of _ _ _ Hf) as [Hin _].
  rewrite Forall_forall in Hval. specialize (Hval _ Hin).
  subst r accepted. simpl. unfold handleStartGame. rewrite Hf. split.
  - intros (Hgm & Hn & Hq & Ha & Hst).
    rewrite (bool_decide_true (gameMasterId s = Some sock)) by done. simpl.
    rewrite bool_decide_false by lia. rewrite Hq, Ha. simpl.
    rewrite (bool_decide_false (status s = in_progress)) by done.
    set (s1 := set_winner _ _).
    assert (validSession s1 = true) as Hv1.
    { eapply validSession_reset; [done|done|done|].
      intros E. unfold connectedPlayers in Hn. rewrite E in Hn. simpl in Hn. lia. }
    unfold save. rewrite Hv1. simpl.
    exists (set_updatedAt now s1). split_and!; try done.
    + rewrite store_clearGameTimer. simpl. by eapply findBySessionId_storePut.
    + apply Forall_fmap. by apply Forall_true.
    + rewrite mapGet_mapSet, nextTimer_clearGameTimer. done.
    + rewrite nextTimer_clearGameTimer. simpl. apply elem_of_app. right. by left.
    + by rewrite Hgm.
  - intros Hno. case_bool_decide as Hgm; simpl; [|eauto].
    case_bool_decide as Hn; [eauto|].
    destruct (falsyOpt (currentQuestion s)) eqn:Hq; simpl; [eauto|].
    destruct (falsyOpt (currentAnswer s)) eqn:Ha; simpl; [eauto|].
    case_bool_decide as Hst; [eauto|].
    exfalso. apply Hno. split_and!; [done|lia|done..].
Qed.

Lemma start_game_effect_witness :
  reachable [] Scenario.wonWorld
  ∧ ∃ s', findBySessionId "abc12"
            (store (run 6 (on_start_game "s2" "abc12") Scenario.wonWorld).1)
          = Some s'
          ∧ status s' = in_progress ∧ gameStartTime s' = Some 6.
Proof.
  split; [exact wonWorld_reachable|].
  destruct (start_game_effect [] Scenario.wonWorld 6 "s2" "abc12"
              Scenario.wonSession wonWorld_reachable
              ltac:(vm_compute; reflexivity))
    as [Hok _].
  destruct Hok as (s' & Hf & _ & _ & _ & Hst & Ht & _).
  { split_and!; try (vm_compute; reflexivity).
    vm_compute. discriminate. }
  exists s'. split_and!; [exact Hf|exact Hst|exact Ht].
Defined.


(** ** C9: the creator and the first rotation *)

Section FirstRotation.
Implicit Types (s : Session) (p : Player) (l : list (nat * Player)).

Local Abbreviation cmpGM := (λ a b : nat * Player, byLastGameMasterTime a.2 b.2).








End FirstRotation.



(** ** The selection of the rotation, and a timeout that comes late *)

Section Support.
Implicit Types (s : Session) (p q : Player) (l : list (nat * Player)).

Local Abbreviation cmpGM := (λ a b : nat * Player, byLastGameMasterTime a.2 b.2).

Lemma earlierGM_trans a b c : earlierGM a b → earlierGM b c → earlierGM a c.
Proof.
  unfold earlierGM, earlier.
  destruct (lastGameMasterTime a.2), (lastGameMasterTime b.2),
    (lastGameMasterTime c.2); naive_solver lia.
Qed.

Lemma insertSorted_sorted x l :
  StronglySorted earlierGM l → StronglySorted earlierGM (insertSorted cmpGM x l).
Proof.
  induction 1 as [|y l Hl IH Hy]; simpl; [by repeat constructor|].
  destruct (cmpGM x y <? 0) eqn:E.
  - apply Z.ltb_lt in E. constructor; [by constructor|].
    assert (earlierGM x y) as Hxy.
    { revert E. unfold earlierGM, earlier, byLastGameMasterTime.
      destruct (lastGameMasterTime x.2), (lastGameMasterTime y.2); lia || done. }
    constructor; [done|]. eapply Forall_impl; [done|].
    intros z. by apply earlierGM_trans.
  - apply Z.ltb_ge in E. constructor; [done|].
    apply Forall_forall. intros z Hz. rewrite insertSorted_perm in Hz.
    apply elem_of_cons in Hz as [->|Hz].
    + revert E. unfold earlierGM, earlier, byLastGameMasterTime.
      destruct (lastGameMasterTime x.2), (lastGameMasterTime y.2); lia || done.
    + rewrite Forall_forall in Hy. by apply Hy.
Qed.

Lemma jsSort_sorted l : StronglySorted earlierGM (jsSort cmpGM l).
Proof.
  unfold jsSort.
  assert (∀ acc, StronglySorted earlierGM acc →
                 StronglySorted earlierGM
                   (foldl (λ acc x, insertSorted cmpGM x acc) acc l)) as H.
  { induction l as [|x l IH]; intros acc Hacc; simpl; [done|].
    by apply IH, insertSorted_sorted. }
  apply H. constructor.
Qed.

Lemma earlierGM_refl a : earlierGM a a.
Proof. unfold earlierGM, earlier. by destruct (lastGameMasterTime a.2). Qed.

Lemma head_sorted_least l x y :
  StronglySorted earlierGM l → head l = Some x → y ∈ l → earlierGM x y.
Proof.
  intros Hs Hh Hy. destruct l as [|z l]; simplify_eq/=.
  apply StronglySorted_cons in Hs as [Hx _].
  apply elem_of_cons in Hy as [->|Hy]; [apply earlierGM_refl|].
  rewrite Forall_forall in Hx. by apply Hx.
Qed.

Lemma filter_sorted (P : nat * Player → Prop) `{∀ x, Decision (P x)} l :
  StronglySorted earlierGM l → StronglySorted earlierGM (filter P l).
Proof.
  induction 1 as [|x l Hl IH Hx]; [constructor|].
  rewrite filter_cons. destruct (decide (P x)); [|done].
  constructor; [done|]. apply Forall_forall. intros y [_ Hy]%list_elem_of_filter.
  rewrite Forall_forall in Hx. by apply Hx.
Qed.

(** X11.  The player that [rotateGameMaster] selects is connected, and
    no connected player other than the current game master was game
    master less recently; when the current game master holds no connected
    player, no connected player at all was. *)
Lemma selectNextGameMaster_least s i p :
  selectNextGameMaster s = Some (i, p) →
  players s !! i = Some p ∧ isConnected p = true
  ∧ (∀ j q, players s !! j = Some q → isConnected q = true →
            Some (socketId q) ≠ gameMasterId s →
            earlier (lastGameMasterTime p) (lastGameMasterTime q))
  ∧ ((∀ q, q ∈ players s → Some (socketId q) = gameMasterId s →
           isConnected q = false) →
     ∀ j q, players s !! j = Some q → isConnected q = true →
            earlier (lastGameMasterTime p) (lastGameMasterTime q)).
Proof.
  intros Hsel. pose proof (selectNextGameMaster_Some _ _ _ Hsel) as [Hi Hc].
  split_and!; [done|done| |].
  - intros j q Hj Hq Hne. unfold selectNextGameMaster in Hsel.
    set (connected := filter _ (indexed (players s))) in Hsel.
    set (sorted := jsSort _ connected) in Hsel.
    set (others := filter _ sorted) in Hsel.
    assert ((j, q) ∈ sorted) as Hin.
    { apply jsSort_elem_of, list_elem_of_filter. split; [done|].
      by apply indexed_elem_of. }
    assert ((j, q) ∈ others) as Hin' by (by apply list_elem_of_filter).
    assert (StronglySorted earlierGM sorted) as Hs by apply jsSort_sorted.
    assert (StronglySorted earlierGM others) as Ho by (by apply filter_sorted).
    assert (head sorted = Some (i, p) ∨ head others = Some (i, p)) as [Hh|Hh].
    { destruct (list_find _ _) as [[k gm]|]; [|by left].
      destruct (isConnected gm); [|by left].
      destruct others as [|o l]; [by left|]. right. by simplify_eq. }
    + by apply (head_sorted_least sorted (i, p) (j, q)).
    + by apply (head_sorted_least others (i, p) (j, q)).
  - intros Hgm j q Hj Hq. unfold selectNextGameMaster in Hsel.
    set (connected := filter _ (indexed (players s))) in Hsel.
    set (sorted := jsSort _ connected) in Hsel.
    assert ((j, q) ∈ sorted) as Hin.
    { apply jsSort_elem_of, list_elem_of_filter. split; [done|].
      by apply indexed_elem_of. }
    assert (head sorted = Some (i, p)) as Hh.
    { destruct (list_find _ _) as [[k gm]|] eqn:Ef; [|done].
      apply list_find_Some in Ef as (Hk & Hgmk & _).
      rewrite (Hgm gm) in Hsel; [done| |done].
      by eapply list_elem_of_lookup_2. }
    apply (head_sorted_least sorted (i, p) (j, q)); [apply jsSort_sorted|done..].
Qed.

Lemma selectNextGameMaster_least_witness :
  players Scenario.playingSession !! 1%nat
  = Some (mkPlayer "s2" "bob" 0 0 true None 2)
  ∧ isConnected (mkPlayer "s2" "bob" 0 0 true None 2) = true.
Proof.
  destruct (selectNextGameMaster_least Scenario.playingSession 1%nat
              (mkPlayer "s2" "bob" 0 0 true None 2) eq_refl)
    as (H1 & H2 & _).
  split; [exact H1|exact H2].
Defined.


Lemma rotateGameMaster_quiet sid now w :
  Forall (λ e, isGameEnded e = false) (rotateGameMaster sid now w).2.
Proof.
  destruct (rotateGameMaster sid now w) as [w' out] eqn:E. simpl.
  apply rotateGameMaster_cases in E
    as [[_ ->]|(s & s' & _ & _ & [[_ ->]|(i & nxt & _ & _ & _ & _ & ?)])];
    done || constructor.
Qed.

Lemma store_unique (st : list Session) a b :
  NoDup (sessionId <$> st) → a ∈ st → b ∈ st →
  sessionId a = sessionId b → a = b.
Proof.
  intros Hnd [i Hi]%list_elem_of_lookup [j Hj]%list_elem_of_lookup E.
  assert (i = j) as -> by (by eapply NoDup_ids_lookup).
  congruence.
Qed.





(** X13.  A timeout that expires when its session is no longer in
    progress does nothing: it leaves the queue of the runtime, nothing is
    stored and nothing is sent. *)
Lemma late_timeout_does_nothing h now w k sid d s :
  list_find (λ e, e.1 = h) (scheduled w) = Some (k, (h, (sid, d))) →
  findBySessionId sid (store w) = Some s → status s ≠ in_progress →
  run now (on_timeout h) w = (clearTimeout h w, []).
Proof.
  intros Hh Hf Hst. simpl. unfold fireTimeout. rewrite Hh.
  unfold roundTimerCallback. simpl. rewrite Hf.
  by rewrite bool_decide_false.
Qed.

Lemma late_timeout_does_nothing_witness :
  (run 64000 (on_timeout 0)
       (run 5 (on_submit_guess "s2" "abc12" "paris")
            Scenario.playingUpperWorld).1).2 = [].
Proof.
  rewrite (late_timeout_does_nothing 0%nat 64000
             (run 5 (on_submit_guess "s2" "abc12" "paris")
                  Scenario.playingUpperWorld).1
             0%nat "ABC12" 60000 Scenario.wonSession).
  - reflexivity.
  - vm_compute. reflexivity.
  - vm_compute. reflexivity.
  - vm_compute. discriminate.
Defined.

End Support.

(** ** C3: the time of selection *)

(** C3 fails on the reassignment path.  alice, the game master, disconnects
    from the waiting session at time 3: [assignGameMaster] makes bob the
    game master and his [lastGameMasterTime] stays [null].  On the rotation
    path the time is recorded: after bob won the round at time 5 and
    [rotateGameMaster] selected him, his [lastGameMasterTime] is 5. *)
Lemma reassignment_leaves_time_null :
  gameMasterId Scenario.lobbySession = Some "s1"
  ∧ findBySessionId "abc12"
      (store (run 3 (on_disconnect "s1") Scenario.lobbyWorld).1)
    = Some (mkSession "abc12" false
              [ mkPlayer "s1" "alice" 0 0 false (Some 1) 3;
                mkPlayer "s2" "bob" 0 0 true None 2 ]
              (Some "s2") None None waiting None None 1 3)
  ∧ players Scenario.wonSession
    = [ mkPlayer "s1" "alice" 0 0 true (Some 1) 1;
        mkPlayer "s2" "bob" 10 1 true (Some 5) 2 ]
  ∧ gameMasterId Scenario.wonSession = Some "s2".
Proof. split_and!; vm_compute; reflexivity. Qed.

(** ** C4: the round timer *)

(** C4 fails where it says that the timer is cancelled once the round has
    ended.  The timer is registered under the session id as the
    [start_game] event spelled it, and cleared under the id as the ending
    event spells it.  alice starts the round under [ABC12] and bob wins it
    under [abc12]: the session is [ended], one [game_ended] was sent, and
    the timeout is still scheduled.  bob starts the next round at 40 s; the
    timeout of the first round expires at 64 s and ends the second round,
    36 s early, with [game_ended] for reason [timeout]. *)
Lemma timer_survives_round_end :
  scheduled Scenario.playingUpperWorld = [(0%nat, ("ABC12", 60000))]
  ∧ (let r := run 5 (on_submit_guess "s2" "abc12" "paris")
                  Scenario.playingUpperWorld in
     (status <$> findBySessionId "abc12" (store r.1)) = Some ended
     ∧ length (filter (λ e, isGameEnded e = true) r.2) = 1%nat
     ∧ activeTimers r.1 = [("ABC12", 0%nat)]
     ∧ scheduled r.1 = [(0%nat, ("ABC12", 60000))])
  ∧ (status <$> findBySessionId "abc12" (store Scenario.secondRoundWorld))
    = Some in_progress
  ∧ scheduled Scenario.secondRoundWorld
    = [(0%nat, ("ABC12", 60000)); (1%nat, ("abc12", 60000))]
  ∧ (let r := run 64000 (on_timeout 0) Scenario.secondRoundWorld in
     (status <$> findBySessionId "abc12" (store r.1)) = Some ended
     ∧ head r.2
       = Some (ToRoom "ABC12",
               game_ended "timeout" None (Some "rome")
                 [ mkPlayer "s1" "alice" 0 0 true (Some 1000) 1000;
                   mkPlayer "s2" "bob" 10 0 true (Some 10000) 2000 ])).
Proof. split_and!; vm_compute; split_and?; reflexivity. Qed.

(** ** C5: judging a guess *)

Section Judging.
Implicit Types (s : Session) (p : Player) (w : World).

Lemma mapGet_mapDelete {V} k (m : list (string * V)) :
  mapGet k (mapDelete k m) = None.
Proof.
  unfold mapGet, mapDelete.
  destruct (list_find _ (filter _ m)) as [[i kv]|] eqn:E; [|done].
  apply list_find_Some in E as (Hi & Hk & _).
  apply list_elem_of_lookup_2, list_elem_of_filter in Hi as [Hne _]. done.
Qed.

Lemma clearGameTimer_cleared sid w :
  mapGet sid (activeTimers (clearGameTimer sid w)) = None
  ∧ ∀ h, mapGet sid (activeTimers w) = Some h →
         Forall (λ e, e.1 ≠ h) (scheduled (clearGameTimer sid w)).
Proof.
  unfold clearGameTimer. destruct (mapGet sid (activeTimers w)) as [h|] eqn:E.
  - simpl. split; [apply mapGet_mapDelete|]. intros ? [= <-].
    apply Forall_forall. by intros e [? _]%list_elem_of_filter.
  - by rewrite E.
Qed.

(** X14.  A guess that passes the guards of [handleSubmitGuess] and for
    which [guess.trim().toLowerCase()] is the stored answer leaves the
    session [ended] with the guesser as winner, 10 points more for the
    guesser and nobody else, one attempt more for the guesser, and
    [game_ended] with reason [winner] as the first message; the timeout
    registered under the session id of the event, if there is one, is
    cleared.  (A timeout registered under another spelling of the id is
    not: see [correct_guess_leaves_timer].) *)
Lemma correct_guess_effect cl w now sock sid guess s i p0 :
  reachable cl w →
  falsy (trim guess) = false →
  findBySessionId sid (store w) = Some s →
  status s = in_progress →
  list_find (λ p, socketId p = sock) (players s) = Some (i, p0) →
  gameMasterId s ≠ Some sock →
  attempts p0 < 3 →
  currentAnswer s = Some (toLowerCase (trim guess)) →
  let r := run now (on_submit_guess sock sid guess) w in
  ∃ s',
    findBySessionId sid (store r.1) = Some s'
    ∧ status s' = ended ∧ winner s' = Some (username p0)
    ∧ score <$> players s' = <[i := score p0 + 10]> (score <$> players s)
    ∧ attempts <$> players s'
      = <[i := attempts p0 + 1]> (attempts <$> players s)
    ∧ (∃ ps, head r.2
             = Some (ToRoom sid,
                     game_ended "winner" (Some (username p0))
                                (currentAnswer s) ps))
    ∧ mapGet sid (activeTimers r.1) = None
    ∧ (∀ h, mapGet sid (activeTimers w) = Some h →
            Forall (λ e, e.1 ≠ h) (scheduled r.1)).
Proof.
  intros Hr Hg Hf Hst Hp Hgm Hlt Hright r.
  pose proof (reachable_Inv _ _ Hr) as (_ & Hval & _).
  pose proof (findBySessionId_elem_of _ _ _ Hf) as [Hin _].
  rewrite Forall_forall in Hval. specialize (Hval _ Hin).
  pose proof (proj1 (list_find_Some _ _ _ _) Hp) as (Hi & Hsock & _).
  set (f1 := λ p, set_attempts (attempts p + 1) p).
  set (f2 := λ p, set_score (score p + 10) p).
  set (s2 := set_winner (Some (username p0))
               (set_status ended (updatePlayer i f2 (updatePlayer i f1 s)))).
  assert (players s2 = alter (f2 ∘ f1) i (players s)) as Hps2
    by (simpl; by rewrite list_alter_alter_eq).
  assert (validSession s2 = true) as Hv2.
  { eapply validSession_change; [done|done| | |right].
    - rewrite Hps2. apply Forall_alter; [by apply validSession_players|].
      intros q Hq. simplify_eq.
      apply validSession_players in Hval. rewrite Forall_lookup in Hval.
      specialize (Hval _ _ Hi). revert Hval. unfold validPlayer. simpl.
      rewrite !andb_true_iff, !Z.leb_le. intuition lia.
    - rewrite Hps2. intros E. apply (f_equal length) in E.
      rewrite length_alter in E. by apply nil_length_inv.
    - rewrite Hps2. intros E. apply (f_equal length) in E.
      rewrite length_alter in E. apply nil_length_inv in E.
      by rewrite E in Hi. }
  assert (∀ D, players D = players s2 ∨
               (∃ j, players D = alter (set_lastGameMasterTime (Some now)) j
                                       (players s2)) →
               score <$> players D = <[i := score p0 + 10]> (score <$> players s)
               ∧ attempts <$> players D
                 = <[i := attempts p0 + 1]> (attempts <$> players s)) as Hfields.
  { assert (score <$> players s2 = <[i := score p0 + 10]> (score <$> players s)
            ∧ attempts <$> players s2
              = <[i := attempts p0 + 1]> (attempts <$> players s)) as [E1 E2].
    { rewrite Hps2. split; apply list_eq; intros j;
        rewrite list_lookup_fmap;
        (destruct (decide (j = i)) as [->|Hne];
         [rewrite list_lookup_alter_eq, Hi, list_lookup_insert_eq
            by (rewrite length_fmap; by eapply lookup_lt_Some); done
         |rewrite list_lookup_alter_ne, list_lookup_insert_ne by done;
          by rewrite list_lookup_fmap]). }
    intros D [->|[j ->]]; [done|]. rewrite !fmap_alter_same by done. done. }
  destruct (clearGameTimer_cleared sid w) as [Hgone Hunsched].
  set (w2 := set_store (storePut (set_updatedAt now s2)
                                 (store (clearGameTimer sid w)))
                       (clearGameTimer sid w)).
  assert (r = let '(w3, rot) := rotateGameMaster sid now w2 in
              (w3, (ToRoom sid,
                    game_ended "winner" (Some (username p0))
                               (currentAnswer s) (players s2))
                   :: rot ++ [(ToRoom sid, chat_system)])) as ->.
  { subst r. simpl. unfold handleSubmitGuess.
    rewrite Hg, Hf, Hst, Hp. simpl.
    rewrite (bool_decide_false (Some sock = gameMasterId s)) by congruence.
    assert ((3 <=? attempts p0) = false) as -> by (apply Z.leb_gt; lia).
    rewrite (bool_decide_true (Some _ = currentAnswer _))
      by (simpl; congruence).
    fold f1 f2. fold s2. unfold save. by rewrite Hv2. }
  assert (findBySessionId sid (store w2) = Some (set_updatedAt now s2)) as Hf2.
  { subst w2. simpl. rewrite store_clearGameTimer.
    by eapply findBySessionId_storePut. }
  pose proof (rotateGameMaster_timers sid now w2) as (Ha & Hsch & _).
  destruct (rotateGameMaster sid now w2) as [w3 rot] eqn:Hrot.
  cbn [fst snd] in *. rewrite Ha, Hsch.
  apply rotateGameMaster_cases in Hrot
    as [[-> _]|(s1 & s' & Hf1 & Hs & Hc)].
  - exists (set_updatedAt now s2). split_and!; try done.
    + apply (Hfields (set_updatedAt now s2)). by left.
    + apply (Hfields (set_updatedAt now s2)). by left.
    + eauto.
  - rewrite Hf2 in Hf1. injection Hf1 as <-.
    apply save_Some in Hs as [_ ->]. exists (set_updatedAt now s').
    assert (sessionId s' = sessionId (set_updatedAt now s2)
            ∧ status s' = ended ∧ winner s' = Some (username p0)
            ∧ (players s' = players s2
               ∨ ∃ j, players s'
                      = alter (set_lastGameMasterTime (Some now)) j
                              (players s2))) as (Hk & Hst' & Hw' & Hps').
    { destruct Hc as [[-> _]|(j & nxt & _ & _ & _ & -> & _)].
      - split_and!; try done. by left.
      - split_and!; try done. right. by exists j. }
    split; [simpl; by eapply findBySessionId_storePut|].
    split_and!; try done; try (by apply (Hfields (set_updatedAt now s'))).
    eauto.
Qed.

Lemma correct_guess_effect_witness :
  ∃ s', findBySessionId "abc12"
          (store (run 5 (on_submit_guess "s2" "abc12" "Paris ")
                      Scenario.playingWorld).1) = Some s'
        ∧ status s' = ended ∧ winner s' = Some "bob"
        ∧ (score <$> players s') = [0; 10].
Proof.
  destruct (correct_guess_effect [] Scenario.playingWorld 5 "s2" "abc12"
              "Paris " Scenario.playingSession 1%nat
              (mkPlayer "s2" "bob" 0 0 true None 2) playingWorld_reachable)
    as (s' & H1 & H2 & H3 & H4 & _).
  - vm_compute. reflexivity.
  - vm_compute. reflexivity.
  - vm_compute. reflexivity.
  - vm_compute. reflexivity.
  - vm_compute. congruence.
  - vm_compute. reflexivity.
  - vm_compute. reflexivity.
  - exists s'. split_and!; [exact H1|exact H2|exact H3|exact H4].
Defined.

End Judging.


(** C5 fails where it says that a correct guess cancels the timer.  alice
    starts the round under the id [abc12]; bob sends the right answer
    under the id [ABC12], which leads to the same session.  The guess is
    judged correct: bob gets 10 points and is the winner, the session is
    [ended] and [game_ended] with reason [winner] is sent.  But
    [clearGameTimer("ABC12")] finds nothing to clear and the timeout
    registered under [abc12] stays scheduled. *)
Lemma correct_guess_leaves_timer :
  scheduled Scenario.playingWorld = [(0%nat, ("abc12", 60000))]
  ∧ (let r := run 5 (on_submit_guess "s2" "ABC12" " Paris ")
                  Scenario.playingWorld in
     findBySessionId "abc12" (store r.1)
     = Some (mkSession "abc12" false
               [ mkPlayer "s1" "alice" 0 0 true (Some 1) 1;
                 mkPlayer "s2" "bob" 10 1 true (Some 5) 2 ]
               (Some "s2") (Some "capital of france") (Some "paris")
               ended (Some "bob") (Some 4) 1 5)
     ∧ head r.2
       = Some (ToRoom "ABC12",
               game_ended "winner" (Some "bob") (Some "paris")
                 [ mkPlayer "s1" "alice" 0 0 true (Some 1) 1;
                   mkPlayer "s2" "bob" 10 1 true None 2 ])
     ∧ activeTimers r.1 = [("abc12", 0%nat)]
     ∧ scheduled r.1 = [(0%nat, ("abc12", 60000))]).
Proof. split_and!; vm_compute; split_and?; reflexivity. Qed.

(** ** C8: the game master disconnects during a round *)

(** C8 fails where it says that the timer is cancelled.  alice starts the
    round under the id [ABC12] and disconnects.  She is flagged as
    disconnected, bob is the game master, the session is [ended] and
    [game_ended] with reason [timeout] is sent; but [handleDisconnect]
    clears the timer under the stored id [abc12], and the timeout
    registered under [ABC12] stays scheduled. *)
Lemma gm_disconnect_leaves_timer :
  scheduled Scenario.playingUpperWorld = [(0%nat, ("ABC12", 60000))]
  ∧ (let r := run 5 (on_disconnect "s1") Scenario.playingUpperWorld in
     (status <$> findBySessionId "abc12" (store r.1)) = Some ended
     ∧ (gameMasterId <$> findBySessionId "abc12" (store r.1)) = Some (Some "s2")
     ∧ (map isConnected <$> (players <$> findBySessionId "abc12" (store r.1)))
       = Some [false; true]
     ∧ filter (λ e, isGameEnded e = true) r.2
       = [ (ToRoom "abc12",
            game_ended "timeout" None (Some "paris")
              [ mkPlayer "s1" "alice" 0 0 false (Some 1) 5;
                mkPlayer "s2" "bob" 0 0 true None 2 ]) ]
     ∧ activeTimers r.1 = [("ABC12", 0%nat)]
     ∧ scheduled r.1 = [(0%nat, ("ABC12", 60000))]).
Proof. split_and!; vm_compute; split_and?; reflexivity. Qed.

(** * Further properties of the code *)

(** ** The methods of the model *)

Section Model.
Implicit Types (s : Session) (st : list Session) (p : Player) (w : World).

Lemma findBySessionId_filter (P : Session → Prop) `{∀ s, Decision (P s)} sid st :
  NoDup (sessionId <$> st) →
  findBySessionId sid (filter P st)
  = match findBySessionId sid st with
    | Some s => if decide (P s) then Some s else None
    | None => None
    end.
Proof.
  unfold findBySessionId. induction st as [|x st IH]; [done|].
  csimpl. intros [Hx Hnd]%NoDup_cons. specialize (IH Hnd).
  rewrite filter_cons.
  destruct (decide (sessionId x = lookupKey sid)) as [E|E]; simpl.
  - destruct (decide (P x)) as [HP|HP]; simpl.
    + by rewrite decide_True.
    + destruct (list_find _ (filter P st)) as [[i y]|] eqn:Ef; [|done].
      exfalso. apply list_find_Some in Ef as (Hi & Hy & _).
      apply list_elem_of_lookup_2, list_elem_of_filter in Hi as [_ Hin].
      apply Hx. rewrite E, <- Hy. apply list_elem_of_fmap. eauto.
  - assert (∀ o : option (nat * Session),
              snd <$> (prod_map S id <$> o) = snd <$> o) as Hsnd
      by (by intros [[??]|]).
    destruct (decide (P x)) as [HP|HP]; simpl.
    + rewrite decide_False by done. by rewrite !Hsnd.
    + by rewrite Hsnd.
Qed.

Lemma filter_length_split {A} (f : A → bool) (l : list A) :
  (length (filter (λ x, f x = false) l) + length (filter (λ x, f x = true) l)
   = length l)%nat.
Proof.
  induction l as [|x l IH]; [done|]. rewrite !filter_cons.
  destruct (f x); simpl; repeat case_decide; try done; simpl; lia.
Qed.

(** X1.  [cleanupOldSessions] deletes the sessions that were last saved
    more than 24 hours ago and have a player flagged as disconnected, and
    no other: on a collection with unique ids, a lookup afterwards finds
    what it found before unless that session was such a one; a session
    saved within the last 24 hours, one whose players are all connected and
    one without players stay; the sessions that stay keep their order;
    [deletedCount] is the number of sessions removed; a second run at the
    same time deletes nothing. *)
Theorem cleanupOldSessions_spec now st :
  NoDup (sessionId <$> st) →
  let r := cleanupOldSessions now st in
  (∀ sid, findBySessionId sid r.1
          = match findBySessionId sid st with
            | Some s => if isOldSession now s then None else Some s
            | None => None
            end)
  ∧ (∀ s, s ∈ st →
          now - 86400000 ≤ updatedAt s
          ∨ Forall (λ p, isConnected p = true) (players s) →
          s ∈ r.1)
  ∧ r.1 `sublist_of` st
  ∧ (length r.1 + r.2 = length st)%nat
  ∧ cleanupOldSessions now r.1 = (r.1, 0%nat).
Proof.
  intros Hnd r. subst r. unfold cleanupOldSessions. simpl. split_and!.
  - intros sid. rewrite findBySessionId_filter by done.
    destruct (findBySessionId sid st) as [s|]; [|done].
    destruct (isOldSession now s); by case_decide.
  - intros s Hs Hkeep. apply list_elem_of_filter. split; [|done].
    unfold isOldSession. destruct Hkeep as [Hnew|Hall].
    + apply andb_false_iff. left. apply Z.ltb_ge. lia.
    + apply andb_false_iff. right.
      apply not_true_is_false. intros (p & Hp & Hc)%existsb_exists.
      rewrite Forall_forall in Hall. apply list_elem_of_In in Hp.
      rewrite (Hall p Hp) in Hc. done.
  - apply sublist_filter.
  - apply filter_length_split.
  - f_equal.
    + by rewrite list_filter_filter_l.
    + assert (∀ l : list Session,
                filter (λ s, isOldSession now s = true)
                       (filter (λ s, isOldSession now s = false) l) = []) as ->;
        [|done].
      induction l as [|x l IH]; [done|]. rewrite filter_cons.
      destruct (decide (isOldSession now x = false)) as [E|E]; [|done].
      rewrite filter_cons, decide_False by congruence. done.
Qed.

Lemma cleanupOldSessions_spec_witness :
  findBySessionId "ABC12"
    (cleanupOldSessions 90000000 (store Scripts.bobLeftWorld)).1 = None.
Proof.
  refine (eq_trans
            (proj1 (cleanupOldSessions_spec 90000000
                      (store Scripts.bobLeftWorld) _) "ABC12") _).
  - apply NoDup_singleton.
  - vm_compute. reflexivity.
Defined.



(** X3.  [removePlayer] on a valid session removes the players with that
    socket id and nobody else, the others keeping their order and their
    data; the game master is not reassigned, also when the player removed
    was the game master; the document is saved, except that [save] rejects
    a session other than a [waiting] one that this leaves without players. *)
Theorem removePlayer_spec sock now s w :
  validSession s = true →
  let ps := filter (λ p, socketId p ≠ sock) (players s) in
  let s' := set_players ps s in
  (∀ p, p ∈ ps ↔ p ∈ players s ∧ socketId p ≠ sock)
  ∧ ps `sublist_of` players s
  ∧ gameMasterId s' = gameMasterId s
  ∧ removePlayer sock now s w
    = if bool_decide (ps = [] ∧ status s ≠ waiting) then rejected
      else stored (set_store (storePut (set_updatedAt now s') (store w)) w).
Proof.
  intros Hv ps s'. split_and!.
  - intros p. subst ps. rewrite list_elem_of_filter. tauto.
  - apply sublist_filter.
  - done.
  - unfold removePlayer, save. fold ps s'.
    assert (validSession s'
            = negb (bool_decide (ps = [] ∧ status s ≠ waiting))) as ->.
    { pose proof (validSession_id _ Hv) as Hid.
      pose proof (validSession_players _ Hv) as Hps.
      unfold validSession. subst s'. cbn [sessionId players status set_players].
      assert (forallb validPlayer ps = true) as ->.
      { apply forallb_Forall, Forall_forall. subst ps.
        intros p [_ Hp]%list_elem_of_filter.
        rewrite Forall_forall in Hps. by apply Hps. }
      assert ((3 <=? len (sessionId s)) = true) as -> by (apply Z.leb_le; lia).
      assert ((len (sessionId s) <=? 20) = true) as -> by (apply Z.leb_le; lia).
      simpl. f_equal.
      destruct (decide (ps = [])) as [E|E], (decide (status s = waiting)) as [E'|E'].
      - rewrite !bool_decide_true by done. simpl.
        rewrite bool_decide_false; [done|]. tauto.
      - rewrite (bool_decide_true (ps = [])), (bool_decide_false (status s = waiting))
          by done. simpl. by rewrite bool_decide_true.
      - rewrite (bool_decide_false (ps = [])) by done. simpl.
        rewrite bool_decide_false; [done|]. tauto.
      - rewrite (bool_decide_false (ps = [])) by done. simpl.
        rewrite bool_decide_false; [done|]. tauto. }
    by case_bool_decide.
Qed.

Lemma removePlayer_spec_witness :
  removePlayer "s1" 9 Scenario.playingSession Scenario.playingWorld ≠ rejected.
Proof.
  pose proof (removePlayer_spec "s1" 9 Scenario.playingSession
                Scenario.playingWorld eq_refl) as H.
  cbv zeta in H. destruct H as (_ & _ & _ & ->).
  rewrite bool_decide_false; [discriminate|].
  vm_compute. intros [? _]. discriminate.
Defined.

(** X4.  [resetGame] puts the session in [waiting], clears question,
    answer, winner and start time and sets every player's attempts to 0;
    it keeps the id, the players with their names, sockets, scores and
    connection flags, and the game master; a second call changes nothing
    more; the result of a document that the schema accepts is accepted;
    and it is the document that an accepted [start_next_round] saves. *)
Theorem resetGame_spec s :
  let s' := resetGame s in
  status s' = waiting ∧ currentQuestion s' = None ∧ currentAnswer s' = None
  ∧ winner s' = None ∧ gameStartTime s' = None
  ∧ players s' = set_attempts 0 <$> players s
  ∧ sessionId s' = sessionId s ∧ gameMasterId s' = gameMasterId s
  ∧ requiresGameMaster s' = requiresGameMaster s
  ∧ createdAt s' = createdAt s
  ∧ resetGame s' = s'
  ∧ (validSession s = true → validSession s' = true)
  ∧ (∀ sock sid now w,
       findBySessionId sid (store w) = Some s →
       gameMasterId s = Some sock → validSession s = true →
       (handleStartNextRound sock sid now w).1
       = set_store (storePut (set_updatedAt now s') (store w)) w).
Proof.
  intros s'. assert (validSession s = true → validSession s' = true) as Hval.
  { intros Hv. pose proof (validSession_id _ Hv) as Hid.
    pose proof (validSession_players _ Hv) as Hps.
    unfold validSession. subst s'. simpl.
    rewrite !andb_true_iff, !Z.leb_le. split_and!; [lia|lia| |].
    - apply forallb_Forall, Forall_fmap. eapply Forall_impl; [done|].
      intros p. unfold validPlayer. simpl.
      rewrite !andb_true_iff, !Z.leb_le. intuition lia.
    - by rewrite andb_false_r. }
  split_and!; try done.
  - subst s'. destruct s as [k r ps g q a st wn t c u].
    unfold resetGame, forEachPlayer, set_players. simpl. f_equal.
    rewrite <- list_fmap_compose. by apply list_fmap_ext.
  - intros sock sid now w Hf Hgm Hv. unfold handleStartNextRound.
    rewrite Hf, Hgm. rewrite bool_decide_true by done. simpl.
    fold (resetGame s). fold s'. unfold save. by rewrite (Hval Hv).
Qed.

End Model.

(** ** The handlers, one by one *)

Section Lookups.
Implicit Types (s : Session) (st : list Session) (w : World).



End Lookups.








(** ** Sorting with a comparator that decides an order *)

Section SortedBy.
Context {A : Type} (cmp : A → A → Z) (R : A → A → Prop).
Hypothesis R_trans : ∀ a b c, R a b → R b c → R a c.
Hypothesis cmp_neg : ∀ a b, cmp a b < 0 → R a b.
Hypothesis cmp_nonneg : ∀ a b, 0 ≤ cmp a b → R b a.

Lemma insertSorted_StronglySorted x l :
  StronglySorted R l → StronglySorted R (insertSorted cmp x l).
Proof.
  induction 1 as [|y l Hl IH Hy]; simpl; [by repeat constructor|].
  destruct (cmp x y <? 0) eqn:E.
  - apply Z.ltb_lt in E. constructor; [by constructor|].
    constructor; [by apply cmp_neg|]. eapply Forall_impl; [done|].
    intros z. apply R_trans. by apply cmp_neg.
  - apply Z.ltb_ge in E. constructor; [done|].
    apply Forall_forall. intros z Hz. rewrite insertSorted_perm in Hz.
    apply elem_of_cons in Hz as [->|Hz]; [by apply cmp_nonneg|].
    rewrite Forall_forall in Hy. by apply Hy.
Qed.

Lemma jsSort_StronglySorted l : StronglySorted R (jsSort cmp l).
Proof.
  unfold jsSort.
  assert (∀ acc, StronglySorted R acc →
                 StronglySorted R (foldl (λ acc x, insertSorted cmp x acc) acc l))
    as H.
  { induction l as [|x l IH]; intros acc Hacc; simpl; [done|].
    by apply IH, insertSorted_StronglySorted. }
  apply H. constructor.
Qed.

End SortedBy.

Section Assign.
Implicit Types (s : Session) (p q : Player).

Lemma earlier_trans a b c : earlier a b → earlier b c → earlier a c.
Proof. destruct a, b, c; simpl; try done. lia. Qed.

Lemma earlier_refl a : earlier a a.
Proof. destruct a; simpl; [lia|done]. Qed.

Lemma jsSort_players_sorted (ps : list Player) :
  StronglySorted (λ a b, earlier (lastGameMasterTime a) (lastGameMasterTime b))
                 (jsSort byLastGameMasterTime ps).
Proof.
  apply jsSort_StronglySorted.
  - intros a b c. apply earlier_trans.
  - intros a b. unfold byLastGameMasterTime, earlier.
    destruct (lastGameMasterTime a), (lastGameMasterTime b); lia || done.
  - intros a b. unfold byLastGameMasterTime, earlier.
    destruct (lastGameMasterTime a), (lastGameMasterTime b); lia || done.
Qed.

(** X10.  [assignGameMaster] changes at most [gameMasterId] and
    [requiresGameMaster].  With no connected player it only sets
    [requiresGameMaster]; when the first player whose socket is the game
    master's is connected it changes nothing and sends nothing; otherwise
    the new game master is a connected player, and no connected player has
    been game master less recently ([null] counting as least recent), and
    the two notifications are sent when asked for.  No player's
    [lastGameMasterTime] is written. *)
Theorem assignGameMaster_choice s notify :
  let r := assignGameMaster s notify in
  let valid :=
    match list_find (λ p, Some (socketId p) = gameMasterId s) (players s) with
    | Some (_, p) => isConnected p
    | None => false
    end in
  players r.1 = players s ∧ sessionId r.1 = sessionId s
  ∧ status r.1 = status s ∧ currentQuestion r.1 = currentQuestion s
  ∧ currentAnswer r.1 = currentAnswer s ∧ winner r.1 = winner s
  ∧ if bool_decide (connectedPlayers s = []) then
      r = (set_requiresGameMaster true s, [])
    else if valid then r = (s, [])
    else
      ∃ first,
        first ∈ connectedPlayers s
        ∧ (∀ q, q ∈ connectedPlayers s →
                earlier (lastGameMasterTime first) (lastGameMasterTime q))
        ∧ r.1 = set_requiresGameMaster false
                  (set_gameMasterId (Some (socketId first)) s)
        ∧ r.2 = if notify then
                  [ (ToRoom (sessionId s),
                     new_game_master (Some (socketId first)) (username first)
                                     (players s));
                    (ToRoom (sessionId s),
                     players_update (players s) (Some (socketId first))) ]
                else [].
Proof.
  intros r valid.
  destruct (assignGameMaster s notify) as [s' ev] eqn:Ha.
  pose proof (assignGameMaster_frame _ _ _ _ Ha) as (Hk & Hps & Hst & Hq & Han & Hw & _).
  subst r. simpl. split_and!; [done..|].
  revert Ha. unfold assignGameMaster. fold valid.
  case_bool_decide as Hlen; case_bool_decide as Hnil.
  - by intros [= <- <-].
  - exfalso. apply Hnil. by apply nil_length_inv.
  - exfalso. apply Hlen. by rewrite Hnil.
  - destruct valid; simpl; [by intros [= <- <-]|].
    pose proof (jsSort_players_sorted (connectedPlayers s)) as Hsorted.
    destruct (jsSort byLastGameMasterTime (connectedPlayers s))
      as [|first l] eqn:Es.
    { exfalso. by apply jsSort_nil_inv in Es. }
    intros [= <- <-]. exists first. split_and!; [| |done|done].
    + apply (jsSort_elem_of byLastGameMasterTime). rewrite Es. by left.
    + intros q Hq'. apply (jsSort_elem_of byLastGameMasterTime) in Hq'.
      rewrite Es in Hq'. apply StronglySorted_cons in Hsorted as [Hhd _].
      apply elem_of_cons in Hq' as [->|Hq']; [apply earlier_refl|].
      rewrite Forall_forall in Hhd. by apply Hhd.
Qed.

End Assign.

(** ** What one event does *)

Section Exact.
Implicit Types (s D : Session) (st : list Session) (p : Player) (w : World).

Lemma clearGameTimer_set_store k st w :
  clearGameTimer k (set_store st w) = set_store st (clearGameTimer k w).
Proof. unfold clearGameTimer. simpl. by destruct (mapGet k (activeTimers w)). Qed.

Lemma clearGameTimer_put k D w :
  clearGameTimer k (put D w) = put D (clearGameTimer k w).
Proof.
  unfold put. rewrite clearGameTimer_set_store. by rewrite store_clearGameTimer.
Qed.

Lemma put_put D1 D2 w :
  sessionId D2 = sessionId D1 → put D2 (put D1 w) = put D2 w.
Proof. intros Hk. unfold put. simpl. by rewrite storePut_storePut. Qed.

Lemma save_put now s w :
  validSession s = true → save now s w = Some (put (set_updatedAt now s) w).
Proof. unfold save. by intros ->. Qed.

Lemma findBySessionId_put sid s0 D w :
  findBySessionId sid (store w) = Some s0 → sessionId D = sessionId s0 →
  findBySessionId sid (store (put D w)) = Some D.
Proof. intros. simpl. by eapply findBySessionId_storePut. Qed.

Lemma indexed_nil_inv (ps : list Player) : indexed ps = [] → ps = [].
Proof. by destruct ps. Qed.

Lemma connected_indexed (ps : list Player) :
  filter (λ p, isConnected p = true) ps ≠ [] →
  filter (λ ip : nat * Player, isConnected ip.2 = true) (indexed ps) ≠ [].
Proof.
  intros Hne Hnil. apply Hne.
  destruct (filter _ ps) as [|p l] eqn:E; [done|]. exfalso.
  assert (p ∈ filter (λ p, isConnected p = true) ps) as Hin
    by (rewrite E; by left).
  apply list_elem_of_filter in Hin as [Hc Hin].
  apply list_elem_of_lookup in Hin as [i Hi].
  apply (filter_nil_not_elem_of _ _ (i, p) Hnil); [done|].
  by apply indexed_elem_of.
Qed.

Lemma selectNextGameMaster_is_Some s :
  connectedPlayers s ≠ [] → is_Some (selectNextGameMaster s).
Proof.
  intros Hne. unfold selectNextGameMaster.
  set (connected := filter _ (indexed (players s))).
  set (sorted := jsSort _ connected).
  assert (is_Some (head sorted)) as Hhd.
  { destruct sorted as [|x l] eqn:E; [|by eexists].
    apply jsSort_nil_inv in E. by apply connected_indexed in Hne. }
  destruct (list_find _ (players s)) as [[k gm]|]; [|done].
  destruct (isConnected gm); [|done].
  destruct (filter _ sorted); [done|by eexists].
Qed.

Lemma validSession_installGameMaster now i nxt s :
  validSession s = true → players s ≠ [] →
  validSession (installGameMaster now i nxt s) = true.
Proof.
  intros Hv Hne. eapply validSession_change; [done|done| | |right].
  - simpl. apply Forall_alter; [by apply validSession_players|].
    by intros [].
  - simpl. intros E. apply (f_equal length) in E.
    rewrite length_alter in E. by apply nil_length_inv.
  - simpl. intros E. apply (f_equal length) in E.
    rewrite length_alter in E. by apply nil_length_inv in E.
Qed.

Lemma validSession_rotateDoc now s :
  validSession s = true → players s ≠ [] → validSession (rotateDoc now s) = true.
Proof.
  intros Hv Hne. unfold rotateDoc. case_bool_decide; [done|].
  destruct (selectNextGameMaster s) as [[i nxt]|]; [|done].
  by apply validSession_installGameMaster.
Qed.

Lemma rotateDoc_frame now s :
  sessionId (rotateDoc now s) = sessionId s
  ∧ currentQuestion (rotateDoc now s) = currentQuestion s
  ∧ currentAnswer (rotateDoc now s) = currentAnswer s
  ∧ winner (rotateDoc now s) = winner s
  ∧ createdAt (rotateDoc now s) = createdAt s
  ∧ (status (rotateDoc now s) = status s ∨ status (rotateDoc now s) = ended)
  ∧ ((players (rotateDoc now s) = players s)
     ∨ ∃ i, players (rotateDoc now s)
            = alter (set_lastGameMasterTime (Some now)) i (players s)).
Proof.
  unfold rotateDoc. case_bool_decide; [by split_and!; auto|].
  destruct (selectNextGameMaster s) as [[i nxt]|]; [|by split_and!; auto].
  split_and!; try done; [by right|]. right. by exists i.
Qed.

(** [rotateGameMaster] on a store that holds a valid [base] under [sid]. *)
Lemma rotateGameMaster_exact sid now w base :
  findBySessionId sid (store w) = Some base →
  validSession base = true → players base ≠ [] →
  (rotateGameMaster sid now w).1 = put (set_updatedAt now (rotateDoc now base)) w.
Proof.
  intros Hf Hv Hne. unfold rotateGameMaster, rotateDoc. rewrite Hf.
  case_bool_decide as Hlen.
  - by rewrite save_put.
  - assert (connectedPlayers base ≠ []) as Hc
      by (intros E; apply Hlen; by rewrite E).
    destruct (selectNextGameMaster_is_Some _ Hc) as [[i nxt] ->].
    by rewrite save_put by (by apply validSession_installGameMaster).
Qed.

Lemma stamp_rotateDoc t t' now s :
  set_updatedAt t (rotateDoc now (set_updatedAt t' s))
  = set_updatedAt t (rotateDoc now s).
Proof.
  unfold rotateDoc. change (connectedPlayers (set_updatedAt t' s))
    with (connectedPlayers s).
  case_bool_decide; [done|].
  change (selectNextGameMaster (set_updatedAt t' s))
    with (selectNextGameMaster s).
  by destruct (selectNextGameMaster s) as [[i nxt]|].
Qed.

End Exact.

Section HandlerEffects.
Implicit Types (s D : Session) (st : list Session) (p : Player) (w : World).

Lemma validSession_nonempty s :
  validSession s = true → status s ≠ waiting → players s ≠ [].
Proof.
  unfold validSession. rewrite !andb_true_iff, negb_true_iff.
  intros (_ & H) Hst Hnil. rewrite andb_false_iff in H.
  destruct H as [H|H].
  - by rewrite bool_decide_true in H.
  - rewrite negb_false_iff in H. by apply bool_decide_eq_true in H.
Qed.

Lemma validSession_status s (v : Status) :
  validSession s = true → players s ≠ [] →
  validSession (set_status v s) = true.
Proof.
  intros Hv Hne.
  apply (validSession_change s); [done|done| |done|by right].
  by apply (validSession_players s).
Qed.

Lemma validSession_guessDoc s i p0 :
  validSession s = true → players s !! i = Some p0 → attempts p0 < 3 →
  validSession (guessDoc i s) = true.
Proof.
  intros Hv Hi Hlt. eapply validSession_updatePlayer; [done|done|].
  apply validSession_players in Hv. rewrite Forall_lookup in Hv.
  specialize (Hv _ _ Hi). revert Hv. unfold validPlayer. simpl.
  rewrite !andb_true_iff, !Z.leb_le. intuition lia.
Qed.

Lemma validSession_winDoc s i p0 u :
  validSession s = true → players s !! i = Some p0 → attempts p0 < 3 →
  validSession (winDoc i u s) = true.
Proof.
  intros Hv Hi Hlt.
  pose proof (validSession_guessDoc _ _ _ Hv Hi Hlt) as Hg.
  assert (players (guessDoc i s) !! i
          = Some (set_attempts (attempts p0 + 1) p0)) as Hi'
    by (simpl; by rewrite list_lookup_alter_eq, Hi).
  assert (validSession
            (updatePlayer i (λ p, set_score (score p + 10) p) (guessDoc i s))
          = true) as Hs.
  { eapply validSession_updatePlayer; [done|done|].
    apply validSession_players in Hg. rewrite Forall_lookup in Hg.
    specialize (Hg _ _ Hi'). revert Hg. unfold validPlayer. simpl.
    rewrite !andb_true_iff, !Z.leb_le. intuition lia. }
  unfold winDoc. eapply validSession_same_players; [|done|done|].
  - apply validSession_status; [done|]. simpl. intros E.
    apply (f_equal length) in E. rewrite !length_alter in E.
    apply nil_length_inv in E. by rewrite E in Hi.
  - simpl. intros E. apply (f_equal length) in E. rewrite !length_alter in E.
    apply nil_length_inv in E. by rewrite E in Hi.
Qed.

Lemma players_nonempty_lookup (ps : list Player) i p : ps !! i = Some p → ps ≠ [].
Proof. by intros ? ->. Qed.

Lemma handleCreateSession_effect' sock u sid now w :
  effect now (on_create_session sock u sid) w
         (handleCreateSession sock u sid now w).1.
Proof.
  unfold handleCreateSession.
  destruct (_ || _); [constructor|].
  assert (toLowerCase (trim sid) = lookupKey sid) as E
    by (unfold lookupKey; apply toLowerCase_trim).
  rewrite E.
  destruct (findBySessionId _ (store w)) as [s0|] eqn:Hf; [constructor|].
  destruct (save now _ w) as [w1|] eqn:Hs; [|constructor].
  apply save_Some in Hs as [Hv ->]. simpl.
  assert (lookupKey sid ∉ sessionId <$> store w) as Hfresh.
  { intros (x & Hx & Hin)%list_elem_of_fmap.
    eapply findBySessionId_None in Hf; [|done]. by rewrite lookupKey_idem in Hf. }
  rewrite storePut_fresh by done.
  by eapply effect_created.
Qed.

Lemma handleJoinSession_effect sock u sid now w :
  effect now (on_join_session sock u sid) w
         (handleJoinSession sock u sid now w).1.
Proof.
  unfold handleJoinSession.
  destruct (_ || _); [constructor|].
  rewrite (findBySessionId_same_key (toLowerCase (trim sid)) sid).
  2:{ assert (toLowerCase (trim sid) = lookupKey sid) as ->
        by (unfold lookupKey; apply toLowerCase_trim).
      apply lookupKey_idem. }
  destruct (findBySessionId sid (store w)) as [s0|] eqn:Hf; [|constructor].
  destruct (list_find _ (players s0)) as [[i p0]|] eqn:Hp.
  - destruct (assignGameMaster _ true) as [s2 notes] eqn:Ha.
    destruct (save now s2 w) as [w1|] eqn:Hs; [|constructor].
    apply save_Some in Hs as [Hv ->]. simpl.
    eapply (effect_joined _ _ _ sock u sid s0 s2); [done|done| |done].
    unfold joinDoc. rewrite Hp. by rewrite Ha.
  - case_bool_decide as Hst; [constructor|].
    destruct (assignGameMaster _ true) as [s2 notes] eqn:Ha.
    destruct (save now s2 w) as [w1|] eqn:Hs; [|constructor].
    apply save_Some in Hs as [Hv ->]. simpl.
    eapply (effect_joined _ _ _ sock u sid s0 s2); [done|done| |done].
    unfold joinDoc. rewrite Hp. rewrite bool_decide_false by done. by rewrite Ha.
Qed.

Lemma handleSetQuestion_effect sock sid q a now w :
  effect now (on_set_question sock sid q a) w
         (handleSetQuestion sock sid q a now w).1.
Proof.
  unfold handleSetQuestion.
  destruct (falsy (trim q)) eqn:Hq; [constructor|].
  destruct (falsy (trim a)) eqn:Hans; [constructor|]. simpl.
  destruct (findBySessionId sid (store w)) as [s0|] eqn:Hf; [|constructor].
  case_bool_decide as Hgm; simpl; [|constructor].
  case_bool_decide as Hst; simpl; [|constructor].
  destruct (save now _ w) as [w1|] eqn:Hs; [|constructor].
  apply save_Some in Hs as [Hv ->]. simpl.
  by eapply effect_asked.
Qed.

Lemma handleStartGame_effect sock sid now w :
  effect now (on_start_game sock sid) w (handleStartGame sock sid now w).1.
Proof.
  unfold handleStartGame.
  destruct (findBySessionId sid (store w)) as [s0|] eqn:Hf; [|constructor].
  case_bool_decide as Hgm; simpl; [|constructor].
  case_bool_decide as Hn; [constructor|].
  destruct (falsyOpt (currentQuestion s0)) eqn:Hq; [constructor|].
  destruct (falsyOpt (currentAnswer s0)) eqn:Hans; [constructor|]. simpl.
  case_bool_decide as Hst; [constructor|].
  destruct (save now _ w) as [w1|] eqn:Hs; [|constructor].
  apply save_Some in Hs as [Hv ->]. simpl.
  eapply effect_started; [done|done|done|done|lia|done|done].
Qed.

Lemma handleStartNextRound_effect sock sid now w :
  effect now (on_start_next_round sock sid) w
         (handleStartNextRound sock sid now w).1.
Proof.
  unfold handleStartNextRound.
  destruct (findBySessionId sid (store w)) as [s0|] eqn:Hf; [|constructor].
  case_bool_decide as Hgm; simpl; [|constructor].
  destruct (save now _ w) as [w1|] eqn:Hs; [|constructor].
  apply save_Some in Hs as [Hv ->]. simpl.
  by eapply effect_next.
Qed.

Lemma handleChatMessage_effect sock sid m w :
  effect 0 (on_chat_message sock sid m) w (handleChatMessage sock sid m w).1.
Proof. rewrite handleChatMessage_store. constructor. Qed.

Lemma handleSubmitGuess_effect sock sid guess now w :
  Forall (λ s, validSession s = true) (store w) →
  effect now (on_submit_guess sock sid guess) w
         (handleSubmitGuess sock sid guess now w).1.
Proof.
  intros Hval. unfold handleSubmitGuess.
  destruct (falsy _); [constructor|].
  destruct (findBySessionId sid (store w)) as [s0|] eqn:Hf; [|constructor].
  pose proof (findBySessionId_elem_of _ _ _ Hf) as [Hin Hkey].
  rewrite Forall_forall in Hval. pose proof (Hval _ Hin) as Hv.
  case_bool_decide as Hst; simpl; [|constructor].
  destruct (list_find _ (players s0)) as [[i p0]|] eqn:Hp; [|constructor].
  pose proof (proj1 (list_find_Some _ _ _ _) Hp) as (Hi & Hsock & _).
  case_bool_decide as Hgm; [constructor|].
  destruct (3 <=? attempts p0) eqn:Hlt; [constructor|].
  apply Z.leb_gt in Hlt.
  fold (guessDoc i s0). fold (winDoc i (username p0) s0).
  pose proof (validSession_guessDoc _ _ _ Hv Hi Hlt) as Hvg.
  pose proof (validSession_winDoc _ _ _ (username p0) Hv Hi Hlt) as Hvw.
  assert (players (guessDoc i s0) ≠ []) as Hne.
  { simpl. intros E. apply (f_equal length) in E. rewrite length_alter in E.
    apply nil_length_inv in E. by rewrite E in Hi. }
  case_bool_decide as Hcorrect.
  - rewrite save_put by done.
    destruct (rotateGameMaster sid now _) as [w3 rot] eqn:Hr. cbn [fst].
    assert (w3 = (rotateGameMaster sid now
                    (put (set_updatedAt now (winDoc i (username p0) s0))
                         (clearGameTimer sid w))).1) as -> by (by rewrite Hr).
    rewrite (rotateGameMaster_exact sid now _
               (set_updatedAt now (winDoc i (username p0) s0))).
    + rewrite stamp_rotateDoc, put_put, <- clearGameTimer_put.
      * eapply effect_won; [done|done|done|done|congruence|done|].
        by rewrite Hcorrect.
      * exact (proj1 (rotateDoc_frame now (winDoc i (username p0) s0))).
    + eapply findBySessionId_put; [by rewrite store_clearGameTimer|done].
    + done.
    + simpl. intros E. apply (f_equal length) in E. rewrite !length_alter in E.
      apply nil_length_inv in E. by rewrite E in Hi.
  - rewrite save_put by done.
    destruct (allPlayersExhausted (guessDoc i s0)) eqn:Hex.
    + rewrite save_put by (by apply validSession_status).
      destruct (rotateGameMaster sid now _) as [w4 rot] eqn:Hr. cbn [fst].
      rewrite put_put in Hr by done.
      assert (w4 = (rotateGameMaster sid now
                      (clearGameTimer sid
                         (put (set_updatedAt now (set_status ended (guessDoc i s0)))
                              w))).1) as -> by (by rewrite Hr).
      rewrite (rotateGameMaster_exact sid now _
                 (set_updatedAt now (set_status ended (guessDoc i s0)))).
      * rewrite stamp_rotateDoc, <- clearGameTimer_put, put_put.
        -- eapply effect_exhausted; [done|done|done|done|congruence|done| |done].
           intros E. apply Hcorrect. by rewrite E.
        -- exact (proj1 (rotateDoc_frame now (set_status ended (guessDoc i s0)))).
      * rewrite store_clearGameTimer. by eapply findBySessionId_put.
      * by apply validSession_status.
      * done.
    + simpl. eapply effect_guessed; [done|done|done|done|congruence|done| |done].
      intros E. apply Hcorrect. by rewrite E.
Qed.

Lemma fireTimeout_effect h now w :
  Forall (λ s, validSession s = true) (store w) →
  effect now (on_timeout h) w (fireTimeout h now w).1.
Proof.
  intros Hval. unfold fireTimeout.
  destruct (list_find _ (scheduled w)) as [[k [h' [sid d]]]|] eqn:Hh;
    [|constructor].
  pose proof (proj1 (list_find_Some _ _ _ _) Hh) as (_ & Eh & _).
  simpl in Eh. subst h'.
  unfold roundTimerCallback. simpl.
  destruct (findBySessionId sid (store w)) as [s0|] eqn:Hf.
  2:{ simpl. eapply effect_late; [done|done|]. intros s Hs. congruence. }
  pose proof (findBySessionId_elem_of _ _ _ Hf) as [Hin Hkey].
  rewrite Forall_forall in Hval. pose proof (Hval _ Hin) as Hv.
  case_bool_decide as Hst.
  2:{ simpl. eapply effect_late; [done|done|]. intros s Hs. congruence. }
  assert (players s0 ≠ []) as Hne
    by (apply validSession_nonempty; [done|by rewrite Hst]).
  rewrite save_put by (by apply validSession_status).
  destruct (rotateGameMaster sid now _) as [w2 rot] eqn:Hr. cbn [fst].
  assert (w2 = (rotateGameMaster sid now
                  (put (set_updatedAt now (set_status ended s0))
                       (clearTimeout h w))).1) as -> by (by rewrite Hr).
  rewrite (rotateGameMaster_exact sid now _
             (set_updatedAt now (set_status ended s0))).
  - rewrite stamp_rotateDoc, put_put.
    + by eapply effect_timeout.
    + exact (proj1 (rotateDoc_frame now (set_status ended s0))).
  - by eapply findBySessionId_put.
  - by apply validSession_status.
  - done.
Qed.

End HandlerEffects.

Section Leaving.
Implicit Types (s D x : Session) (st : list Session) (p : Player) (w : World).

Lemma findBySessionId_member st x :
  NoDup (sessionId <$> st) → x ∈ st →
  lookupKey (sessionId x) = sessionId x →
  findBySessionId (sessionId x) st = Some x.
Proof.
  intros Hnd Hin Hk.
  destruct (findBySessionId (sessionId x) st) as [y|] eqn:Hf.
  - apply findBySessionId_elem_of in Hf as [Hy Hky].
    f_equal. eapply store_unique; [done..|congruence].
  - eapply findBySessionId_None in Hf; [|done]. congruence.
Qed.

Lemma playsIn_find sock x :
  playsIn sock x = true
  ↔ is_Some (list_find (λ p, socketId p = sock) (players x)).
Proof.
  unfold playsIn. rewrite bool_decide_eq_true. split.
  - intros (p & Hp & Hs)%Exists_exists.
    destruct (list_find _ (players x)) as [r|] eqn:E; [by eexists|].
    apply list_find_None in E. rewrite Forall_forall in E. by apply E in Hp.
  - intros [[i p] (Hi & Hs & _)%list_find_Some]. apply Exists_exists.
    exists p. split; [by eapply list_elem_of_lookup_2|done].
Qed.

(** One iteration of the loop of [handleDisconnect], for a document that
    is the stored one. *)
Lemma disconnectFrom_exact sock now x w :
  NoDup (sessionId <$> store w) → x ∈ store w →
  validSession x = true → lookupKey (sessionId x) = sessionId x →
  ∃ out,
    disconnectFrom sock now x w
    = (if playsIn sock x then
         put (set_updatedAt now (leaveDoc sock now x))
             (if cutsRound sock x then clearGameTimer (sessionId x) w else w)
       else w, out, true).
Proof.
  intros Hnd Hin Hv Hkey. unfold disconnectFrom, leaveDoc, cutsRound.
  destruct (playsIn sock x) eqn:Hplays.
  2:{ destruct (list_find _ (players x)) as [r|] eqn:E; [|by eexists].
      assert (playsIn sock x = true) by (apply playsIn_find; by eexists).
      congruence. }
  destruct (proj1 (playsIn_find sock x) Hplays) as [[i p0] Hp].
  rewrite Hp. apply list_find_Some in Hp as (Hi & Hsock & _).
  set (session1 := updatePlayer i _ x).
  assert (validSession session1 = true) as Hv1.
  { eapply validSession_updatePlayer; [done|done|].
    apply validSession_players in Hv. rewrite Forall_lookup in Hv.
    exact (Hv _ _ Hi). }
  assert (players x ≠ []) as Hne by (by eapply players_nonempty_lookup).
  change (gameMasterId session1) with (gameMasterId x).
  simpl. case_bool_decide as Hgm; simpl.
  - destruct (assignGameMaster session1 true) as [sa assigned] eqn:Ha.
    pose proof (assignGameMaster_valid _ _ _ _ Ha Hv1) as Hva.
    apply assignGameMaster_frame in Ha as (Hk & Hps & Hst & _).
    simpl. change (status session1) with (status x) in Hst. rewrite Hst.
    assert (players sa ≠ []) as Hnea.
    { rewrite Hps. simpl. intros E. apply (f_equal length) in E.
      rewrite length_alter in E. by apply nil_length_inv in E. }
    case_bool_decide as Hprog.
    + destruct (rotateGameMaster _ now _) as [w1 rot] eqn:Hr.
      assert (w1 = (rotateGameMaster (sessionId sa) now
                      (clearGameTimer (sessionId sa) w)).1) as ->
        by (by rewrite Hr).
      rewrite Hk. change (sessionId session1) with (sessionId x).
      rewrite (rotateGameMaster_exact (sessionId x) now _ x);
        [|rewrite store_clearGameTimer; by apply findBySessionId_member
         |done|done].
      rewrite save_put by (by apply validSession_status).
      rewrite put_put.
      2:{ simpl. rewrite Hk. symmetry. exact (proj1 (rotateDoc_frame now x)). }
      by eexists.
    + rewrite save_put by done. by eexists.
  - rewrite save_put by done. by eexists.
Qed.

Lemma storePut_member st x D :
  x ∈ st → sessionId x ≠ sessionId D → x ∈ storePut D st.
Proof.
  induction st as [|y st IH]; simpl; [by intros ?%elem_of_nil|].
  intros [->|Hin]%elem_of_cons Hne.
  - rewrite decide_False by done. by left.
  - case_decide; [by right|]. right. by apply IH.
Qed.

Lemma leaveDoc_id sock now x : sessionId (leaveDoc sock now x) = sessionId x.
Proof.
  unfold leaveDoc. destruct (list_find _ (players x)) as [[i p0]|]; [|done].
  simpl. case_bool_decide; [|done].
  destruct (assignGameMaster _ true) as [sa assigned] eqn:Ha.
  apply assignGameMaster_frame in Ha as (Hk & _). simpl.
  by case_bool_decide.
Qed.

Lemma leaveDoc_valid sock now x :
  validSession x = true → validSession (leaveDoc sock now x) = true.
Proof.
  intros Hv. unfold leaveDoc.
  destruct (list_find _ (players x)) as [[i p0]|] eqn:Hp; [|done].
  apply list_find_Some in Hp as (Hi & Hsock & _).
  set (session1 := updatePlayer i _ x).
  assert (validSession session1 = true) as Hv1.
  { eapply validSession_updatePlayer; [done|done|].
    apply validSession_players in Hv. rewrite Forall_lookup in Hv.
    exact (Hv _ _ Hi). }
  simpl. case_bool_decide; [|done].
  destruct (assignGameMaster session1 true) as [sa assigned] eqn:Ha.
  pose proof (assignGameMaster_valid _ _ _ _ Ha Hv1) as Hva.
  apply assignGameMaster_frame in Ha as (Hk & Hps & Hst & _). simpl.
  case_bool_decide; [|done]. apply validSession_status; [done|].
  rewrite Hps. simpl. intros E. apply (f_equal length) in E.
  rewrite length_alter in E. apply nil_length_inv in E. by rewrite E in Hi.
Qed.

Lemma store_leaveStep sock now w x :
  store (leaveStep sock now w x)
  = storePut (set_updatedAt now (leaveDoc sock now x)) (store w).
Proof.
  unfold leaveStep. simpl. destruct (cutsRound sock x); [|done].
  by rewrite store_clearGameTimer.
Qed.

Lemma disconnectLoop_exact sock now xs : ∀ w,
  NoDup (sessionId <$> store w) → NoDup (sessionId <$> xs) →
  Forall (λ x, x ∈ store w ∧ validSession x = true
               ∧ lookupKey (sessionId x) = sessionId x
               ∧ playsIn sock x = true) xs →
  (disconnectLoop sock now xs w).1 = foldl (leaveStep sock now) w xs.
Proof.
  induction xs as [|x xs IH]; intros w Hnd Hxs Hall; [done|].
  apply Forall_cons in Hall as [(Hin & Hv & Hk & Hplays) Hall].
  csimpl in Hxs. apply NoDup_cons in Hxs as [Hx Hxs].
  simpl. destruct (disconnectFrom_exact sock now x w Hnd Hin Hv Hk) as [out ->].
  rewrite Hplays. fold (leaveStep sock now w x).
  destruct (disconnectLoop sock now xs (leaveStep sock now w x)) as [w2 out2] eqn:Hl.
  simpl. change w2 with (w2, out2).1. rewrite <- Hl.
  apply IH; [| done |].
  - rewrite store_leaveStep. by apply storePut_NoDup.
  - rewrite store_leaveStep. apply Forall_forall. intros y Hy.
    rewrite Forall_forall in Hall. destruct (Hall y Hy) as (Hyin & ? & ? & ?).
    split_and!; try done.
    apply storePut_member; [done|]. simpl. rewrite leaveDoc_id.
    intros E. apply Hx. rewrite <- E. apply list_elem_of_fmap. eauto.
Qed.

End Leaving.

Section LeaveAll.
Implicit Types (s D x : Session) (st : list Session) (p : Player) (w : World).

Lemma storePut_middle pre x rest D :
  Forall (λ y, sessionId y ≠ sessionId D) pre → sessionId x = sessionId D →
  storePut D (pre ++ x :: rest) = pre ++ D :: rest.
Proof.
  induction 1 as [|y pre Hy Hpre IH]; intros Hx; simpl.
  - by rewrite decide_True.
  - rewrite decide_False by done. by rewrite IH.
Qed.

Lemma foldl_storePut_filter (P : Session → Prop) `{∀ x, Decision (P x)}
    (g : Session → Session) pre rest :
  (∀ x, sessionId (g x) = sessionId x) →
  NoDup (sessionId <$> (pre ++ rest)) →
  foldl (λ acc x, storePut (g x) acc) (pre ++ rest) (filter P rest)
  = pre ++ ((λ x, if decide (P x) then g x else x) <$> rest).
Proof.
  intros Hg. revert pre. induction rest as [|x rest IH]; intros pre Hnd; [done|].
  rewrite filter_cons. csimpl.
  assert (pre ++ x :: rest = (pre ++ [x]) ++ rest) as Eapp
    by (by rewrite <- app_assoc).
  destruct (decide (P x)) as [HP|HP]; simpl.
  - rewrite storePut_middle; [| |by rewrite Hg].
    + assert (pre ++ g x :: rest = (pre ++ [g x]) ++ rest) as ->
        by (by rewrite <- app_assoc).
      rewrite IH; [by rewrite <- app_assoc|].
      rewrite Eapp in Hnd. rewrite !fmap_app in *. simpl in *. by rewrite Hg.
    + rewrite fmap_app in Hnd. apply NoDup_app in Hnd as (_ & Hdisj & _).
      apply Forall_forall. intros y Hy E. apply (Hdisj (sessionId y)).
      * apply list_elem_of_fmap. eauto.
      * rewrite E, Hg. csimpl. by left.
  - rewrite Eapp, IH; [by rewrite <- app_assoc|]. by rewrite <- Eapp.
Qed.

Lemma clearIfCut_set_store sock st w x :
  clearIfCut sock (set_store st w) x = set_store st (clearIfCut sock w x).
Proof.
  unfold clearIfCut. destruct (cutsRound sock x); [|done].
  apply clearGameTimer_set_store.
Qed.

Lemma foldl_clearIfCut_set_store sock st xs : ∀ w,
  foldl (clearIfCut sock) (set_store st w) xs
  = set_store st (foldl (clearIfCut sock) w xs).
Proof.
  induction xs as [|x xs IH]; intros w; [done|].
  simpl. by rewrite clearIfCut_set_store, IH.
Qed.

Lemma store_foldl_clearIfCut sock xs : ∀ w,
  store (foldl (clearIfCut sock) w xs) = store w.
Proof.
  induction xs as [|x xs IH]; intros w; [done|]. simpl. rewrite IH.
  unfold clearIfCut. destruct (cutsRound sock x); [|done].
  apply store_clearGameTimer.
Qed.

Lemma foldl_leaveStep sock now xs : ∀ w,
  foldl (leaveStep sock now) w xs
  = set_store
      (foldl (λ acc x, storePut (set_updatedAt now (leaveDoc sock now x)) acc)
             (store w) xs)
      (foldl (clearIfCut sock) w xs).
Proof.
  induction xs as [|x xs IH]; intros w; [by destruct w|].
  simpl. rewrite IH. rewrite store_leaveStep. unfold leaveStep, put.
  fold (clearIfCut sock w x). rewrite foldl_clearIfCut_set_store. done.
Qed.

Lemma foldl_clearIfCut_filter sock st : ∀ w,
  foldl (clearIfCut sock) w
        (filter (λ s, Exists (λ p, socketId p = sock) (players s)) st)
  = foldl (clearIfCut sock) w st.
Proof.
  induction st as [|x st IH]; intros w; [done|].
  rewrite filter_cons. destruct (decide _) as [HP|HP]; simpl; [apply IH|].
  rewrite IH. f_equal. unfold clearIfCut, cutsRound, playsIn.
  by rewrite (bool_decide_false _ HP).
Qed.

(** [handleDisconnect] on a store of valid documents with unique ids that
    are their own keys. *)
Lemma handleDisconnect_exact sock now w :
  NoDup (sessionId <$> store w) →
  Forall (λ x, validSession x = true) (store w) →
  Forall (λ x, lookupKey (sessionId x) = sessionId x) (store w) →
  (handleDisconnect sock now w).1 = leaveAll sock now w.
Proof.
  intros Hnd Hval Hkeys. unfold handleDisconnect.
  rewrite disconnectLoop_exact; [|done| |].
  - rewrite foldl_leaveStep, foldl_clearIfCut_filter.
    pose proof (foldl_storePut_filter
                  (λ s, Exists (λ p, socketId p = sock) (players s))
                  (λ x, set_updatedAt now (leaveDoc sock now x)) [] (store w))
      as Hst.
    simpl in Hst. rewrite Hst; [|intros x; apply leaveDoc_id|done].
    unfold leaveAll. fold (clearIfCut sock).
    unfold set_store. f_equal.
    + apply list_fmap_ext. intros i x _. unfold playsIn.
      by destruct (decide _) as [HP|HP];
        [rewrite bool_decide_true|rewrite bool_decide_false].
  - eapply sublist_NoDup; [done|]. apply fmap_sublist, sublist_filter.
  - apply Forall_forall. intros x [HP Hin]%list_elem_of_filter.
    rewrite Forall_forall in Hval, Hkeys. split_and!; auto.
    unfold playsIn. by rewrite bool_decide_true.
Qed.

End LeaveAll.

Section JoinDoc.
Implicit Types (s D : Session) (p : Player).

Lemma joinDoc_frame sock u now s D :
  joinDoc sock u now s = Some D →
  sessionId D = sessionId s ∧ status D = status s
  ∧ currentQuestion D = currentQuestion s ∧ currentAnswer D = currentAnswer s
  ∧ winner D = winner s
  ∧ ((∃ i p0, list_find (λ p, username p = u) (players s) = Some (i, p0)
              ∧ players D
                = alter (λ p, set_lastActivity now
                                (set_isConnected true (set_socketId sock p)))
                        i (players s))
     ∨ (list_find (λ p, username p = u) (players s) = None
        ∧ status s ≠ in_progress
        ∧ players D = players s ++ [mkPlayer sock u 0 0 true None now])).
Proof.
  unfold joinDoc. intros HD.
  destruct (list_find _ (players s)) as [[j p0]|] eqn:Hp.
  - injection HD as <-.
    destruct (assignGameMaster _ true) as [s2 ev] eqn:Ha.
    apply assignGameMaster_frame in Ha as (? & ? & ? & ? & ? & ? & _).
    simpl. split_and!; try done. left. eauto.
  - case_bool_decide; [done|]. injection HD as <-.
    destruct (assignGameMaster _ true) as [s2 ev] eqn:Ha.
    apply assignGameMaster_frame in Ha as (? & ? & ? & ? & ? & ? & _).
    simpl. split_and!; try done. by right.
Qed.

End JoinDoc.

Section OneStep.
Implicit Types (s D x : Session) (st : list Session) (p : Player) (w : World)
  (c : Command) (cl : list string).

Lemma run_effect cl now c w : Inv cl w → effect now c w (run now c w).1.
Proof.
  intros (Hnd & Hval & Htidy).
  destruct c as [sock u sid|sock u sid|sock sid q a|sock sid|sock sid g
                |sock sid m|sock sid|sock|h]; simpl.
  - apply handleCreateSession_effect'.
  - apply handleJoinSession_effect.
  - apply handleSetQuestion_effect.
  - apply handleStartGame_effect.
  - by apply handleSubmitGuess_effect.
  - rewrite handleChatMessage_store. constructor.
  - apply handleStartNextRound_effect.
  - rewrite handleDisconnect_exact; [by apply effect_left|done|done|].
    eapply Forall_impl; [done|]. by intros s (? & _).
  - by apply fireTimeout_effect.
Qed.

Lemma storePut_slots now c st sid s0 D :
  NoDup (sessionId <$> st) →
  findBySessionId sid st = Some s0 → sessionId D = sessionId s0 →
  docStep now c s0 D →
  ∀ i s, st !! i = Some s →
         ∃ s', storePut D st !! i = Some s' ∧ docStep now c s s'.
Proof.
  intros Hnd Hf Hk HD i s Hi.
  apply findBySessionId_Some in Hf as (i0 & Hi0 & _).
  rewrite (storePut_lookup D st i0 s0) by done.
  destruct (decide (i = i0)) as [->|Hne].
  - rewrite list_lookup_insert_eq by (by eapply lookup_lt_Some).
    simplify_eq. eauto.
  - rewrite list_lookup_insert_ne by done. exists s. split; [done|constructor].
Qed.

(** Every stored session evolves by [docStep]. *)
Lemma effect_docStep now c w w' :
  NoDup (sessionId <$> store w) → effect now c w w' →
  ∀ i s, store w !! i = Some s →
         ∃ s', store w' !! i = Some s' ∧ docStep now c s s'.
Proof.
  intros Hnd He i s Hi.
  assert (∀ sid s0 D, findBySessionId sid (store w) = Some s0 →
                      sessionId D = sessionId s0 → docStep now c s0 D →
                      ∃ s', storePut D (store w) !! i = Some s'
                            ∧ docStep now c s s') as Hput.
  { intros sid s0 D Hf Hk HD. by eapply storePut_slots. }
  assert (∀ sid s0, findBySessionId sid (store w) = Some s0 →
                    lookupKey sid = sessionId s0) as Hkey.
  { intros sid s0 Hf. by apply findBySessionId_elem_of in Hf as [_ ->]. }
  destruct He as [|sock u sid D Hc Hfresh HD Hv|sock u sid s0 D Hc Hf HD Hv
                 |sock sid q a s0 Hc Hf Hgm Hst Hq Hans|sock sid s0 Hc Hf Hgm Hst Hn Hq' Ha'
                 |sock sid g s0 j p0 Hc Hf Hst Hp Hgm Hlt Hw Hex
                 |sock sid g s0 j p0 Hc Hf Hst Hp Hgm Hlt Hw Hex
                 |sock sid g s0 j p0 Hc Hf Hst Hp Hgm Hlt Hw
                 |sock sid s0 Hc Hf Hgm|h k sid d Hc Hh Hno
                 |h k sid d s0 Hc Hh Hf Hst|sock Hc].
  - exists s. split; [done|constructor].
  - exists s. simpl. split; [by apply lookup_app_l_Some|constructor].
  - eapply Hput; [done| |eapply docStep_joined; eauto].
    simpl. by apply joinDoc_frame in HD as (-> & _).
  - eapply Hput; [done|done|eapply docStep_asked; eauto].
  - rewrite store_armGameTimer, store_clearGameTimer.
    eapply Hput; [done|done|eapply docStep_started; eauto].
  - eapply Hput; [done|done|eapply docStep_guessed; eauto].
  - rewrite store_clearGameTimer.
    eapply Hput; [done| |eapply docStep_exhausted; eauto].
    exact (proj1 (rotateDoc_frame now _)).
  - rewrite store_clearGameTimer.
    eapply Hput; [done| |eapply docStep_won; eauto].
    exact (proj1 (rotateDoc_frame now _)).
  - eapply Hput; [done|done|eapply docStep_next; eauto].
  - exists s. split; [done|constructor].
  - rewrite store_clearGameTimer.
    eapply Hput; [done| |eapply docStep_timeout; eauto].
    exact (proj1 (rotateDoc_frame now _)).
  - unfold leaveAll. simpl. rewrite list_lookup_fmap, Hi. simpl.
    destruct (playsIn sock s) eqn:Hplays.
    + eexists. split; [done|]. by eapply docStep_left.
    + eexists. split; [done|constructor].
Qed.

Lemma run_docStep cl now c w i s :
  Inv cl w → store w !! i = Some s →
  ∃ s', store (run now c w).1 !! i = Some s' ∧ docStep now c s s'.
Proof.
  intros HI Hi. eapply effect_docStep; [by destruct HI| |done].
  by eapply run_effect.
Qed.

Lemma effect_members now c w w' s' :
  effect now c w w' → s' ∈ store w' →
  (∃ s, s ∈ store w ∧ docStep now c s s')
  ∨ (∃ sock u sid,
       c = on_create_session sock u sid
       ∧ s' = mkSession (lookupKey sid) false
                [ mkPlayer sock (trim u) 0 0 true (Some now) now ]
                (Some sock) None None waiting None None now now).
Proof.
  intros He Hin.
  assert (∀ sid s0 D, findBySessionId sid (store w) = Some s0 →
                      docStep now c s0 D → s' ∈ storePut D (store w) →
                      ∃ s, s ∈ store w ∧ docStep now c s s') as Hput.
  { intros sid s0 D Hf HD [->|Hs]%storePut_elem_of.
    - apply findBySessionId_elem_of in Hf as [? _]. eauto.
    - exists s'. split; [done|constructor]. }
  assert (∀ sid s0, findBySessionId sid (store w) = Some s0 →
                    lookupKey sid = sessionId s0) as Hkey.
  { intros sid s0 Hf. by apply findBySessionId_elem_of in Hf as [_ ->]. }
  destruct He as [|sock u sid D Hc Hfresh HD Hv|sock u sid s0 D Hc Hf HD Hv
                 |sock sid q a s0 Hc Hf Hgm Hst Hq Hans|sock sid s0 Hc Hf Hgm Hst Hn Hq' Ha'
                 |sock sid g s0 j p0 Hc Hf Hst Hp Hgm Hlt Hw Hex
                 |sock sid g s0 j p0 Hc Hf Hst Hp Hgm Hlt Hw Hex
                 |sock sid g s0 j p0 Hc Hf Hst Hp Hgm Hlt Hw
                 |sock sid s0 Hc Hf Hgm|h k sid d Hc Hh Hno
                 |h k sid d s0 Hc Hh Hf Hst|sock Hc].
  - left. exists s'. split; [done|constructor].
  - simpl in Hin. apply elem_of_app in Hin as [Hin|Hin].
    + left. exists s'. split; [done|constructor].
    + apply list_elem_of_singleton in Hin. right. subst. eauto.
  - left. eapply (Hput sid s0); [exact Hf| |exact Hin]. eapply docStep_joined; eauto.
  - left. eapply (Hput sid s0); [exact Hf| |exact Hin]. eapply docStep_asked; eauto.
  - rewrite store_armGameTimer, store_clearGameTimer in Hin.
    left. eapply (Hput sid s0); [exact Hf| |exact Hin]. eapply docStep_started; eauto.
  - left. eapply (Hput sid s0); [exact Hf| |exact Hin]. eapply docStep_guessed; eauto.
  - rewrite store_clearGameTimer in Hin.
    left. eapply (Hput sid s0); [exact Hf| |exact Hin]. eapply docStep_exhausted; eauto.
  - rewrite store_clearGameTimer in Hin.
    left. eapply (Hput sid s0); [exact Hf| |exact Hin]. eapply docStep_won; eauto.
  - left. eapply (Hput sid s0); [exact Hf| |exact Hin]. eapply docStep_next; eauto.
  - left. exists s'. split; [done|constructor].
  - rewrite store_clearGameTimer in Hin.
    left. eapply (Hput sid s0); [exact Hf| |exact Hin]. eapply docStep_timeout; eauto.
  - left. unfold leaveAll in Hin. simpl in Hin.
    apply list_elem_of_fmap in Hin as (x & -> & Hx). exists x. split; [done|].
    destruct (playsIn sock x) eqn:Hplays; [|constructor].
    by eapply docStep_left.
Qed.

(** An induction principle: a property of sessions that the created
    session has and that [docStep] keeps holds of every stored session. *)
Lemma reachable_sessions (P : Session → Prop) :
  (∀ now sock u sid,
     P (mkSession (lookupKey sid) false
                  [ mkPlayer sock (trim u) 0 0 true (Some now) now ]
                  (Some sock) None None waiting None None now now)) →
  (∀ now c s s', validSession s = true → P s → docStep now c s s' → P s') →
  ∀ cl w, reachable cl w → Forall P (store w).
Proof.
  intros Hnew Hstep cl w Hr.
  induction Hr as [|cl w now c Hr IH Hen]; [constructor|].
  pose proof (reachable_Inv _ _ Hr) as HI.
  apply Forall_forall. intros s' Hin.
  destruct (effect_members now c w _ s' (run_effect cl now c w HI) Hin)
    as [(s & Hs & HD)|(sock & u & sid & _ & ->)]; [|apply Hnew].
  rewrite Forall_forall in IH. destruct HI as (_ & Hval & _).
  rewrite Forall_forall in Hval. eapply Hstep; eauto.
Qed.

End OneStep.

Section Frames.
Implicit Types (s D x : Session) (st : list Session) (p : Player) (w : World)
  (c : Command) (cl : list string).

Lemma assignGameMaster_createdAt s notify :
  createdAt (assignGameMaster s notify).1 = createdAt s.
Proof. unfold assignGameMaster. by repeat case_match. Qed.

Lemma joinDoc_createdAt sock u now s D :
  joinDoc sock u now s = Some D → createdAt D = createdAt s.
Proof.
  unfold joinDoc. repeat case_match; intros; simplify_eq;
    by rewrite assignGameMaster_createdAt.
Qed.

Lemma leaveDoc_frame sock now x :
  sessionId (leaveDoc sock now x) = sessionId x
  ∧ currentQuestion (leaveDoc sock now x) = currentQuestion x
  ∧ currentAnswer (leaveDoc sock now x) = currentAnswer x
  ∧ winner (leaveDoc sock now x) = winner x
  ∧ createdAt (leaveDoc sock now x) = createdAt x
  ∧ status (leaveDoc sock now x)
    = (if cutsRound sock x then ended else status x)
  ∧ players (leaveDoc sock now x)
    = match list_find (λ p, socketId p = sock) (players x) with
      | Some (i, _) =>
          alter (λ p, set_lastActivity now (set_isConnected false p)) i
                (players x)
      | None => players x
      end.
Proof.
  unfold leaveDoc, cutsRound.
  destruct (list_find _ (players x)) as [[i p0]|] eqn:Hp.
  2:{ split_and!; try done.
      destruct (playsIn sock x) eqn:E; [|done].
      apply playsIn_find in E as [? E]. congruence. }
  assert (playsIn sock x = true) as -> by (apply playsIn_find; by eexists).
  simpl. case_bool_decide as Hgm; simpl; [|done].
  pose proof (assignGameMaster_createdAt
                (updatePlayer i (λ p, set_lastActivity now (set_isConnected false p)) x)
                true) as Hc.
  destruct (assignGameMaster _ true) as [sa assigned] eqn:Ha.
  apply assignGameMaster_frame in Ha as (? & ? & Hst & ? & ? & ? & _).
  simpl in *. rewrite Hst.
  case_bool_decide; simpl; split_and!; try done; congruence.
Qed.

End Frames.

Section Steps.
Implicit Types (s D x : Session) (st : list Session) (p : Player) (w : World)
  (c : Command) (cl : list string).

Local Arguments leaveDoc : simpl never.
Local Arguments rotateDoc : simpl never.

Lemma rotateDoc_status_ended now s :
  status s = ended → status (rotateDoc now s) = ended.
Proof.
  intros Hst. destruct (rotateDoc_frame now s) as (_ & _ & _ & _ & _ & [E|E] & _);
    congruence.
Qed.

Lemma docStep_statusStep now c s s' : docStep now c s s' → statusStep c s s'.
Proof.
  intros [|sock u sid D Hc Hk HD Hv|sock sid q a Hc Hk Hgm Hst Hq Hans
         |sock sid Hc Hk Hgm Hst Hn Hq' Ha'
         |sock sid g j p0 Hc Hk Hst Hp Hgm Hlt Hw Hex
         |sock sid g j p0 Hc Hk Hst Hp Hgm Hlt Hw Hex
         |sock sid g j p0 Hc Hk Hst Hp Hgm Hlt Hw
         |sock sid Hc Hk Hgm|h Hc Hst|sock Hc Hplays].
  - by left.
  - left. simpl. by apply joinDoc_frame in HD as (_ & -> & _).
  - by left.
  - right. left. split_and!; [done|done|done|done|done|eauto].
  - by left.
  - right. right. right. split_and!; [done| |left; eauto 10].
    simpl. by apply rotateDoc_status_ended.
  - right. right. right. split_and!; [done| |left; eauto 10].
    simpl. by apply rotateDoc_status_ended.
  - right. right. left. split; [done|eauto].
  - right. right. right. split_and!; [done| |right; left; eauto].
    simpl. by apply rotateDoc_status_ended.
  - destruct (leaveDoc_frame sock now s) as (_ & _ & _ & _ & _ & Hst & _).
    unfold statusStep. simpl. rewrite Hst.
    destruct (cutsRound sock s) eqn:Hcut; [|by left].
    unfold cutsRound in Hcut. rewrite !andb_true_iff in Hcut.
    destruct Hcut as [[_ Hgm%bool_decide_eq_true] Hprog%bool_decide_eq_true].
    right. right. right. split_and!; [done|done|]. right. right. eauto.
Qed.

Lemma docStep_questionStep now c s s' : docStep now c s s' → questionStep c s s'.
Proof.
  intros [|sock u sid D Hc Hk HD Hv|sock sid q a Hc Hk Hgm Hst Hq Hans
         |sock sid Hc Hk Hgm Hst Hn Hq' Ha'
         |sock sid g j p0 Hc Hk Hst Hp Hgm Hlt Hw Hex
         |sock sid g j p0 Hc Hk Hst Hp Hgm Hlt Hw Hex
         |sock sid g j p0 Hc Hk Hst Hp Hgm Hlt Hw
         |sock sid Hc Hk Hgm|h Hc Hst|sock Hc Hplays].
  - by left.
  - left. simpl. by apply joinDoc_frame in HD as (_ & _ & -> & -> & _).
  - right. left. exists sock, sid, q, a. by split_and!.
  - by left.
  - by left.
  - left. simpl.
    by destruct (rotateDoc_frame now (set_status ended (guessDoc j s)))
      as (_ & -> & -> & _).
  - left. simpl.
    by destruct (rotateDoc_frame now (winDoc j (username p0) s))
      as (_ & -> & -> & _).
  - right. right. exists sock, sid. by split_and!.
  - left. simpl.
    by destruct (rotateDoc_frame now (set_status ended s)) as (_ & -> & -> & _).
  - left. simpl.
    by destruct (leaveDoc_frame sock now s) as (_ & -> & -> & _).
Qed.

Lemma sameScores_refl ps : sameScores ps ps.
Proof. done. Qed.

Lemma sameScores_trans ps1 ps2 ps3 :
  sameScores ps1 ps2 → sameScores ps2 ps3 → sameScores ps1 ps3.
Proof. intros [? ?] [? ?]. split; congruence. Qed.

Lemma sameScores_alter (f : Player → Player) i ps :
  (∀ p, username (f p) = username p) → (∀ p, score (f p) = score p) →
  sameScores ps (alter f i ps).
Proof. intros. split; by apply fmap_alter_same. Qed.

Lemma sameScores_fmap (f : Player → Player) ps :
  (∀ p, username (f p) = username p) → (∀ p, score (f p) = score p) →
  sameScores ps (f <$> ps).
Proof. intros. split; by apply fmap_fmap_same. Qed.

Lemma sameScores_rotateDoc now s :
  sameScores (players s) (players (rotateDoc now s)).
Proof.
  destruct (rotateDoc_frame now s) as (_ & _ & _ & _ & _ & _ & [->|[i ->]]);
    [done|]. by apply sameScores_alter.
Qed.




Lemma docStep_keptStep now c s s' : docStep now c s s' → keptStep s s'.
Proof.
  assert (∀ D, sessionId D = sessionId s → createdAt D = createdAt s →
               sameScores (players s) (players D) →
               keptStep s (set_updatedAt now D)) as Hsame.
  { intros D ? ? [Hn _]. split_and!; [done|done|by left]. }
  intros [|sock u sid D Hc Hk HD Hv|sock sid q a Hc Hk Hgm Hst Hq Hans
         |sock sid Hc Hk Hgm Hst Hn Hq' Ha'
         |sock sid g j p0 Hc Hk Hst Hp Hgm Hlt Hw Hex
         |sock sid g j p0 Hc Hk Hst Hp Hgm Hlt Hw Hex
         |sock sid g j p0 Hc Hk Hst Hp Hgm Hlt Hw
         |sock sid Hc Hk Hgm|h Hc Hst|sock Hc Hplays].
  - split_and!; [done|done|by left].
  - pose proof (joinDoc_createdAt _ _ _ _ _ HD) as Hcr.
    apply joinDoc_frame in HD
      as (Hid & _ & _ & _ & _ & [(i & p0 & _ & Hps)|(Hnone & _ & Hps)]).
    + apply Hsame; [done|done|]. rewrite Hps. by apply sameScores_alter.
    + split_and!; [done|done|]. right. exists (trim u). simpl.
      rewrite Hps, fmap_app. split; [|done].
      apply list_find_None in Hnone. rewrite Forall_forall in Hnone.
      intros (q & Hq' & Hin)%list_elem_of_fmap. by eapply Hnone.
  - by apply Hsame.
  - apply Hsame; [done|done|]. simpl. by apply sameScores_fmap.
  - apply Hsame; [done|done|]. simpl. by apply sameScores_alter.
  - destruct (rotateDoc_frame now (set_status ended (guessDoc j s)))
      as (? & _ & _ & _ & ? & _).
    apply Hsame; [done|done|].
    eapply sameScores_trans; [|apply sameScores_rotateDoc].
    simpl. by apply sameScores_alter.
  - destruct (rotateDoc_frame now (winDoc j (username p0) s))
      as (? & _ & _ & _ & ? & _).
    split_and!; [done|done|]. left.
    transitivity (username <$> players (winDoc j (username p0) s)).
    + exact (proj1 (sameScores_rotateDoc now (winDoc j (username p0) s))).
    + simpl. by rewrite !fmap_alter_same.
  - apply Hsame; [done|done|]. simpl. by apply sameScores_fmap.
  - destruct (rotateDoc_frame now (set_status ended s))
      as (? & _ & _ & _ & ? & _).
    apply Hsame; [done|done|].
    exact (sameScores_rotateDoc now (set_status ended s)).
  - destruct (leaveDoc_frame sock now s) as (? & _ & _ & _ & ? & _ & Hps).
    apply Hsame; [done|done|]. rewrite Hps.
    destruct (list_find _ (players s)) as [[i p0]|]; [|done].
    by apply sameScores_alter.
Qed.

Lemma docStep_winnerStep now c s s' : docStep now c s s' → winnerStep c s s'.
Proof.
  intros [|sock u sid D Hc Hk HD Hv|sock sid q a Hc Hk Hgm Hst Hq Hans
         |sock sid Hc Hk Hgm Hst Hn Hq' Ha'
         |sock sid g j p0 Hc Hk Hst Hp Hgm Hlt Hw Hex
         |sock sid g j p0 Hc Hk Hst Hp Hgm Hlt Hw Hex
         |sock sid g j p0 Hc Hk Hst Hp Hgm Hlt Hw
         |sock sid Hc Hk Hgm|h Hc Hst|sock Hc Hplays].
  - left. auto.
  - left. simpl. apply joinDoc_frame in HD as (_ & -> & _ & _ & -> & _). auto.
  - left. auto.
  - right. left. done.
  - left. auto.
  - left. simpl.
    destruct (rotateDoc_frame now (set_status ended (guessDoc j s)))
      as (_ & _ & _ & -> & _).
    split; [done|]. right. split; [done|]. by apply rotateDoc_status_ended.
  - right. right. apply list_find_Some in Hp as (Hi & _). exists p0.
    split_and!; [by eapply list_elem_of_lookup_2| |].
    + simpl. by destruct (rotateDoc_frame now (winDoc j (username p0) s))
        as (_ & _ & _ & -> & _).
    + simpl. by apply rotateDoc_status_ended.
  - right. left. done.
  - left. simpl.
    destruct (rotateDoc_frame now (set_status ended s)) as (_ & _ & _ & -> & _).
    split; [done|]. right. split; [done|]. by apply rotateDoc_status_ended.
  - left. unfold winnerStep. simpl.
    destruct (leaveDoc_frame sock now s) as (_ & _ & _ & -> & _ & -> & _).
    split; [done|]. destruct (cutsRound sock s) eqn:Hcut; [|by left].
    unfold cutsRound in Hcut. rewrite !andb_true_iff in Hcut.
    destruct Hcut as [_ Hprog%bool_decide_eq_true]. by right.
Qed.

Lemma falsy_toLowerCase (a : string) : falsy (toLowerCase a) = falsy a.
Proof. by destruct a. Qed.

Lemma docStep_wellKept now c s s' :
  wellKept s → docStep now c s s' → wellKept s'.
Proof.
  intros (Ha & Hq & Hprog & Hwin) HD.
  pose proof (docStep_statusStep _ _ _ _ HD) as Hst.
  pose proof (docStep_questionStep _ _ _ _ HD) as Hqs.
  pose proof (docStep_winnerStep _ _ _ _ HD) as Hws.
  pose proof (docStep_keptStep _ _ _ _ HD) as (_ & _ & Hnames).
  assert ((∀ a, currentAnswer s' = Some a →
                falsy a = false ∧ toLowerCase (trim a) = a)
          ∧ (∀ q, currentQuestion s' = Some q → falsy q = false ∧ trim q = q))
    as [Ha' Hq'].
  { destruct Hqs as [[-> ->]|[(sock & sid & q & a & _ & _ & _ & _ & Hfq & Hfa
                               & -> & ->)
                             |(sock & sid & _ & _ & _ & _ & -> & ->)]];
      [done| |done].
    split.
    - intros a' [= <-]. split; [by rewrite falsy_toLowerCase|].
      rewrite toLowerCase_trim, toLowerCase_idem, <- toLowerCase_trim.
      by rewrite trim_idem.
    - intros q' [= <-]. split; [done|apply trim_idem]. }
  split_and!; [done|done| |].
  - intros Hp'.
    assert (status s = in_progress
            ∨ (falsyOpt (currentQuestion s) = false
               ∧ falsyOpt (currentAnswer s) = false)) as Hfrom.
    { destruct Hst as [E|[(_ & _ & Hfq & Hfa & _)|[(E & _)|(_ & E & _)]]];
        [left; congruence|by right|congruence..]. }
    destruct Hqs as [[-> ->]|[(sock & sid & q & a & Hc & _ & _ & Hw & _)
                             |(sock & sid & _ & _ & _ & Hw & _)]].
    + destruct Hfrom as [E|[Hfq Hfa]]; [by apply Hprog|].
      split.
      * by destruct (currentQuestion s).
      * by destruct (currentAnswer s).
    + destruct Hst as [E|[(_ & _ & _ & _ & _ & sk & sd & Hc' & _)
                         |[(E & _)|(E & _)]]]; congruence.
    + congruence.
  - intros u Hu.
    destruct Hws as [[E Hs]|[[E _]|(p & Hp & E & Hs)]]; [| congruence |].
    + rewrite E in Hu. destruct (Hwin u Hu) as [Hended Hin].
      split.
      * destruct Hs as [->|[? _]]; congruence.
      * destruct Hnames as [->|(v & _ & ->)]; [done|].
        apply elem_of_app. by left.
    + split; [done|]. rewrite E in Hu. injection Hu as <-.
      assert (username p ∈ username <$> players s) as Hin
        by (apply list_elem_of_fmap; eauto).
      destruct Hnames as [->|(v & _ & ->)]; [done|].
      apply elem_of_app. by left.
Qed.

End Steps.

(** * Every step, every session *)







(** X18.  In every reachable state, of every stored session: a stored
    answer is not blank and is trimmed and in lower case, so that it is
    what a guess is compared with after the same normalisation; a stored
    question is not blank and is trimmed; a session in progress has a
    question and an answer; and a session has a winner only when it is
    [ended], the winner being the user name of one of its players. *)
Theorem stored_sessions_well_kept cl w s :
  reachable cl w → s ∈ store w → wellKept s.
Proof.
  intros Hr Hs.
  assert (Forall wellKept (store w)) as H.
  { eapply reachable_sessions; [| |done].
    - intros now sock u sid. by split_and!.
    - intros now c s0 s' _. apply docStep_wellKept. }
  rewrite Forall_forall in H. by apply H.
Qed.

Lemma stored_sessions_well_kept_witness : wellKept Scenario.wonSession.
Proof.
  apply (stored_sessions_well_kept [] Scenario.wonWorld Scenario.wonSession
           wonWorld_reachable).
  vm_compute. by left.
Defined.

Section Lengths.
Implicit Types (s D x : Session) (st : list Session) (w : World) (c : Command).

Lemma storePut_length sid st s0 D :
  findBySessionId sid st = Some s0 → sessionId D = sessionId s0 →
  length (storePut D st) = length st.
Proof.
  intros Hf Hk. apply findBySessionId_elem_of in Hf as [Hin _].
  assert (sessionId <$> storePut D st = sessionId <$> st) as E.
  { apply storePut_ids. rewrite Hk. apply list_elem_of_fmap. eauto. }
  apply (f_equal length) in E. by rewrite !length_fmap in E.
Qed.

Lemma effect_length now c w w' :
  effect now c w w' →
  length (store w') = length (store w)
  ∨ (length (store w') = S (length (store w))
     ∧ ∃ sock u sid, c = on_create_session sock u sid
                     ∧ lookupKey sid ∉ (sessionId <$> store w)).
Proof.
  intros [|sock u sid D Hc Hfresh HD Hv|sock u sid s0 D Hc Hf HD Hv
         |sock sid q a s0 Hc Hf Hgm Hst Hq Hans|sock sid s0 Hc Hf Hgm Hst Hn Hq' Ha'
         |sock sid g s0 j p0 Hc Hf Hst Hp Hgm Hlt Hw Hex
         |sock sid g s0 j p0 Hc Hf Hst Hp Hgm Hlt Hw Hex
         |sock sid g s0 j p0 Hc Hf Hst Hp Hgm Hlt Hw
         |sock sid s0 Hc Hf Hgm|h k sid d Hc Hh Hno
         |h k sid d s0 Hc Hh Hf Hst|sock Hc];
    rewrite ?store_armGameTimer, ?store_clearGameTimer;
    try (left; done).
  - right. simpl. rewrite length_app. simpl. split; [lia|eauto].
  - left. simpl. eapply storePut_length; [done|].
    simpl. by apply joinDoc_frame in HD as (-> & _).
  - left. simpl. by eapply storePut_length.
  - left. simpl. by eapply storePut_length.
  - left. simpl. by eapply storePut_length.
  - left. simpl. eapply storePut_length; [done|].
    exact (proj1 (rotateDoc_frame now _)).
  - left. simpl. eapply storePut_length; [done|].
    exact (proj1 (rotateDoc_frame now _)).
  - left. simpl. by eapply storePut_length.
  - left. simpl. eapply storePut_length; [done|].
    exact (proj1 (rotateDoc_frame now _)).
  - left. unfold leaveAll. simpl. by rewrite length_fmap.
Qed.

End Lengths.

(** X19.  Nothing is ever deleted or renamed by an event.  The stored
    sessions keep their positions; a step adds at most one session, at the
    end, and only [create_session] for an id whose key no stored session
    has adds one; a session keeps its id and its creation time; its players
    keep their positions and their user names, and a step adds at most one
    player, at the end, under a user name that the session does not have
    yet. *)
Theorem sessions_and_players_stay cl w now c :
  reachable cl w →
  let w' := (run now c w).1 in
  (length (store w') = length (store w)
   ∨ (length (store w') = S (length (store w))
      ∧ ∃ sock u sid, c = on_create_session sock u sid
                      ∧ lookupKey sid ∉ (sessionId <$> store w)))
  ∧ ∀ i s, store w !! i = Some s →
           ∃ s', store w' !! i = Some s' ∧ keptStep s s'.
Proof.
  intros Hr w'. pose proof (reachable_Inv _ _ Hr) as HI. split.
  - eapply effect_length. by eapply run_effect.
  - intros i s Hi.
    destruct (run_docStep cl now c w i s HI Hi) as (s' & Hi' & HD).
    exists s'. split; [done|]. by eapply docStep_keptStep.
Qed.

Lemma sessions_and_players_stay_witness :
  ∃ s', store (run 9 (on_join_session "s3" "carol" "abc12")
                   Scenario.lobbyWorld).1 !! 0%nat = Some s'
        ∧ keptStep Scenario.lobbySession s'.
Proof.
  exact (proj2 (sessions_and_players_stay [] Scenario.lobbyWorld 9
                  (on_join_session "s3" "carol" "abc12") lobbyWorld_reachable)
               0%nat Scenario.lobbySession eq_refl).
Defined.

(** X20.  [disconnect] of a socket, in a reachable state.  A session in
    which no player has the socket is unchanged.  In any other session the
    first player with that socket is flagged as disconnected and gets the
    time of the event as [lastActivity]; every player keeps socket id, user
    name, score and attempts, and the other players keep their connection
    flag; the session is [ended] if it was in progress with that socket as
    game master and keeps its status otherwise; question, answer and
    winner stay.  No session is added or removed. *)
Theorem disconnect_effect cl w now sock i s :
  reachable cl w → store w !! i = Some s →
  let w' := (run now (on_disconnect sock) w).1 in
  length (store w') = length (store w)
  ∧ ∃ s', store w' !! i = Some s'
     ∧ match list_find (λ p, socketId p = sock) (players s) with
       | None => s' = s
       | Some (j, p0) =>
           (socketId <$> players s') = (socketId <$> players s)
           ∧ (username <$> players s') = (username <$> players s)
           ∧ (score <$> players s') = (score <$> players s)
           ∧ (attempts <$> players s') = (attempts <$> players s)
           ∧ (isConnected <$> players s')
             = <[j := false]> (isConnected <$> players s)
           ∧ (lastActivity <$> players s') !! j = Some now
           ∧ status s'
             = (if bool_decide (gameMasterId s = Some sock
                                ∧ status s = in_progress)
                then ended else status s)
           ∧ currentQuestion s' = currentQuestion s
           ∧ currentAnswer s' = currentAnswer s
           ∧ winner s' = winner s ∧ updatedAt s' = now
       end.
Proof.
  intros Hr Hi w'. pose proof (reachable_Inv _ _ Hr) as (Hnd & Hval & Htidy).
  subst w'. simpl. rewrite handleDisconnect_exact; [|done|done|].
  2:{ eapply Forall_impl; [done|]. by intros x (? & _). }
  unfold leaveAll. simpl. rewrite length_fmap. split; [done|].
  rewrite list_lookup_fmap, Hi. simpl. eexists. split; [done|].
  destruct (list_find _ (players s)) as [[j p0]|] eqn:Hp.
  - assert (playsIn sock s = true) as Hplays
      by (apply playsIn_find; by eexists).
    rewrite Hplays.
    destruct (leaveDoc_frame sock now s) as (_ & Hq & Ha & Hw & _ & Hst & Hps).
    rewrite Hp in Hps. apply list_find_Some in Hp as (Hj & _).
    simpl. rewrite Hps, Hq, Ha, Hw, Hst.
    split_and!; try done; try (by apply fmap_alter_same).
    + apply list_eq. intros k. rewrite list_lookup_fmap.
      destruct (decide (k = j)) as [->|Hne].
      * rewrite list_lookup_alter_eq, Hj, list_lookup_insert_eq; [done|].
        rewrite length_fmap. by eapply lookup_lt_Some.
      * rewrite list_lookup_alter_ne, list_lookup_insert_ne by done.
        by rewrite list_lookup_fmap.
    + by rewrite list_lookup_fmap, list_lookup_alter_eq, Hj.
    + unfold cutsRound. rewrite Hplays. simpl.
      destruct (decide (gameMasterId s = Some sock)) as [E1|E1],
               (decide (status s = in_progress)) as [E2|E2].
      * by rewrite !bool_decide_true by done.
      * rewrite (bool_decide_false (status s = in_progress)) by done.
        rewrite andb_false_r. rewrite bool_decide_false; [done|tauto].
      * rewrite (bool_decide_false (gameMasterId s = Some sock)) by done.
        simpl. rewrite bool_decide_false; [done|tauto].
      * rewrite (bool_decide_false (gameMasterId s = Some sock)) by done.
        simpl. rewrite bool_decide_false; [done|tauto].
  - destruct (playsIn sock s) eqn:Hplays; [|done].
    apply playsIn_find in Hplays as [? ?]. congruence.
Qed.

Lemma disconnect_effect_witness :
  ∃ s', store (run 9 (on_disconnect "s1") Scenario.playingWorld).1 !! 0%nat
        = Some s'
        ∧ status s' = ended ∧ (isConnected <$> players s') = [false; true].
Proof.
  destruct (disconnect_effect [] Scenario.playingWorld 9 "s1" 0%nat
              Scenario.playingSession playingWorld_reachable eq_refl)
    as (_ & s' & H1 & H2).
  exists s'. split; [exact H1|].
  change (list_find (λ p, socketId p = "s1") (players Scenario.playingSession))
    with (Some (0%nat, mkPlayer "s1" "alice" 0 0 true (Some 1) 1)) in H2.
  destruct H2 as (_ & _ & _ & _ & Hc & _ & Hst & _).
  split; [exact Hst|exact Hc].
Defined.

(** ** The timers *)

Section Maps.
Context {V : Type}.
Implicit Types (m : list (string * V)) (k : string) (v : V).

Lemma mapGet_nil k : mapGet (V:=V) k [] = None.
Proof. done. Qed.

Lemma mapGet_cons k k' v m :
  mapGet k ((k', v) :: m) = if decide (k' = k) then Some v else mapGet k m.
Proof.
  unfold mapGet. csimpl. case_decide; [done|].
  by destruct (list_find _ m) as [[??]|].
Qed.

Lemma mapGet_Some_elem_of k v m : mapGet k m = Some v → (k, v) ∈ m.
Proof.
  induction m as [|[k' v'] m IH]; [done|]. rewrite mapGet_cons.
  case_decide; [intros [= <-]; subst; by left|]. intros ?. right. auto.
Qed.

Lemma mapGet_None_keys k m : mapGet k m = None ↔ k ∉ (fst <$> m).
Proof.
  induction m as [|[k' v'] m IH]; [split; [intros _ ?%elem_of_nil; done|done]|].
  rewrite mapGet_cons. csimpl. rewrite not_elem_of_cons.
  case_decide; [split; [done|intros [? _]; congruence]|].
  rewrite IH. split; [intros ?; split; [congruence|done]|by intros [_ ?]].
Qed.

Lemma mapGet_elem_of k v m : NoDup (fst <$> m) → (k, v) ∈ m → mapGet k m = Some v.
Proof.
  induction m as [|[k' v'] m IH]; [by intros _ ?%elem_of_nil|].
  csimpl. intros [Hk Hnd]%NoDup_cons Hin. rewrite mapGet_cons.
  apply elem_of_cons in Hin as [[= <- <-]|Hin]; [by rewrite decide_True|].
  rewrite decide_False; [by apply IH|]. intros ->. apply Hk.
  apply list_elem_of_fmap. by exists (k, v).
Qed.

Lemma mapGet_mapDelete_ne k k' m :
  k' ≠ k → mapGet k' (mapDelete k m) = mapGet k' m.
Proof.
  intros Hne. unfold mapDelete. induction m as [|[k0 v0] m IH]; [done|].
  rewrite filter_cons. simpl. case_decide as E.
  - rewrite !mapGet_cons. by rewrite IH.
  - rewrite mapGet_cons. simpl in E.
    assert (k0 = k) as -> by (by destruct (decide (k0 = k))).
    by rewrite decide_False.
Qed.

Lemma mapSet_None k v m : mapGet k m = None → mapSet k v m = m ++ [(k, v)].
Proof.
  unfold mapGet, mapSet. by destruct (list_find _ m) as [[? [??]]|].
Qed.

Lemma mapGet_app_l k v m m' :
  mapGet k m = Some v → mapGet k (m ++ m') = Some v.
Proof.
  induction m as [|[k0 v0] m IH]; [done|]. csimpl. rewrite !mapGet_cons.
  by case_decide.
Qed.

Lemma mapGet_app_r k m m' :
  mapGet k m = None → mapGet k (m ++ m') = mapGet k m'.
Proof.
  induction m as [|[k0 v0] m IH]; [done|]. csimpl. rewrite !mapGet_cons.
  by case_decide.
Qed.

End Maps.

Section TimerSteps.
Implicit Types (s D x : Session) (st : list Session) (w : World)
  (c : Command) (cl : list string) (e : nat * (string * Z)).

Lemma timersKept_set_store st w : timersKept (set_store st w) ↔ timersKept w.
Proof. done. Qed.

Lemma timersKept_put D w : timersKept (put D w) ↔ timersKept w.
Proof. done. Qed.

(** Two ids with the same handle are the same id. *)
Lemma timersKept_same_handle w k1 k2 h :
  timersKept w → mapGet k1 (activeTimers w) = Some h →
  mapGet k2 (activeTimers w) = Some h → k1 = k2.
Proof.
  intros (_ & Hh & _) H1%mapGet_Some_elem_of H2%mapGet_Some_elem_of.
  apply list_elem_of_lookup in H1 as [i Hi], H2 as [j Hj].
  assert (i = j) as ->.
  { eapply NoDup_lookup; [exact Hh| |].
    - by rewrite list_lookup_fmap, Hi.
    - by rewrite list_lookup_fmap, Hj. }
  congruence.
Qed.

Lemma NoDup_fmap_filter {A B} (f : A → B) (P : A → Prop)
    `{∀ a, Decision (P a)} (l : list A) :
  NoDup (f <$> l) → NoDup (f <$> filter P l).
Proof.
  intros Hnd. eapply sublist_NoDup; [done|]. apply fmap_sublist, sublist_filter.
Qed.

Lemma Forall_filter_keep {A} (Q : A → Prop) (P : A → Prop)
    `{∀ a, Decision (P a)} (l : list A) :
  Forall Q l → Forall Q (filter P l).
Proof.
  rewrite !Forall_forall. intros HQ a [_ Ha]%list_elem_of_filter. auto.
Qed.

Lemma timersKept_clearTimeout h w : timersKept w → timersKept (clearTimeout h w).
Proof.
  intros (Hk & Hh & Hs & Ha & He). unfold timersKept, clearTimeout. simpl.
  split_and!; [done|done|by apply NoDup_fmap_filter|done|].
  by apply Forall_filter_keep.
Qed.

Lemma timersKept_clearGameTimer k w :
  timersKept w → timersKept (clearGameTimer k w).
Proof.
  intros HK. pose proof HK as (Hk & Hh & Hs & Ha & He).
  unfold clearGameTimer. destruct (mapGet k (activeTimers w)) as [h|] eqn:Hg;
    [|done].
  unfold timersKept, mapDelete. simpl.
  split_and!; try (by apply NoDup_fmap_filter); [by apply Forall_filter_keep|].
  apply Forall_forall. intros e [Hne Hin]%list_elem_of_filter.
  rewrite Forall_forall in He. destruct (He e Hin) as (? & Hm & ?).
  split_and!; [done| |done].
  fold (mapDelete k (activeTimers w)). rewrite mapGet_mapDelete_ne; [done|].
  intros E. rewrite E in Hm. congruence.
Qed.

Lemma timersKept_rearm k w :
  timersKept w → timersKept (armGameTimer k 60000 (clearGameTimer k w)).
Proof.
  intros HK. apply (timersKept_clearGameTimer k) in HK.
  destruct (clearGameTimer_cleared k w) as [Hnone _].
  set (w1 := clearGameTimer k w) in *.
  destruct HK as (Hk & Hh & Hs & Ha & He).
  unfold timersKept, armGameTimer. simpl.
  rewrite (mapSet_None _ _ _ Hnone), !fmap_app. simpl.
  rewrite Forall_forall in Ha. rewrite Forall_forall in He.
  split_and!.
  - apply NoDup_app. split_and!; [done| |apply NoDup_singleton].
    intros a Hx ->%list_elem_of_singleton. by apply mapGet_None_keys in Hnone.
  - apply NoDup_app. split_and!; [done| |apply NoDup_singleton].
    intros a (kv & -> & Hin)%list_elem_of_fmap Heq%list_elem_of_singleton.
    specialize (Ha _ Hin). lia.
  - apply NoDup_app. split_and!; [done| |apply NoDup_singleton].
    intros a (e & -> & Hin)%list_elem_of_fmap Heq%list_elem_of_singleton.
    destruct (He _ Hin) as (? & _). lia.
  - apply Forall_app. split.
    + apply Forall_forall. intros kv Hin. specialize (Ha _ Hin). lia.
    + apply Forall_singleton. simpl. lia.
  - apply Forall_app. split.
    + apply Forall_forall. intros e Hin. destruct (He _ Hin) as (? & Hm & ?).
      split_and!; [lia| |done]. by apply mapGet_app_l.
    + apply Forall_singleton. simpl. split_and!; [lia| |done].
      rewrite mapGet_app_r by done. rewrite mapGet_cons. by rewrite decide_True.
Qed.

Lemma timersKept_foldl_clearIfCut sock xs : ∀ w,
  timersKept w → timersKept (foldl (clearIfCut sock) w xs).
Proof.
  induction xs as [|x xs IH]; intros w HK; [done|]. simpl. apply IH.
  unfold clearIfCut. destruct (cutsRound sock x); [|done].
  by apply timersKept_clearGameTimer.
Qed.

Lemma effect_timersKept now c w w' :
  effect now c w w' → timersKept w → timersKept w'.
Proof.
  intros [|sock u sid D Hc Hfresh HD Hv|sock u sid s0 D Hc Hf HD Hv
         |sock sid q a s0 Hc Hf Hgm Hst Hq Hans|sock sid s0 Hc Hf Hgm Hst Hn Hq' Ha'
         |sock sid g s0 j p0 Hc Hf Hst Hp Hgm Hlt Hw Hex
         |sock sid g s0 j p0 Hc Hf Hst Hp Hgm Hlt Hw Hex
         |sock sid g s0 j p0 Hc Hf Hst Hp Hgm Hlt Hw
         |sock sid s0 Hc Hf Hgm|h k sid d Hc Hh Hno
         |h k sid d s0 Hc Hh Hf Hst|sock Hc] HK; try done.
  - by apply timersKept_rearm.
  - by apply timersKept_clearGameTimer.
  - by apply timersKept_clearGameTimer.
  - by apply timersKept_clearTimeout.
  - by apply timersKept_clearGameTimer, timersKept_put, timersKept_clearTimeout.
  - unfold leaveAll. fold (clearIfCut sock).
    by apply (timersKept_foldl_clearIfCut sock (store w) w) in HK.
Qed.

Lemma reachable_timersKept cl w : reachable cl w → timersKept w.
Proof.
  induction 1 as [|cl w now c Hr IH Hen].
  - split_and!; simpl; constructor.
  - eapply effect_timersKept; [|done].
    eapply run_effect. by apply reachable_Inv.
Qed.

End TimerSteps.

Section Pending.
Implicit Types (s D x : Session) (st : list Session) (w : World)
  (c : Command) (cl : list string) (e : nat * (string * Z)).

Lemma pendingFor_put k D w : pendingFor k (put D w) ↔ pendingFor k w.
Proof. done. Qed.

Lemma pendingFor_clearGameTimer k k' w :
  timersKept w → lookupKey k ≠ k' →
  pendingFor k' w → pendingFor k' (clearGameTimer k w).
Proof.
  intros HK Hne (e & Hin & He)%Exists_exists. apply Exists_exists.
  exists e. split; [|done]. unfold clearGameTimer.
  destruct (mapGet k (activeTimers w)) as [h|] eqn:Hg; [|done]. simpl.
  apply list_elem_of_filter. split; [|done]. intros Eh.
  pose proof HK as (_ & _ & _ & _ & Hall). rewrite Forall_forall in Hall.
  destruct (Hall e Hin) as (_ & Hm & _). rewrite Eh in Hm.
  apply Hne. rewrite <- He. f_equal. by eapply timersKept_same_handle.
Qed.

Lemma pendingFor_clearTimeout h i sid d k' w :
  timersKept w →
  list_find (λ e, e.1 = h) (scheduled w) = Some (i, (h, (sid, d))) →
  lookupKey sid ≠ k' →
  pendingFor k' w → pendingFor k' (clearTimeout h w).
Proof.
  intros (_ & _ & Hnd & _) (Hi & _ & _)%list_find_Some Hne
         (e & Hin & He)%Exists_exists.
  apply Exists_exists. exists e. split; [|done]. simpl.
  apply list_elem_of_filter. split; [|done]. intros Eh.
  apply list_elem_of_lookup in Hin as [j Hj].
  assert (j = i) as ->.
  { eapply NoDup_lookup; [exact Hnd| |].
    - by rewrite list_lookup_fmap, Hj.
    - rewrite list_lookup_fmap, Hi. simpl. by rewrite Eh. }
  rewrite Hi in Hj. injection Hj as <-. by apply Hne.
Qed.

Lemma pendingFor_armGameTimer_old k d k' w :
  pendingFor k' w → pendingFor k' (armGameTimer k d w).
Proof. intros H. apply Exists_app. by left. Qed.

Lemma pendingFor_armGameTimer_new k d w :
  pendingFor (lookupKey k) (armGameTimer k d w).
Proof. apply Exists_app. right. by apply Exists_cons_hd. Qed.

Lemma findBySessionId_by_key sid st s :
  NoDup (sessionId <$> st) → s ∈ st → sessionId s = lookupKey sid →
  findBySessionId sid st = Some s.
Proof.
  intros Hnd Hin Hk.
  destruct (findBySessionId sid st) as [y|] eqn:Hf.
  - apply findBySessionId_elem_of in Hf as [Hy Hky].
    f_equal. eapply store_unique; [done..|congruence].
  - eapply findBySessionId_None in Hf; [|done]. congruence.
Qed.

Lemma storePut_members st sid s0 D s' :
  NoDup (sessionId <$> st) →
  findBySessionId sid st = Some s0 → sessionId D = sessionId s0 →
  s' ∈ storePut D st →
  s' = D ∨ (s' ∈ st ∧ sessionId s' ≠ sessionId s0).
Proof.
  intros Hnd Hf Hk Hin.
  apply findBySessionId_Some in Hf as (i0 & Hi0 & _).
  rewrite (storePut_lookup D st i0 s0) in Hin by done.
  apply list_elem_of_lookup in Hin as [i Hi].
  destruct (decide (i = i0)) as [->|Hne].
  - rewrite list_lookup_insert_eq in Hi by (by eapply lookup_lt_Some).
    left. congruence.
  - rewrite list_lookup_insert_ne in Hi by done. right.
    split; [by eapply list_elem_of_lookup_2|].
    intros E. apply Hne. by eapply NoDup_ids_lookup.
Qed.

(** A step that saves [D] in place of [s0] and then works on the timers. *)
Lemma roundsTimed_step w wt sid s0 D :
  NoDup (sessionId <$> store w) → roundsTimed w →
  findBySessionId sid (store w) = Some s0 → sessionId D = sessionId s0 →
  store wt = storePut D (store w) →
  (status D = in_progress → pendingFor (sessionId s0) wt) →
  (∀ k', k' ≠ sessionId s0 → pendingFor k' w → pendingFor k' wt) →
  roundsTimed wt.
Proof.
  intros Hnd HL Hf Hk Hst HD Hother s' Hin Hp.
  rewrite Hst in Hin.
  destruct (storePut_members _ _ _ _ _ Hnd Hf Hk Hin) as [->|[Hs' Hne]].
  - rewrite Hk. by apply HD.
  - apply Hother; [done|]. by apply HL.
Qed.

Lemma pendingFor_foldl_clearIfCut sock k' xs : ∀ w,
  timersKept w →
  Forall (λ x, cutsRound sock x = true → lookupKey (sessionId x) ≠ k') xs →
  pendingFor k' w → pendingFor k' (foldl (clearIfCut sock) w xs).
Proof.
  induction xs as [|x xs IH]; intros w HK Hall Hp; [done|].
  apply Forall_cons in Hall as [Hx Hall]. simpl. apply IH; [|done|].
  - unfold clearIfCut. destruct (cutsRound sock x); [|done].
    by apply timersKept_clearGameTimer.
  - unfold clearIfCut. destruct (cutsRound sock x); [|done].
    apply pendingFor_clearGameTimer; auto.
Qed.

Lemma effect_roundsTimed cl now c w w' :
  Inv cl w → timersKept w → effect now c w w' →
  roundsTimed w → roundsTimed w'.
Proof.
  intros (Hnd & Hval & Htidy) HK He HL.
  assert (∀ sid s0, findBySessionId sid (store w) = Some s0 →
                    lookupKey sid = sessionId s0) as Hkey.
  { intros sid s0 Hf. by apply findBySessionId_elem_of in Hf as [_ ->]. }
  assert (∀ sid s0, findBySessionId sid (store w) = Some s0 →
                    status s0 = in_progress →
                    pendingFor (sessionId s0) w) as Hlive.
  { intros sid s0 Hf Hp. apply HL; [|done].
    by apply findBySessionId_elem_of in Hf as [? _]. }
  destruct He as [|sock u sid D Hc Hfresh HD Hv|sock u sid s0 D Hc Hf HD Hv
         |sock sid q a s0 Hc Hf Hgm Hst Hq Hans|sock sid s0 Hc Hf Hgm Hst Hn Hq' Ha'
         |sock sid g s0 j p0 Hc Hf Hst Hp Hgm Hlt Hw Hex
         |sock sid g s0 j p0 Hc Hf Hst Hp Hgm Hlt Hw Hex
         |sock sid g s0 j p0 Hc Hf Hst Hp Hgm Hlt Hw
         |sock sid s0 Hc Hf Hgm|h k sid d Hc Hh Hno
         |h k sid d s0 Hc Hh Hf Hst|sock Hc].
  - done.
  - intros s' Hin Hp'. simpl in Hin. apply elem_of_app in Hin as [Hin|Hin].
    + by apply HL.
    + apply list_elem_of_singleton in Hin. subst s'. by subst D.
  - apply joinDoc_frame in HD as (Hid & Hst & _).
    eapply (roundsTimed_step w _ sid s0 (set_updatedAt now D));
      [done|done|done| |done| |done].
    + done.
    + simpl. rewrite Hst. by eapply Hlive.
  - eapply (roundsTimed_step w _ sid s0 (set_updatedAt now _));
      [done|done|done| |reflexivity| |done].
    + done.
    + simpl. congruence.
  - eapply (roundsTimed_step w _ sid s0 (set_updatedAt now (startDoc now s0)));
      [done|done|done| | | |].
    + reflexivity.
    + by rewrite store_armGameTimer, store_clearGameTimer.
    + intros _. rewrite <- (Hkey _ _ Hf). apply pendingFor_armGameTimer_new.
    + intros k' Hne Hpd. apply pendingFor_armGameTimer_old.
      apply pendingFor_clearGameTimer; [done| |done].
      rewrite (Hkey _ _ Hf). congruence.
  - eapply (roundsTimed_step w _ sid s0 (set_updatedAt now (guessDoc j s0)));
      [done|done|done| |done| |done].
    + done.
    + simpl. intros _. by eapply Hlive.
  - eapply (roundsTimed_step w _ sid s0
              (set_updatedAt now (rotateDoc now (set_status ended (guessDoc j s0)))));
      [done|done|done| | | |].
    + exact (proj1 (rotateDoc_frame now _)).
    + rewrite store_clearGameTimer. reflexivity.
    + simpl. rewrite rotateDoc_status_ended; done.
    + intros k' Hne Hpd. apply pendingFor_clearGameTimer; [done| |done].
      rewrite (Hkey _ _ Hf). congruence.
  - eapply (roundsTimed_step w _ sid s0
              (set_updatedAt now (rotateDoc now (winDoc j (username p0) s0))));
      [done|done|done| | | |].
    + exact (proj1 (rotateDoc_frame now _)).
    + rewrite store_clearGameTimer. reflexivity.
    + simpl. rewrite rotateDoc_status_ended; done.
    + intros k' Hne Hpd. apply pendingFor_clearGameTimer; [done| |done].
      rewrite (Hkey _ _ Hf). congruence.
  - eapply (roundsTimed_step w _ sid s0 (set_updatedAt now (nextRoundDoc s0)));
      [done|done|done| |done| |done].
    + done.
    + done.
  - intros s' Hin Hp'. simpl in Hin.
    eapply pendingFor_clearTimeout; [done|done| |by apply HL].
    intros E. eapply Hno; [|done].
    by apply findBySessionId_by_key.
  - eapply (roundsTimed_step w _ sid s0
              (set_updatedAt now (rotateDoc now (set_status ended s0))));
      [done|done|done| | | |].
    + exact (proj1 (rotateDoc_frame now _)).
    + rewrite store_clearGameTimer. reflexivity.
    + simpl. rewrite rotateDoc_status_ended; done.
    + intros k' Hne Hpd. apply pendingFor_clearGameTimer.
      * by apply timersKept_put, timersKept_clearTimeout.
      * rewrite (Hkey _ _ Hf). congruence.
      * apply pendingFor_put. eapply pendingFor_clearTimeout; [done|done| |done].
        rewrite (Hkey _ _ Hf). congruence.
  - intros s' Hin Hp'. unfold leaveAll in Hin. simpl in Hin.
    apply list_elem_of_fmap in Hin as (x & -> & Hx).
    destruct (leaveDoc_frame sock now x) as (Hid & _ & _ & _ & _ & Hst & _).
    assert (cutsRound sock x = false ∧ status x = in_progress) as [Hcut Hpx].
    { destruct (playsIn sock x) eqn:Hplays.
      - simpl in Hp'. rewrite Hst in Hp'.
        destruct (cutsRound sock x); [done|]. done.
      - split; [|done]. unfold cutsRound. by rewrite Hplays. }
    assert (pendingFor (sessionId x) w) as Hpend by (by apply HL).
    assert (sessionId (if playsIn sock x
                       then set_updatedAt now (leaveDoc sock now x) else x)
            = sessionId x) as -> by (by destruct (playsIn sock x)).
    unfold pendingFor, leaveAll. simpl. fold (clearIfCut sock).
    apply pendingFor_foldl_clearIfCut; [done| |done].
    apply Forall_forall. intros y Hy Hcy E.
    rewrite Forall_forall in Htidy. destruct (Htidy y Hy) as (Hky & _).
    rewrite Hky in E.
    assert (y = x) as -> by (by eapply store_unique).
    congruence.
Qed.

Lemma reachable_roundsTimed cl w : reachable cl w → roundsTimed w.
Proof.
  induction 1 as [|cl w now c Hr IH Hen].
  - by intros s ?%elem_of_nil.
  - pose proof (reachable_Inv _ _ Hr) as HI.
    eapply (effect_roundsTimed cl now c w); [done| | |done].
    + by eapply reachable_timersKept.
    + by apply (run_effect cl).
Qed.

End Pending.

(** * The timers *)

(** X21.  In every reachable state the timers are in order: [activeTimers]
    holds one handle per session id as it was sent and no handle twice;
    the pending timeouts have different handles and capture different ids,
    each is the one that [activeTimers] holds for the id it captured, and
    each runs for 60 seconds. *)
Theorem timers_well_kept cl w :
  reachable cl w →
  timersKept w ∧ NoDup ((λ e, e.2.1) <$> scheduled w).
Proof.
  intros Hr. pose proof (reachable_timersKept _ _ Hr) as HK.
  split; [done|]. destruct HK as (_ & _ & Hnd & _ & Hall).
  rewrite Forall_forall in Hall.
  apply NoDup_fmap_2_strong; [|by eapply NoDup_fmap_1].
  intros e1 e2 H1 H2 E.
  destruct (Hall _ H1) as (_ & Hm1 & _), (Hall _ H2) as (_ & Hm2 & _).
  rewrite E, Hm2 in Hm1. injection Hm1 as Eh.
  apply list_elem_of_lookup in H1 as [i Hi], H2 as [j Hj].
  assert (i = j) as ->.
  { eapply NoDup_lookup; [exact Hnd| |].
    - by rewrite list_lookup_fmap, Hi.
    - rewrite list_lookup_fmap, Hj. simpl. by rewrite Eh. }
  congruence.
Qed.

Lemma timers_well_kept_witness :
  NoDup ((λ e, e.2.1) <$> scheduled Scenario.secondRoundWorld).
Proof.
  refine (proj2 (timers_well_kept [] Scenario.secondRoundWorld _)).
  assert (Scenario.worldAfter Scenario.secondRound = Scenario.secondRoundWorld)
    as <- by (vm_compute; reflexivity).
  apply (reachable_scenario Scenario.secondRound). vm_compute. reflexivity.
Defined.

(** X22.  In every reachable state a session in progress has a pending
    timeout of 60 seconds whose callback looks up that session; the expiry
    of this timeout is an event that can happen. *)
Theorem round_has_timeout cl w s :
  reachable cl w → s ∈ store w → status s = in_progress →
  ∃ h sid,
    (h, (sid, 60000)) ∈ scheduled w
    ∧ findBySessionId sid (store w) = Some s
    ∧ enabled cl (on_timeout h) w = true.
Proof.
  intros Hr Hs Hp.
  pose proof (reachable_Inv _ _ Hr) as (Hnd & _ & _).
  pose proof (reachable_timersKept _ _ Hr) as (_ & _ & _ & _ & Hall).
  destruct (proj1 (Exists_exists _ _) (reachable_roundsTimed _ _ Hr s Hs Hp))
    as ([h [sid d]] & Hin & Hk).
  rewrite Forall_forall in Hall. destruct (Hall _ Hin) as (_ & _ & Hd).
  simpl in *. subst d. exists h, sid. split_and!; [done| |].
  - by apply findBySessionId_by_key.
  - apply bool_decide_eq_true. apply Exists_exists. eauto.
Qed.

Lemma round_has_timeout_witness :
  ∃ h sid, (h, (sid, 60000)) ∈ scheduled Scenario.playingUpperWorld
           ∧ findBySessionId sid (store Scenario.playingUpperWorld)
             = Some (Scenario.sessionAfter Scenario.playingUpper).
Proof.
  destruct (round_has_timeout [] Scenario.playingUpperWorld
              (Scenario.sessionAfter Scenario.playingUpper)
              playingUpperWorld_reachable)
    as (h & sid & H1 & H2 & _).
  - vm_compute. by left.
  - vm_compute. reflexivity.
  - exists h, sid. split; [exact H1|exact H2].
Defined.

(** ** How a round ends *)

Section RoundEnds.
Implicit Types (s D x : Session) (st : list Session) (w : World)
  (c : Command) (cl : list string).

Local Arguments rotateDoc : simpl never.

Lemma attempts_rotateDoc now s :
  attempts <$> players (rotateDoc now s) = attempts <$> players s.
Proof.
  destruct (rotateDoc_frame now s) as (_ & _ & _ & _ & _ & _ & [->|[i ->]]);
    [done|]. by apply fmap_alter_same.
Qed.

Lemma list_find_handle h sid d (l : list (nat * (string * Z))) :
  NoDup (fst <$> l) → (h, (sid, d)) ∈ l →
  ∃ i, list_find (λ e, e.1 = h) l = Some (i, (h, (sid, d))).
Proof.
  intros Hnd [i Hi]%list_elem_of_lookup. exists i.
  apply list_find_Some. split_and!; [done|done|].
  intros j e Hj Hlt Eh. assert (j = i); [|lia].
  eapply NoDup_lookup; [exact Hnd| |].
  - by rewrite list_lookup_fmap, Hj.
  - rewrite list_lookup_fmap, Hi. simpl. by rewrite Eh.
Qed.


Lemma scheduled_clearGameTimer_sub k w e :
  e ∈ scheduled (clearGameTimer k w) → e ∈ scheduled w.
Proof.
  unfold clearGameTimer. destruct (mapGet k (activeTimers w)); [|done].
  simpl. by intros [_ ?]%list_elem_of_filter.
Qed.

(** X23.  The expiry, in a reachable state, of a timeout whose id leads to
    a session in progress ends the round: the session is [ended], without
    a change of winner, question, answer, scores or attempts;
    [game_ended] with reason [timeout] and the answer is the first message,
    sent to the room named by the id that the timeout captured, and no
    other [game_ended] follows; the timeout is no longer pending and
    [activeTimers] has no entry for that id. *)
Theorem timeout_ends_round cl w now h sid d s :
  reachable cl w →
  (h, (sid, d)) ∈ scheduled w →
  findBySessionId sid (store w) = Some s →
  status s = in_progress →
  let r := run now (on_timeout h) w in
  ∃ s',
    findBySessionId sid (store r.1) = Some s'
    ∧ status s' = ended ∧ winner s' = winner s
    ∧ currentQuestion s' = currentQuestion s
    ∧ currentAnswer s' = currentAnswer s
    ∧ (score <$> players s') = (score <$> players s)
    ∧ (attempts <$> players s') = (attempts <$> players s)
    ∧ (∃ rest, r.2 = (ToRoom sid,
                      game_ended "timeout" None (currentAnswer s) (players s))
                     :: rest
               ∧ Forall (λ e, isGameEnded e = false) rest)
    ∧ Forall (λ e, e.1 ≠ h) (scheduled r.1)
    ∧ mapGet sid (activeTimers r.1) = None.
Proof.
  intros Hr Hin Hf Hst r.
  pose proof (reachable_Inv _ _ Hr) as (Hnd & Hval & _).
  pose proof (reachable_timersKept _ _ Hr) as (_ & _ & Hh & _).
  destruct (list_find_handle _ _ _ _ Hh Hin) as [i Hfind].
  pose proof (findBySessionId_elem_of _ _ _ Hf) as [Hs _].
  rewrite Forall_forall in Hval. pose proof (Hval _ Hs) as Hv.
  assert (players s ≠ []) as Hne
    by (apply validSession_nonempty; [done|by rewrite Hst]).
  set (D := set_updatedAt now (rotateDoc now (set_status ended s))).
  assert (∃ rot, r = (clearGameTimer sid (put D (clearTimeout h w)),
                      (ToRoom sid,
                       game_ended "timeout" None (currentAnswer s) (players s))
                      :: rot ++ [(ToRoom sid, chat_system)])
                 ∧ Forall (λ e, isGameEnded e = false) rot)
    as (rot & -> & Hquiet).
  { subst r. simpl. unfold fireTimeout. rewrite Hfind.
    unfold roundTimerCallback. simpl. rewrite Hf, Hst.
    rewrite bool_decide_true by done.
    rewrite save_put by (by apply validSession_status).
    pose proof (rotateGameMaster_quiet sid now
                  (put (set_updatedAt now (set_status ended s))
                       (clearTimeout h w))) as Hq.
    pose proof (rotateGameMaster_exact sid now
                  (put (set_updatedAt now (set_status ended s))
                       (clearTimeout h w))
                  (set_updatedAt now (set_status ended s))) as Hex.
    destruct (rotateGameMaster sid now _) as [w2 rot]. simpl in *.
    exists rot. split; [|done]. rewrite Hex.
    - rewrite stamp_rotateDoc, put_put; [done|].
      exact (proj1 (rotateDoc_frame now (set_status ended s))).
    - by eapply findBySessionId_storePut.
    - by apply validSession_status.
    - done. }
  destruct (rotateDoc_frame now (set_status ended s))
    as (Hid & Hq & Ha & Hw & _).
  exists D. cbn [fst snd]. split_and!.
  - rewrite store_clearGameTimer. by eapply findBySessionId_put.
  - by apply rotateDoc_status_ended.
  - done.
  - done.
  - done.
  - exact (proj2 (sameScores_rotateDoc now (set_status ended s))).
  - exact (attempts_rotateDoc now (set_status ended s)).
  - eexists. split; [done|]. apply Forall_app. split; [done|].
    by repeat constructor.
  - apply Forall_forall. intros e He%scheduled_clearGameTimer_sub.
    simpl in He. by apply list_elem_of_filter in He as [? _].
  - apply clearGameTimer_cleared.
Qed.

Lemma timeout_ends_round_witness :
  ∃ s', findBySessionId "ABC12"
          (store (run 64000 (on_timeout 0) Scenario.playingUpperWorld).1)
        = Some s' ∧ status s' = ended.
Proof.
  destruct (timeout_ends_round [] Scenario.playingUpperWorld 64000 0%nat
              "ABC12" 60000 (Scenario.sessionAfter Scenario.playingUpper)
              playingUpperWorld_reachable)
    as (s' & H1 & H2 & _).
  - vm_compute. by left.
  - vm_compute. reflexivity.
  - vm_compute. reflexivity.
  - exists s'. split; [exact H1|exact H2].
Defined.




End RoundEnds.
